(** * Hori-s.FM: the live broadcast session subsystem

    A shallow embedding of three pieces of the extension:

    - [TransitionScheduler]: the DJ state machine of
      [src/extension/content.ts] ([mainLoop], [playBufferedAudio] and the
      asynchronous callbacks they register);
    - [LiveCall]: the class [LiveCallService] of
      [src/services/ytmApiService.ts];
    - [RemoteSocket]: the class [RemoteSocketSource].

    The code runs on a single-threaded event loop.  Every callback is
    modelled as a handler of type [state -> state * list action]: the
    handler's synchronous body, from its entry to the next [await] or to its
    end.  A value captured by a closure (the [sig] of a generation request,
    the [sessionId] of a live session, a source node) travels in the event
    that runs the closure.  Times are seconds, as rationals. *)

From stdpp Require Import gmap strings list.
From Stdlib Require Import QArith Qminmax Qabs Lqa DecimalString.

#[local] Open Scope Q_scope.

(** ** JavaScript helpers *)

(** Truthiness of a string: every string but the empty one. *)
Definition truthy_str (s : string) : bool :=
  match s with
  | EmptyString => false
  | String _ _ => true
  end.

(** Truthiness of [string | null]. *)
Definition truthy_ostr (o : option string) : bool :=
  match o with
  | Some s => truthy_str s
  | None => false
  end.

(** Truthiness of a number (NaN is not modelled): every number but zero. *)
Definition truthy_num (x : Q) : bool := negb (Qeq_bool x 0).

Definition Qlt_bool (x y : Q) : bool := negb (Qle_bool y x).

(** [Math.max] on two numbers. *)
Definition Math_max (a b : Q) : Q := if Qle_bool a b then b else a.

(** ** The DJ transition scheduler ([src/extension/content.ts]) *)

Module TransitionScheduler.

Inductive DJState := IDLE | GENERATING | READY | PLAYING | COOLDOWN.

Definition DJState_eqb (a b : DJState) : bool :=
  match a, b with
  | IDLE, IDLE | GENERATING, GENERATING | READY, READY
  | PLAYING, PLAYING | COOLDOWN, COOLDOWN => true
  | _, _ => false
  end.

(** [interface State] and the module-level [let state]. *)
Record State := mkState {
  status : DJState;
  currentSongSig : string;
  bufferedAudio : option string;
  generatedForSig : option string;
  lastTime : Q
}.

Definition initial : State :=
  {| status := IDLE; currentSongSig := ""; bufferedAudio := None;
     generatedForSig := None; lastTime := 0 |}.

Definition set_status (d : DJState) (st : State) : State :=
  {| status := d; currentSongSig := currentSongSig st;
     bufferedAudio := bufferedAudio st;
     generatedForSig := generatedForSig st; lastTime := lastTime st |}.

Definition set_bufferedAudio (b : option string) (st : State) : State :=
  {| status := status st; currentSongSig := currentSongSig st;
     bufferedAudio := b;
     generatedForSig := generatedForSig st; lastTime := lastTime st |}.

Definition set_generatedForSig (g : option string) (st : State) : State :=
  {| status := status st; currentSongSig := currentSongSig st;
     bufferedAudio := bufferedAudio st;
     generatedForSig := g; lastTime := lastTime st |}.

Definition set_currentSongSig (c : string) (st : State) : State :=
  {| status := status st; currentSongSig := c;
     bufferedAudio := bufferedAudio st;
     generatedForSig := generatedForSig st; lastTime := lastTime st |}.

Definition set_lastTime (t : Q) (st : State) : State :=
  {| status := status st; currentSongSig := currentSongSig st;
     bufferedAudio := bufferedAudio st;
     generatedForSig := generatedForSig st; lastTime := t |}.

(** The three assignments [status = 'IDLE'; bufferedAudio = null;
    generatedForSig = null] shared by the reset paths. *)
Definition reset (st : State) : State :=
  set_generatedForSig None (set_bufferedAudio None (set_status IDLE st)).

(** What a tick reads from the page: the [video] element, the scraped song
    information and the state of the extension API. *)
Record Video := mkVideo {
  paused : bool;
  duration : Q;
  currentTime : Q;
  volume : Q
}.

Record TickEnv := mkTickEnv {
  runtime_alive : bool;       (* chrome.runtime?.id *)
  video : option Video;       (* getMoviePlayer() *)
  title : string;             (* getSongInfo().current.title *)
  artist : string;            (* getSongInfo().current.artist *)
  storage_available : bool;   (* chrome.storage.local is there *)
  storage_throws : bool       (* chrome.storage.local.get throws *)
}.

Inductive Action :=
| ClearMainLoop                       (* clearInterval(mainLoop) *)
| StorageGet (sig : string)           (* chrome.storage.local.get, callback closed over sig *)
| SendGenerateIntro (sig : string)    (* chrome.runtime.sendMessage, callback closed over sig *)
| StartActiveDucking (originalVolume : Q)
| StopActiveDucking (restoreTo : Q)
| AudioPlay (src : string)            (* audioEl.src = src; audioEl.play() *)
| SetCooldownTimer.                   (* setTimeout(..., 5000) *)

(** [data:audio/wav;base64,${state.bufferedAudio}] *)
Definition data_url (audio : string) : string :=
  String.append "data:audio/wav;base64," audio.

(** [state.generatedForSig !== state.currentSongSig], negated: [null] is
    different from every string. *)
Definition sig_matches (g : option string) (c : string) : bool :=
  match g with
  | Some s => String.eqb s c
  | None => false
  end.

Definition make_sig (t a : string) : string :=
  String.append t (String.append "|" a).

(** [playBufferedAudio], up to [await audioEl.play()]. *)
Definition playBufferedAudio (v : option Video) (st : State)
  : State * list Action :=
  match bufferedAudio st with
  | None => (st, [])
  | Some audio =>
    if negb (truthy_str audio) then (st, [])
    else if negb (sig_matches (generatedForSig st) (currentSongSig st))
    then (reset st, [])
    else
      let originalVolume :=
        match v with Some vid => volume vid | None => 1 end in
      (set_status PLAYING st,
       [StartActiveDucking originalVolume; AudioPlay (data_url audio)])
  end.

(** The rest of [playBufferedAudio] once [audioEl.play()] settled. *)
Definition play_resolved (st : State) : State * list Action := (st, []).

Definition play_rejected (originalVolume : Q) (st : State)
  : State * list Action :=
  (set_status IDLE st, [StopActiveDucking originalVolume]).

(** [audioEl.onended] *)
Definition audio_onended (originalVolume : Q) (st : State)
  : State * list Action :=
  (set_bufferedAudio None (set_status COOLDOWN st),
   [StopActiveDucking originalVolume; SetCooldownTimer]).

(** The timer armed by [audioEl.onended]. *)
Definition cooldown_timeout (st : State) : State * list Action :=
  (if DJState_eqb (status st) COOLDOWN then set_status IDLE st else st, []).

(** The callback of [chrome.storage.local.get]. *)
Definition storage_callback (sig : string) (lastError enabled : bool)
  (st : State) : State * list Action :=
  if lastError then (st, [])
  else if negb enabled then (set_status COOLDOWN st, [])
  else (st, [SendGenerateIntro sig]).

(** The response to [GENERATE_INTRO]: [None] is a missing response, and
    [Some None] a response without [audio]. *)
Definition response_audio (response : option (option string)) : option string :=
  match response with
  | Some (Some a) => if truthy_str a then Some a else None
  | _ => None
  end.

(** The callback of [chrome.runtime.sendMessage]; [sig] is the signature
    the closure captured when the request was made. *)
Definition generate_callback (sig : string) (lastError : bool)
  (response : option (option string)) (st : State) : State * list Action :=
  if lastError then (st, [])
  else if negb (String.eqb (currentSongSig st) sig) then (st, [])
  else match response_audio response with
       | Some a => (set_status READY (set_bufferedAudio (Some a) st), [])
       | None => (set_status COOLDOWN st, [])
       end.

(** The reset logic at the head of a tick. *)
Definition reset_logic (sig : string) (now : Q) (st : State) : State :=
  let st1 :=
    if negb (String.eqb sig (currentSongSig st))
    then reset (set_currentSongSig sig st) else st in
  let st2 := if Qlt_bool (now + 5) (lastTime st1) then reset st1 else st1 in
  set_lastTime now st2.

(** The body of the [setInterval] callback [mainLoop]. *)
Definition mainLoop (env : TickEnv) (st : State) : State * list Action :=
  if negb (runtime_alive env) then (st, [ClearMainLoop])
  else match video env with
  | None => (st, [])
  | Some v =>
    if paused v || negb (truthy_num (duration v)) then (st, [])
    else
      let sig := make_sig (title env) (artist env) in
      let now := currentTime v in
      let timeLeft := duration v - now in
      let st := reset_logic sig now st in
      let ready_branch (st : State) (acts : list Action) :=
        if DJState_eqb (status st) READY && Qlt_bool timeLeft 12
        then let '(st', acts') := playBufferedAudio (Some v) st in
             (st', acts ++ acts')
        else (st, acts) in
      if DJState_eqb (status st) IDLE && Qlt_bool timeLeft 45
         && Qlt_bool 10 timeLeft
      then
        if negb (truthy_str (title env)) || negb (truthy_str (artist env))
        then (st, [])
        else
          let st := set_generatedForSig (Some sig) (set_status GENERATING st) in
          if negb (storage_available env) then (st, [])
          else if storage_throws env then ready_branch st [ClearMainLoop]
          else ready_branch st [StorageGet sig]
      else ready_branch st []
  end.

Inductive Event :=
| Tick (env : TickEnv)
| StorageResult (sig : string) (lastError enabled : bool)
| GenerateResponse (sig : string) (lastError : bool)
    (response : option (option string))
| PlayResolved
| PlayRejected (originalVolume : Q)
| AudioEnded (originalVolume : Q)
| CooldownTimeout.

Definition step (st : State) (e : Event) : State * list Action :=
  match e with
  | Tick env => mainLoop env st
  | StorageResult sig le en => storage_callback sig le en st
  | GenerateResponse sig le r => generate_callback sig le r st
  | PlayResolved => play_resolved st
  | PlayRejected v => play_rejected v st
  | AudioEnded v => audio_onended v st
  | CooldownTimeout => cooldown_timeout st
  end.

(** Running a sequence of events: the final state and everything done. *)
Fixpoint run (st : State) (evs : list Event) : State * list Action :=
  match evs with
  | [] => (st, [])
  | e :: evs' =>
    let '(st1, a1) := step st e in
    let '(st2, a2) := run st1 evs' in
    (st2, a1 ++ a2)
  end.

(** A tick on a playing video with a healthy extension API. *)
Definition playing_tick (t a : string) (dur pos : Q) : Event :=
  Tick {| runtime_alive := true;
          video := Some {| paused := false; duration := dur;
                           currentTime := pos; volume := 1 |};
          title := t; artist := a;
          storage_available := true; storage_throws := false |}.

End TransitionScheduler.

(** ** The live call service ([src/services/ytmApiService.ts]) *)

Module LiveCall.

(** [interface LiveCallConfig].  The three callbacks of a configuration
    are told apart by the configuration that carries them: calling one is
    an [Action] naming that configuration. *)
Record LiveCallConfig := mkConfig {
  apiKey : string;
  callerName : string;
  reason : string;
  previousSongTitle : string;
  previousSongArtist : string;
  nextSongTitle : string;
  nextSongArtist : string;
  voice : string;
  language : string
}.

(** Browser objects are known by their identity. *)
Definition AudioContext := nat.
Definition MediaStream := nat.
Definition SessionPromise := nat.
Definition SourceNode := nat.

(** The private fields of [class LiveCallService]. *)
Record LiveCallService := mkService {
  liveInputContext : option AudioContext;
  liveOutputContext : option AudioContext;
  liveStream : option MediaStream;
  liveSession : option SessionPromise;
  liveSources : gset SourceNode;
  liveNextStartTime : Q;
  liveSilenceInterval : option nat;
  isLiveActive : bool;
  config : option LiveCallConfig;
  currentSessionId : nat
}.

(** The state after [constructor() { }]. *)
Definition new_service : LiveCallService :=
  {| liveInputContext := None; liveOutputContext := None;
     liveStream := None; liveSession := None; liveSources := ∅;
     liveNextStartTime := 0; liveSilenceInterval := None;
     isLiveActive := false; config := None; currentSessionId := 0%nat |}.

Definition set_liveInputContext (x : option AudioContext) (s : LiveCallService) :=
  {| liveInputContext := x; liveOutputContext := liveOutputContext s;
     liveStream := liveStream s; liveSession := liveSession s;
     liveSources := liveSources s; liveNextStartTime := liveNextStartTime s;
     liveSilenceInterval := liveSilenceInterval s;
     isLiveActive := isLiveActive s; config := config s;
     currentSessionId := currentSessionId s |}.

Definition set_liveOutputContext (x : option AudioContext) (s : LiveCallService) :=
  {| liveInputContext := liveInputContext s; liveOutputContext := x;
     liveStream := liveStream s; liveSession := liveSession s;
     liveSources := liveSources s; liveNextStartTime := liveNextStartTime s;
     liveSilenceInterval := liveSilenceInterval s;
     isLiveActive := isLiveActive s; config := config s;
     currentSessionId := currentSessionId s |}.

Definition set_liveStream (x : option MediaStream) (s : LiveCallService) :=
  {| liveInputContext := liveInputContext s;
     liveOutputContext := liveOutputContext s;
     liveStream := x; liveSession := liveSession s;
     liveSources := liveSources s; liveNextStartTime := liveNextStartTime s;
     liveSilenceInterval := liveSilenceInterval s;
     isLiveActive := isLiveActive s; config := config s;
     currentSessionId := currentSessionId s |}.

Definition set_liveSession (x : option SessionPromise) (s : LiveCallService) :=
  {| liveInputContext := liveInputContext s;
     liveOutputContext := liveOutputContext s;
     liveStream := liveStream s; liveSession := x;
     liveSources := liveSources s; liveNextStartTime := liveNextStartTime s;
     liveSilenceInterval := liveSilenceInterval s;
     isLiveActive := isLiveActive s; config := config s;
     currentSessionId := currentSessionId s |}.

Definition set_liveSources (x : gset SourceNode) (s : LiveCallService) :=
  {| liveInputContext := liveInputContext s;
     liveOutputContext := liveOutputContext s;
     liveStream := liveStream s; liveSession := liveSession s;
     liveSources := x; liveNextStartTime := liveNextStartTime s;
     liveSilenceInterval := liveSilenceInterval s;
     isLiveActive := isLiveActive s; config := config s;
     currentSessionId := currentSessionId s |}.

Definition set_liveNextStartTime (x : Q) (s : LiveCallService) :=
  {| liveInputContext := liveInputContext s;
     liveOutputContext := liveOutputContext s;
     liveStream := liveStream s; liveSession := liveSession s;
     liveSources := liveSources s; liveNextStartTime := x;
     liveSilenceInterval := liveSilenceInterval s;
     isLiveActive := isLiveActive s; config := config s;
     currentSessionId := currentSessionId s |}.

Definition set_liveSilenceInterval (x : option nat) (s : LiveCallService) :=
  {| liveInputContext := liveInputContext s;
     liveOutputContext := liveOutputContext s;
     liveStream := liveStream s; liveSession := liveSession s;
     liveSources := liveSources s; liveNextStartTime := liveNextStartTime s;
     liveSilenceInterval := x;
     isLiveActive := isLiveActive s; config := config s;
     currentSessionId := currentSessionId s |}.

Definition set_isLiveActive (x : bool) (s : LiveCallService) :=
  {| liveInputContext := liveInputContext s;
     liveOutputContext := liveOutputContext s;
     liveStream := liveStream s; liveSession := liveSession s;
     liveSources := liveSources s; liveNextStartTime := liveNextStartTime s;
     liveSilenceInterval := liveSilenceInterval s;
     isLiveActive := x; config := config s;
     currentSessionId := currentSessionId s |}.

Definition set_config (x : option LiveCallConfig) (s : LiveCallService) :=
  {| liveInputContext := liveInputContext s;
     liveOutputContext := liveOutputContext s;
     liveStream := liveStream s; liveSession := liveSession s;
     liveSources := liveSources s; liveNextStartTime := liveNextStartTime s;
     liveSilenceInterval := liveSilenceInterval s;
     isLiveActive := isLiveActive s; config := x;
     currentSessionId := currentSessionId s |}.

Definition set_currentSessionId (x : nat) (s : LiveCallService) :=
  {| liveInputContext := liveInputContext s;
     liveOutputContext := liveOutputContext s;
     liveStream := liveStream s; liveSession := liveSession s;
     liveSources := liveSources s; liveNextStartTime := liveNextStartTime s;
     liveSilenceInterval := liveSilenceInterval s;
     isLiveActive := isLiveActive s; config := config s;
     currentSessionId := x |}.

(** The part of a [LiveServerMessage] the handler reads. *)
Record FunctionCall := mkCall { fc_name : string; fc_id : string }.

Record ServerContent := mkContent {
  modelTurn : option (option string);  (* modelTurn, with parts?.[0]?.inlineData?.data *)
  interrupted : bool;
  turnComplete : bool
}.

Record LiveServerMessage := mkMessage {
  setupComplete : bool;
  serverContent : option ServerContent;
  toolCall : option (list FunctionCall)
}.

(** [msg.serverContent?.modelTurn?.parts?.[0]?.inlineData?.data] *)
Definition base64Audio (msg : LiveServerMessage) : option string :=
  match serverContent msg with
  | Some c => match modelTurn c with
              | Some d => d
              | None => None
              end
  | None => None
  end.

Inductive Action :=
| OnStatusChange (cfg : LiveCallConfig) (status : string)
| OnUnrecoverableError (cfg : LiveCallConfig)
| OnCallEnd (cfg : LiveCallConfig)
| InputContextClose (ctx : AudioContext)
| OutputContextClose (ctx : AudioContext)
| StopTracks (stream : MediaStream)
| ClearSilenceInterval (handle : nat)
| SourceStop (src : SourceNode)
| SourceStart (src : SourceNode) (when dur : Q)
| DecodeAudioData (sessionId : nat) (ctx : AudioContext) (data : string)
| GetUserMedia (sessionId : nat)
| LiveConnect (sessionId : nat)
| SendInitialTrigger (sessionId : nat)
| SendRealtimeInput (sessionId : nat)
| SendToolResponse (sessionId : nat) (fc : FunctionCall)
| SetTimeoutCleanup (ms : Q).   (* setTimeout(() => this.cleanupSession(true), ms) *)

(** [cleanupSession(graceful)] *)
Definition cleanupSession (graceful : bool) (s : LiveCallService)
  : LiveCallService * list Action :=
  if negb (isLiveActive s) then (s, [])
  else
    let s := set_isLiveActive false s in
    let s := set_liveSession None s in
    let '(s, a1) :=
      match liveStream s with
      | Some st => (set_liveStream None s, [StopTracks st])
      | None => (s, [])
      end in
    let '(s, a2) :=
      match liveInputContext s with
      | Some c => (set_liveInputContext None s, [InputContextClose c])
      | None => (s, [])
      end in
    let '(s, a3) :=
      match liveSilenceInterval s with
      | Some h => (set_liveSilenceInterval None s, [ClearSilenceInterval h])
      | None => (s, [])
      end in
    if (size (liveSources s) =? 0)%nat then
      let '(s, a4) :=
        match liveOutputContext s with
        | Some c => (set_liveOutputContext None s, [OutputContextClose c])
        | None => (s, [])
        end in
      let s := set_liveNextStartTime 0 s in
      let a5 :=
        match config s with
        | Some cfg => if graceful then [OnCallEnd cfg] else []
        | None => []
        end in
      (s, a1 ++ a2 ++ a3 ++ a4 ++ a5)
    else (s, a1 ++ a2 ++ a3).

(** [startSession(config)] from its entry to [await getUserMedia]; the two
    audio contexts it creates are [inCtx] and [outCtx]. *)
Definition startSession (cfg : LiveCallConfig) (inCtx outCtx : AudioContext)
  (s : LiveCallService) : LiveCallService * list Action :=
  let s := set_currentSessionId (S (currentSessionId s)) s in
  let sessionId := currentSessionId s in
  let s := set_config (Some cfg) s in
  let s := set_isLiveActive true s in
  let s := set_liveNextStartTime 0 s in
  let s := set_liveSources ∅ s in
  let s := set_liveInputContext (Some inCtx) s in
  let s := set_liveOutputContext (Some outCtx) s in
  (s, [OnStatusChange cfg "CONNECTING CALL..."; GetUserMedia sessionId]).

(** [startSession] after [getUserMedia] resolved, to its end. *)
Definition startSession_connect (sessionId : nat) (stream : MediaStream)
  (promise : SessionPromise) (s : LiveCallService)
  : LiveCallService * list Action :=
  let s := set_liveStream (Some stream) s in
  let s := set_liveSession (Some promise) s in
  (s, [LiveConnect sessionId]).

(** [this.config?.onUnrecoverableError()] *)
Definition notify_unrecoverable (s : LiveCallService) : list Action :=
  match config s with
  | Some cfg => [OnUnrecoverableError cfg]
  | None => []
  end.

(** The [catch] block of [startSession]. *)
Definition startSession_catch (s : LiveCallService)
  : LiveCallService * list Action :=
  let a1 := notify_unrecoverable s in
  let '(s, a2) := cleanupSession false s in
  (s, a1 ++ a2).

(** The [onopen] callback. *)
Definition onopen (sessionId : nat) (s : LiveCallService)
  : LiveCallService * list Action :=
  let a1 :=
    match config s with
    | Some cfg => [OnStatusChange cfg "LIVE: ON AIR"]
    | None => []
    end in
  match liveInputContext s, liveStream s with
  | Some _, Some _ => (s, a1 ++ [SendInitialTrigger sessionId])
  | _, _ => (s, a1)
  end.

(** [scriptProcessor.onaudioprocess] *)
Definition onaudioprocess (sessionId : nat) (s : LiveCallService)
  : LiveCallService * list Action :=
  match liveInputContext s with
  | Some _ => (s, [SendRealtimeInput sessionId])
  | None => (s, [])
  end.

(** The [interrupted] branch of [onmessage]; [now] is the [currentTime] of
    the output context. *)
Definition on_interrupted (now : Q) (s : LiveCallService)
  : LiveCallService * list Action :=
  let a := SourceStop <$> elements (liveSources s) in
  let s := set_liveSources ∅ s in
  let t :=
    match liveOutputContext s with
    | Some _ => if truthy_num now then now else 0
    | None => 0
    end in
  (set_liveNextStartTime t s, a).

(** The loop over [msg.toolCall.functionCalls]. *)
Fixpoint on_toolCalls (sessionId : nat) (now : Q) (s : LiveCallService)
  (calls : list FunctionCall) : list Action :=
  match calls with
  | [] => []
  | fc :: calls' =>
    (if String.eqb (fc_name fc) "endCall" then
       [SendToolResponse sessionId fc;
        SetTimeoutCleanup
          match liveOutputContext s with
          | Some _ => Math_max 0 (liveNextStartTime s - now) * 1000 + 1000
          | None => 1000
          end]
     else [])
    ++ on_toolCalls sessionId now s calls'
  end.

(** The audio branch of [onmessage], to [await decodeAudioData]. *)
Definition on_audio (sessionId : nat) (msg : LiveServerMessage) (now : Q)
  (s : LiveCallService) : LiveCallService * list Action :=
  match base64Audio msg, liveOutputContext s with
  | Some data, Some ctx =>
    if truthy_str data then
      (set_liveNextStartTime (Math_max (liveNextStartTime s) now) s,
       [DecodeAudioData sessionId ctx data])
    else (s, [])
  | _, _ => (s, [])
  end.

(** The [onmessage] callback, to its [await]. *)
Definition onmessage (sessionId : nat) (msg : LiveServerMessage) (now : Q)
  (s : LiveCallService) : LiveCallService * list Action :=
  let '(s, a1) :=
    match serverContent msg with
    | Some c => if interrupted c then on_interrupted now s else (s, [])
    | None => (s, [])
    end in
  let a2 :=
    match toolCall msg with
    | Some calls => on_toolCalls sessionId now s calls
    | None => []
    end in
  let '(s, a3) := on_audio sessionId msg now s in
  (s, a1 ++ a2 ++ a3).

(** [onmessage] after [decodeAudioData] resolved with a buffer of duration
    [dur]; [source] is the node made by [ctx.createBufferSource()]. *)
Definition decode_done (sessionId : nat) (source : SourceNode) (dur : Q)
  (s : LiveCallService) : LiveCallService * list Action :=
  let start := liveNextStartTime s in
  let s := set_liveNextStartTime (liveNextStartTime s + dur) s in
  let s := set_liveSources ({[source]} ∪ liveSources s) s in
  (s, [SourceStart source start dur]).

(** The listener of a source's [ended] event, closed over [sessionId] and
    [source]. *)
Definition source_ended (sessionId : nat) (source : SourceNode)
  (s : LiveCallService) : LiveCallService * list Action :=
  let s := set_liveSources (liveSources s ∖ {[source]}) s in
  if negb (sessionId =? currentSessionId s)%nat then (s, [])
  else if negb (isLiveActive s) && (size (liveSources s) =? 0)%nat then
    let '(s, a1) :=
      match liveOutputContext s with
      | Some c => (set_liveOutputContext None s, [OutputContextClose c])
      | None => (s, [])
      end in
    let a2 :=
      match config s with
      | Some cfg => [OnCallEnd cfg]
      | None => []
      end in
    (s, a1 ++ a2)
  else (s, []).

(** The [onclose] callback. *)
Definition onclose (sessionId : nat) (now : Q) (s : LiveCallService)
  : LiveCallService * list Action :=
  if isLiveActive s then
    match liveOutputContext s with
    | Some _ =>
      (s, [SetTimeoutCleanup
             (Math_max 0 (liveNextStartTime s - now) * 1000 + 500)])
    | None => cleanupSession true s
    end
  else (s, []).

(** The [onerror] callback. *)
Definition onerror (sessionId : nat) (s : LiveCallService)
  : LiveCallService * list Action :=
  let '(s, a1) := cleanupSession false s in
  (s, a1 ++ notify_unrecoverable s).

Inductive Event :=
| StartSession (cfg : LiveCallConfig) (inCtx outCtx : AudioContext)
| MicrophoneGranted (sessionId : nat) (stream : MediaStream)
    (promise : SessionPromise)
| StartSessionThrew
| OnOpen (sessionId : nat)
| OnAudioProcess (sessionId : nat)
| OnMessage (sessionId : nat) (msg : LiveServerMessage) (now : Q)
| DecodeDone (sessionId : nat) (source : SourceNode) (dur : Q)
| DecodeFailed (sessionId : nat)
| SourceEnded (sessionId : nat) (source : SourceNode)
| OnClose (sessionId : nat) (now : Q)
| OnError (sessionId : nat)
| CleanupTimer
| CleanupSession (graceful : bool).

Definition step (s : LiveCallService) (e : Event)
  : LiveCallService * list Action :=
  match e with
  | StartSession cfg i o => startSession cfg i o s
  | MicrophoneGranted sid st p => startSession_connect sid st p s
  | StartSessionThrew => startSession_catch s
  | OnOpen sid => onopen sid s
  | OnAudioProcess sid => onaudioprocess sid s
  | OnMessage sid msg now => onmessage sid msg now s
  | DecodeDone sid src dur => decode_done sid src dur s
  | DecodeFailed _ => (s, [])
  | SourceEnded sid src => source_ended sid src s
  | OnClose sid now => onclose sid now s
  | OnError sid => onerror sid s
  | CleanupTimer => cleanupSession true s
  | CleanupSession g => cleanupSession g s
  end.

Fixpoint run (s : LiveCallService) (evs : list Event)
  : LiveCallService * list Action :=
  match evs with
  | [] => (s, [])
  | e :: evs' =>
    let '(s1, a1) := step s e in
    let '(s2, a2) := run s1 evs' in
    (s2, a1 ++ a2)
  end.


(** *** Vocabulary of the statements *)

(** The chunks handed to [source.start], in order: start time and
    duration. *)
Fixpoint scheduled (acts : list Action) : list (Q * Q) :=
  match acts with
  | [] => []
  | SourceStart _ t d :: acts' => (t, d) :: scheduled acts'
  | _ :: acts' => scheduled acts'
  end.

(** Start times never decrease and an interval ends before every later
    one starts. *)
Fixpoint back_to_back (l : list (Q * Q)) : Prop :=
  match l with
  | [] => True
  | (t, d) :: l' =>
    Forall (fun p => t <= fst p /\ t + d <= fst p) l' /\ back_to_back l'
  end.

Definition is_interrupted (msg : LiveServerMessage) : bool :=
  match serverContent msg with
  | Some c => interrupted c
  | None => false
  end.

(** The events of a stream of audio chunks: messages that carry no
    interruption, decoded buffers (of a duration that is not negative),
    failed decodings, finished sources and microphone traffic. *)
Definition chunk_event (e : Event) : bool :=
  match e with
  | OnMessage _ msg _ => negb (is_interrupted msg)
  | DecodeDone _ _ dur => Qle_bool 0 dur
  | DecodeFailed _ | SourceEnded _ _ | OnOpen _ | OnAudioProcess _ => true
  | _ => false
  end.

Definition ended_event (e : Event) : bool :=
  match e with
  | SourceEnded _ _ => true
  | _ => false
  end.

(** The final release: closing the output context, telling the caller
    that the call ended. *)
Definition is_release (a : Action) : bool :=
  match a with
  | OutputContextClose _ | OnCallEnd _ => true
  | _ => false
  end.

Definition is_stop (a : Action) : bool :=
  match a with
  | SourceStop _ => true
  | _ => false
  end.

Definition is_unrecoverable (a : Action) : bool :=
  match a with
  | OnUnrecoverableError _ => true
  | _ => false
  end.

Definition is_timer (a : Action) : bool :=
  match a with
  | SetTimeoutCleanup _ => true
  | _ => false
  end.

(** *** A session to run the statements on *)

Definition demo_config : LiveCallConfig :=
  mkConfig "k" "Matej" "" "a" "b" "c" "d" "Kore" "en".

Definition demo_chunk : LiveServerMessage :=
  mkMessage false (Some (mkContent (Some (Some "AAAA")) false false)) None.

(** A freshly started session: contexts 1 and 2, microphone 10. *)
Definition demo_started : LiveCallService :=
  fst (run new_service
         [StartSession demo_config 1%nat 2%nat;
          MicrophoneGranted 1%nat 10%nat 20%nat]).

(** The same session with two chunks scheduled, sources 7 and 8. *)
Definition demo_playing : LiveCallService :=
  fst (run demo_started
         [OnMessage 1%nat demo_chunk 0;
          DecodeDone 1%nat 7%nat 5; DecodeDone 1%nat 8%nat 5]).

(** A second [startSession], for another caller, while the two chunks of
    the first session play: contexts 3 and 4, microphone 11. *)
Definition demo_config2 : LiveCallConfig :=
  mkConfig "k" "Hori" "" "c" "d" "e" "f" "Charon" "cs".

Definition demo_restarted : LiveCallService :=
  fst (run demo_playing
         [StartSession demo_config2 3%nat 4%nat;
          MicrophoneGranted 2%nat 11%nat 21%nat]).

End LiveCall.

(** ** The live call: where a failure ends a session *)

Module LiveCallFailures.
Import LiveCall.



End LiveCallFailures.

(** ** The relay input source ([RemoteSocketSource]) *)

Module RemoteSocket.

Definition WebSocket := nat.
(** A callback is known by its identity. *)
Definition Callback := nat.

Record RemoteSocketSource := mkSource {
  ws : option WebSocket;
  hostId : string;
  relayUrl : string;
  onStatusChange : Callback;
  propagateAudio : option Callback
}.

(** [constructor(hostId, relayUrl, onStatusChange)] *)
Definition new_source (h r : string) (cb : Callback) : RemoteSocketSource :=
  {| ws := None; hostId := h; relayUrl := r; onStatusChange := cb;
     propagateAudio := None |}.

Definition set_ws (x : option WebSocket) (s : RemoteSocketSource) :=
  {| ws := x; hostId := hostId s; relayUrl := relayUrl s;
     onStatusChange := onStatusChange s;
     propagateAudio := propagateAudio s |}.

Definition set_onStatusChange (x : Callback) (s : RemoteSocketSource) :=
  {| ws := ws s; hostId := hostId s; relayUrl := relayUrl s;
     onStatusChange := x; propagateAudio := propagateAudio s |}.

Definition set_propagateAudio (x : option Callback) (s : RemoteSocketSource) :=
  {| ws := ws s; hostId := hostId s; relayUrl := relayUrl s;
     onStatusChange := onStatusChange s; propagateAudio := x |}.

(** A text frame, as [JSON.parse] and the test of [msg.type] see it. *)
Inductive ControlMessage :=
| GUEST_CONNECTED (callerName : string)
| GUEST_DISCONNECTED
| OtherMessage
| InvalidJson.

(** [event.data]: an [ArrayBuffer] or a text frame. *)
Inductive FrameData :=
| Binary (bytes : list Byte.byte)
| Text (msg : ControlMessage).

Inductive Action :=
| StatusChange (cb : Callback) (status : string)
| NewWebSocket (sock : WebSocket) (url : string)
| WsSendRegisterHost (sock : WebSocket) (host : string)
| WsClose (sock : WebSocket)
| PropagateAudio (cb : Callback) (binary : string).
    (* cb({ data: btoa(binary), mimeType: 'audio/pcm;rate=16000' }) *)

(** The loop of [arrayBufferToBase64]: one character per byte. *)
Fixpoint binary_string (bytes : list Byte.byte) : string :=
  match bytes with
  | [] => EmptyString
  | b :: bytes' => String (Ascii.ascii_of_byte b) (binary_string bytes')
  end.

(** [initWebSocket()]; [sock] is the socket [new WebSocket] makes. *)
Definition initWebSocket (sock : WebSocket) (s : RemoteSocketSource)
  : RemoteSocketSource * list Action :=
  (set_ws (Some sock) s,
   [StatusChange (onStatusChange s) "CONNECTING TO RELAY...";
    NewWebSocket sock (relayUrl s)]).

(** [connect(context, onAudioData)]; [is_open] is the outcome of
    [this.ws.readyState === WebSocket.OPEN] when there is a socket. *)
Definition connect (onAudioData : Callback) (is_open : bool)
  (sock : WebSocket) (s : RemoteSocketSource)
  : RemoteSocketSource * list Action :=
  let s := set_propagateAudio (Some onAudioData) s in
  match ws s with
  | Some _ => if is_open then (s, []) else initWebSocket sock s
  | None => initWebSocket sock s
  end.

(** [ws.onopen] *)
Definition ws_onopen (s : RemoteSocketSource)
  : RemoteSocketSource * list Action :=
  (s,
   match ws s with
   | Some k => [WsSendRegisterHost k (hostId s)]
   | None => []
   end ++ [StatusChange (onStatusChange s) "WAITING FOR CALL..."]).

(** [ws.onmessage] *)
Definition ws_onmessage (data : FrameData) (s : RemoteSocketSource)
  : RemoteSocketSource * list Action :=
  match data with
  | Binary bytes =>
    match propagateAudio s with
    | Some cb => (s, [PropagateAudio cb (binary_string bytes)])
    | None => (s, [])
    end
  | Text (GUEST_CONNECTED name) =>
    (s, [StatusChange (onStatusChange s) (String.append "CALLER: " name)])
  | Text GUEST_DISCONNECTED =>
    (s, [StatusChange (onStatusChange s) "WAITING FOR CALL..."])
  | Text _ => (s, [])
  end.

(** [ws.onclose] *)
Definition ws_onclose (s : RemoteSocketSource)
  : RemoteSocketSource * list Action :=
  (s, [StatusChange (onStatusChange s) "RELAY DISCONNECTED"]).

(** [disconnect()] *)
Definition disconnect (s : RemoteSocketSource)
  : RemoteSocketSource * list Action :=
  let '(s, a) :=
    match ws s with
    | Some k => (set_ws None s, [WsClose k])
    | None => (s, [])
    end in
  (set_propagateAudio None s, a).

(** The handlers of a socket are closures over the source object, not over
    the socket: the event names the socket it comes from, the handler does
    not look at it. *)
Inductive Event :=
| Connect (onAudioData : Callback) (is_open : bool) (sock : WebSocket)
| Disconnect
| SetStatusCallback (cb : Callback)
| WsOnOpen (sock : WebSocket)
| WsOnMessage (sock : WebSocket) (data : FrameData)
| WsOnClose (sock : WebSocket).

Definition step (s : RemoteSocketSource) (e : Event)
  : RemoteSocketSource * list Action :=
  match e with
  | Connect cb o k => connect cb o k s
  | Disconnect => disconnect s
  | SetStatusCallback cb => (set_onStatusChange cb s, [])
  | WsOnOpen _ => ws_onopen s
  | WsOnMessage _ data => ws_onmessage data s
  | WsOnClose _ => ws_onclose s
  end.

Fixpoint run (s : RemoteSocketSource) (evs : list Event)
  : RemoteSocketSource * list Action :=
  match evs with
  | [] => (s, [])
  | e :: evs' =>
    let '(s1, a1) := step s e in
    let '(s2, a2) := run s1 evs' in
    (s2, a1 ++ a2)
  end.

(** An event delivered by a relay socket. *)
Definition socket_event (e : Event) : bool :=
  match e with
  | WsOnOpen _ | WsOnMessage _ _ | WsOnClose _ => true
  | _ => false
  end.

(** The event hands [cb] to [connect]. *)
Definition connects (cb : Callback) (e : Event) : bool :=
  match e with
  | Connect cb' _ _ => (cb' =? cb)%nat
  | _ => false
  end.

(** The action calls the audio callback [cb]. *)
Definition forwards_to (cb : Callback) (a : Action) : bool :=
  match a with
  | PropagateAudio cb' _ => (cb' =? cb)%nat
  | _ => false
  end.

Definition is_forward (a : Action) : bool :=
  match a with
  | PropagateAudio _ _ => true
  | _ => false
  end.

End RemoteSocket.

(** ** More vocabulary for the live call service *)

Module LiveCallExtra.
Import LiveCall.

Definition is_start (e : Event) : bool :=
  match e with
  | StartSession _ _ _ => true
  | _ => false
  end.

(** The event schedules the source [src]. *)
Definition decodes (src : SourceNode) (e : Event) : bool :=
  match e with
  | DecodeDone _ src' _ => (src' =? src)%nat
  | _ => false
  end.

Definition stops (src : SourceNode) (a : Action) : bool :=
  match a with
  | SourceStop src' => (src' =? src)%nat
  | _ => false
  end.

Definition is_silence_clear (a : Action) : bool :=
  match a with
  | ClearSilenceInterval _ => true
  | _ => false
  end.

Definition is_call_end (a : Action) : bool :=
  match a with
  | OnCallEnd _ => true
  | _ => false
  end.

Definition is_endCall (fc : FunctionCall) : bool :=
  String.eqb (fc_name fc) "endCall".

(** A message that carries nothing but tool calls. *)
Definition tool_message (calls : list FunctionCall) : LiveServerMessage :=
  mkMessage false None (Some calls).

(** The invariant of a service made by [new LiveCallService()]. *)
Definition well_started (s : LiveCallService) : Prop :=
  liveSilenceInterval s = None /\
  (isLiveActive s = true -> config s <> None) /\
  (config s = None <-> currentSessionId s = 0%nat).

End LiveCallExtra.

(** ** More vocabulary for the transition scheduler *)

Module SchedulerExtra.
Import TransitionScheduler.

(** What every state reached from [initial] satisfies: the tag of the
    buffer is missing or names the current track, and a scheduler that is
    READY or PLAYING holds audio. *)
Definition coherent (st : State) : Prop :=
  (generatedForSig st = None \/
   generatedForSig st = Some (currentSongSig st)) /\
  (status st = READY \/ status st = PLAYING ->
   truthy_ostr (bufferedAudio st) = true).

Definition is_play (a : Action) : bool :=
  match a with
  | AudioPlay _ => true
  | _ => false
  end.

Definition is_request (a : Action) : bool :=
  match a with
  | StorageGet _ | SendGenerateIntro _ => true
  | _ => false
  end.

(** A tick on a playing video, with the extension alive. *)
Definition live_tick (env : TickEnv) (v : Video) : Prop :=
  runtime_alive env = true /\ video env = Some v /\
  paused v = false /\ truthy_num (duration v) = true.

(** The tick finds the position more than five seconds behind. *)
Definition seeks_back (v : Video) (st : State) : bool :=
  Qlt_bool (currentTime v + 5) (lastTime st).

End SchedulerExtra.

(** ** The volume control of the page ([src/extension/content.ts]) *)

Module Ducking.

(** [Math.min] on two numbers. *)
Definition Math_min (a b : Q) : Q := if Qle_bool a b then a else b.

(** [const clamp = (val, min, max) => Math.min(Math.max(val, min), max)] *)
Definition clamp (val min max : Q) : Q := Math_min (Math_max val min) max.

Definition FADE_DURATION : Q := 3000.

(** The interval armed by [fadeVolume], with what its closure holds, and
    with what waits for its promise: [then_enforce] is the target volume
    of the [startActiveDucking] that awaits the fade, and [None] when
    nothing is done after the fade (as in [stopActiveDucking]). *)
Record Fade := mkFade {
  startVol : Q;
  targetVol : Q;
  fade_duration : Q;
  startTime : Q;
  then_enforce : option Q
}.

(** The module-level variables [fadeInterval], [duckingListener] and
    [duckingInterval], and the volume of the page's [video] element.  A
    listener and an enforcing interval are known by the target volume
    their closure holds. *)
Record VolumeControl := mkControl {
  video_volume : Q;
  fadeInterval : option Fade;
  duckingListener : option Q;
  duckingInterval : option Q
}.

Definition set_video_volume (x : Q) (c : VolumeControl) :=
  {| video_volume := x; fadeInterval := fadeInterval c;
     duckingListener := duckingListener c;
     duckingInterval := duckingInterval c |}.

Definition set_fadeInterval (x : option Fade) (c : VolumeControl) :=
  {| video_volume := video_volume c; fadeInterval := x;
     duckingListener := duckingListener c;
     duckingInterval := duckingInterval c |}.

Definition set_duckingListener (x : option Q) (c : VolumeControl) :=
  {| video_volume := video_volume c; fadeInterval := fadeInterval c;
     duckingListener := x; duckingInterval := duckingInterval c |}.

Definition set_duckingInterval (x : option Q) (c : VolumeControl) :=
  {| video_volume := video_volume c; fadeInterval := fadeInterval c;
     duckingListener := duckingListener c; duckingInterval := x |}.

(** [fadeVolume(targetVol, duration)], to the arming of its interval;
    [has_video] is whether [getMoviePlayer()] finds the element, [now] is
    [Date.now()].  Without a video the promise resolves at once and the
    interval of a fade in progress is not cleared; what awaits the promise
    then finds no video either and returns. *)
Definition fadeVolume (target duration : Q) (after : option Q)
  (has_video : bool) (now : Q) (c : VolumeControl) : VolumeControl :=
  if negb has_video then c
  else set_fadeInterval
         (Some {| startVol := video_volume c; targetVol := target;
                  fade_duration := duration; startTime := now;
                  then_enforce := after |}) c.

(** The volume a fade writes when [elapsed] milliseconds have passed, and
    whether the fade is over.  Numbers are rationals: the quotient, the
    product and the sum are exact here, where the code rounds each of them
    to a double, and the duration is positive, as in every call of
    [fadeVolume] (3000, or 800 by default).  What is stated of a fade is
    what rounding to the nearest double keeps: the order of two results,
    the bounds 0 and 1 and the tests against them. *)
Definition fade_progress (f : Fade) (elapsed : Q) : Q :=
  clamp (elapsed / fade_duration f) 0 1.

Definition fade_volume (f : Fade) (elapsed : Q) : Q :=
  clamp (startVol f + (targetVol f - startVol f) * fade_progress f elapsed) 0 1.

Definition fade_done (f : Fade) (elapsed : Q) : bool :=
  Qle_bool 1 (fade_progress f elapsed).

(** The second half of [startActiveDucking], after [await fadeVolume]. *)
Definition engage_enforcer (target : Q) (has_video : bool)
  (c : VolumeControl) : VolumeControl :=
  if negb has_video then c
  else set_duckingInterval (Some target) (set_duckingListener (Some target) c).

(** The callback of the interval of [fadeVolume], every 50 ms. *)
Definition fade_tick (now : Q) (has_video : bool) (c : VolumeControl)
  : VolumeControl :=
  match fadeInterval c with
  | None => c
  | Some f =>
    let elapsed := now - startTime f in
    let c := set_video_volume (fade_volume f elapsed) c in
    if fade_done f elapsed then
      let c := set_fadeInterval None c in
      match then_enforce f with
      | Some target => engage_enforcer target has_video c
      | None => c
      end
    else c
  end.

(** [Math.abs(volume - targetVolume) > 0.01] *)
Definition drifted (volume target : Q) : bool :=
  Qlt_bool (1 # 100) (Qabs (volume - target)).

(** The [volumechange] listener. *)
Definition on_volumechange (c : VolumeControl) : VolumeControl :=
  match duckingListener c with
  | Some target =>
    if drifted (video_volume c) target then set_video_volume target c else c
  | None => c
  end.

(** The callback of the failsafe interval, every second. *)
Definition enforcer_tick (has_video : bool) (c : VolumeControl)
  : VolumeControl :=
  match duckingInterval c with
  | Some target =>
    if has_video && drifted (video_volume c) target
    then set_video_volume target c else c
  | None => c
  end.

(** [startActiveDucking(originalVolume)], to its [await]. *)
Definition startActiveDucking (originalVolume : Q) (has_video : bool)
  (now : Q) (c : VolumeControl) : VolumeControl :=
  let targetVolume := originalVolume * (15 # 100) in
  fadeVolume targetVolume FADE_DURATION (Some targetVolume) has_video now c.

(** [stopActiveDucking(restoreTo)], to its [await]. *)
Definition stopActiveDucking (restoreTo : Q) (has_video : bool) (now : Q)
  (c : VolumeControl) : VolumeControl :=
  let c :=
    match duckingListener c with
    | Some _ => if has_video then set_duckingListener None c else c
    | None => c
    end in
  let c := set_duckingInterval None c in
  fadeVolume restoreTo FADE_DURATION None has_video now c.

Inductive Event :=
| StartDucking (originalVolume : Q) (has_video : bool) (now : Q)
| StopDucking (restoreTo : Q) (has_video : bool) (now : Q)
| FadeTick (now : Q) (has_video : bool)
| VolumeChange                       (* the volumechange event *)
| EnforcerTick (has_video : bool)
| SetVolume (volume : Q).            (* the user or the page moves the volume *)

Definition step (c : VolumeControl) (e : Event) : VolumeControl :=
  match e with
  | StartDucking o h now => startActiveDucking o h now c
  | StopDucking r h now => stopActiveDucking r h now c
  | FadeTick now h => fade_tick now h c
  | VolumeChange => on_volumechange c
  | EnforcerTick h => enforcer_tick h c
  | SetVolume v => set_video_volume v c
  end.

Definition run (c : VolumeControl) (evs : list Event) : VolumeControl :=
  fold_left step evs c.

Definition is_start (e : Event) : bool :=
  match e with
  | StartDucking _ _ _ => true
  | _ => false
  end.

(** No enforcer is attached and none is waiting for a fade. *)
Definition released (c : VolumeControl) : Prop :=
  duckingListener c = None /\ duckingInterval c = None /\
  match fadeInterval c with
  | Some f => then_enforce f = None
  | None => True
  end.

End Ducking.

(** ** Scraping the page ([getSongInfo], [src/extension/content.ts]) *)

Module SongInfo.

(** Strings are sequences of bytes, the UTF-8 encoding of the text of
    the page. *)
Definition byte_is (c : Ascii.ascii) (n : nat) : bool :=
  (Ascii.nat_of_ascii c =? n)%nat.

Definition byte_in (c : Ascii.ascii) (lo hi : nat) : bool :=
  ((lo <=? Ascii.nat_of_ascii c) && (Ascii.nat_of_ascii c <=? hi))%nat.

(** White space and line terminators of one byte: U+0009 to U+000D and
    the space. *)
Definition ws1 (c : Ascii.ascii) : bool := byte_in c 9 13 || byte_is c 32.

(** U+00A0. *)
Definition ws2 (c1 c2 : Ascii.ascii) : bool := byte_is c1 194 && byte_is c2 160.

(** U+1680, U+2000 to U+200A, U+2028, U+2029, U+202F, U+205F, U+3000 and
    U+FEFF. *)
Definition ws3 (c1 c2 c3 : Ascii.ascii) : bool :=
  (byte_is c1 225 && byte_is c2 154 && byte_is c3 128)
  || (byte_is c1 226 && byte_is c2 128
      && (byte_in c3 128 138 || byte_in c3 168 169 || byte_is c3 175))
  || (byte_is c1 226 && byte_is c2 129 && byte_is c3 159)
  || (byte_is c1 227 && byte_is c2 128 && byte_is c3 128)
  || (byte_is c1 239 && byte_is c2 187 && byte_is c3 191).

(** [String.prototype.trimStart] *)
Fixpoint trimStart (s : string) : string :=
  match s with
  | EmptyString => EmptyString
  | String c1 r1 =>
    if ws1 c1 then trimStart r1
    else match r1 with
         | EmptyString => s
         | String c2 r2 =>
           if ws2 c1 c2 then trimStart r2
           else match r2 with
                | EmptyString => s
                | String c3 r3 => if ws3 c1 c2 c3 then trimStart r3 else s
                end
         end
  end.

Definition blank (s : string) : bool :=
  match trimStart s with
  | EmptyString => true
  | String _ _ => false
  end.

(** [String.prototype.trimEnd] *)
Fixpoint trimEnd (s : string) : string :=
  match s with
  | EmptyString => EmptyString
  | String c r => if blank s then EmptyString else String c (trimEnd r)
  end.

(** [String.prototype.trim] *)
Definition trim (s : string) : string := trimEnd (trimStart s).

(** The three bytes of the bullet U+2022. *)
Definition is_bullet (c1 c2 c3 : Ascii.ascii) : bool :=
  byte_is c1 226 && byte_is c2 128 && byte_is c3 162.

Definition cons_char (c : Ascii.ascii) (parts : list string) : list string :=
  match parts with
  | [] => [String c EmptyString]
  | p :: ps => String c p :: ps
  end.

(** [s.split('•')] *)
Fixpoint split_bullet (s : string) : list string :=
  match s with
  | EmptyString => [EmptyString]
  | String c1 r1 =>
    match r1 with
    | String c2 (String c3 r3) =>
      if is_bullet c1 c2 c3 then EmptyString :: split_bullet r3
      else cons_char c1 (split_bullet r1)
    | _ => cons_char c1 (split_bullet r1)
    end
  end.

(** [x || fallback] on [textContent] that may be missing. *)
Definition text_or (o : option string) (fallback : string) : string :=
  match o with
  | Some s => if truthy_str s then s else fallback
  | None => fallback
  end.

(** What [getSongInfo] reads from the page: the title and subtitle
    elements of the player bar (an element may be missing; [Some] is its
    [textContent]) and the items of the queue. *)
Record PlayerBar := mkBar {
  titleEl : option string;
  subtitleEl : option string
}.

Record QueueItem := mkItem {
  selected : bool;             (* hasAttribute('selected') *)
  song_title : option string;  (* querySelector('.song-title')?.textContent *)
  byline : option string       (* querySelector('.byline')?.textContent *)
}.

Record Page := mkPage {
  playerBar : option PlayerBar;
  queueItems : list QueueItem
}.

Record Current := mkCurrent {
  title : string;
  artist : string;
  album : string
}.

Record SongInfo := mkInfo {
  current : Current;
  next : string * string;      (* title, artist *)
  playlistContext : list string
}.

Definition show_nat (n : nat) : string :=
  NilEmpty.string_of_uint (Nat.to_uint n).

(** [itemIndexToLabel(index, current)] *)
Definition itemIndexToLabel (index current : nat) : string :=
  if (index =? current)%nat then "[NOW PLAYING]"
  else if (current <? index)%nat
       then String.append "[UP NEXT +"
              (String.append (show_nat (index - current)) "]")
       else String.append "[PREVIOUS -"
              (String.append (show_nat (current - index)) "]").

(** The line pushed for the item of index [i]. *)
Definition context_line (i currentIndex : nat) (item : QueueItem) : string :=
  String.append (itemIndexToLabel i currentIndex)
    (String.append ": "
       (String.append (text_or (song_title item) "Unknown")
          (String.append " by " (text_or (byline item) "Unknown")))).

(** The [forEach] that looks for the selected item: the last one wins. *)
Fixpoint find_current (i : nat) (items : list QueueItem) (acc : option nat)
  : option nat :=
  match items with
  | [] => acc
  | item :: items' =>
    find_current (S i) items' (if selected item then Some i else acc)
  end.

(** The loop [for (let i = start; i < end; i++)]. *)
Fixpoint scrape (items : list QueueItem) (currentIndex i n : nat)
  : list string :=
  match n with
  | O => []
  | S n' =>
    match items !! i with
    | Some item => context_line i currentIndex item
                   :: scrape items currentIndex (S i) n'
    | None => []     (* [queueItems[i]] is undefined: not reached, i < length *)
    end
  end.

Definition getSongInfo (page : Page) : SongInfo :=
  match playerBar page with
  | None => mkInfo (mkCurrent "" "" "") ("", "") []
  | Some bar =>
    let title := text_or (titleEl bar) "" in
    let parts :=
      match subtitleEl bar with
      | Some text => if truthy_str text then map trim (split_bullet text) else []
      | None => []
      end in
    let artist := match parts with p :: _ => p | [] => ""%string end in
    let album := match parts with _ :: p :: _ => p | _ => ""%string end in
    let items := queueItems page in
    match find_current 0 items None with
    | None => mkInfo (mkCurrent title artist album) ("", "") []
    | Some currentIndex =>
      let start := (currentIndex - 5)%nat in
      let stop := Nat.min (length items) (currentIndex + 5) in
      let context := scrape items currentIndex start (stop - start) in
      let next :=
        match items !! S currentIndex with
        | Some item => (text_or (song_title item) "", text_or (byline item) "")
        | None => (""%string, ""%string)
        end in
      mkInfo (mkCurrent title artist album) next context
    end
  end.

(** The settings read from the storage, and the request built in the
    callback of [chrome.storage.local.get]. *)
Record Settings := mkSettings {
  enabled : bool;
  voice : string;
  style : option string
}.

(** [result.horisFmSettings || { enabled: true, voice: 'Kore' }] *)
Definition settings_or_default (o : option Settings) : Settings :=
  match o with
  | Some st => st
  | None => mkSettings true "Kore" None
  end.

(** The objects that the request is built from, where the code reads a
    property by its name: a value is undefined, a string, an array of
    strings or an object with its own properties, in the order of the
    object literal. *)
#[warnings="-register-all"] Inductive Value :=
| Undefined
| Str (s : string)
| Lines (l : list string)
| Obj (props : list (string * Value)).

Fixpoint lookup_property (name : string) (props : list (string * Value))
  : Value :=
  match props with
  | [] => Undefined
  | (key, v) :: props' =>
    if String.eqb key name then v else lookup_property name props'
  end.

(** [v.name]; [undefined] for a property that an object does not have.
    The code reads properties of objects only. *)
Definition get (v : Value) (name : string) : Value :=
  match v with
  | Obj props => lookup_property name props
  | _ => Undefined
  end.

Definition truthy (v : Value) : bool :=
  match v with
  | Undefined => false
  | Str s => truthy_str s
  | Lines _ | Obj _ => true
  end.

(** [v || d] *)
Definition or_else (v d : Value) : Value := if truthy v then v else d.

(** The object that [getSongInfo] returns:
    [{ current: { title, artist, album }, next: { title, artist },
       playlistContext }]. *)
Definition song_info_object (info : SongInfo) : Value :=
  Obj [("current"%string,
        Obj [("title"%string, Str (title (current info)));
             ("artist"%string, Str (artist (current info)));
             ("album"%string, Str (album (current info)))]);
       ("next"%string,
        Obj [("title"%string, Str (fst (next info)));
             ("artist"%string, Str (snd (next info)))]);
       ("playlistContext"%string, Lines (playlistContext info))].

Record Song := mkSong { song_name : Value; song_artist : Value; song_id : string }.

Record IntroRequest := mkRequest {
  currentSong : Song;
  nextSong : Song;
  request_context : Value;
  request_style : string;
  request_voice : string;
  request_language : string
}.

(** The [data] of the [GENERATE_INTRO] message, built in the callback of
    [chrome.storage.local.get] from the [current] and [next] that the
    closure holds. *)
Definition generate_intro_data (current next : Value) (settings : Settings)
  : IntroRequest :=
  {| currentSong := mkSong (get current "title") (get current "artist")
                      "ytm-current";
     nextSong := mkSong (or_else (get next "title") (Str "Next Track"))
                   (or_else (get next "artist") (Str "Unknown")) "ytm-next";
     request_context := or_else (get current "playlistContext") (Lines []);
     request_style := text_or (style settings) "STANDARD";
     request_voice := voice settings;
     request_language := "en" |}.

(** [const { current, next } = getSongInfo()] in [mainLoop], and the
    request built from them. *)
Definition intro_request (page : Page) (settings : Settings) : IntroRequest :=
  let info := song_info_object (getSongInfo page) in
  generate_intro_data (get info "current") (get info "next") settings.

(** A page with a queue of [n] items, the item of index [c] selected. *)
Definition demo_item (i : nat) (sel : bool) : QueueItem :=
  mkItem sel (Some (String.append "Song " (show_nat i))) (Some "Band").

Definition demo_queue (n c : nat) : list QueueItem :=
  map (fun i => demo_item i (i =? c)%nat) (seq 0 n).

Definition demo_page (n c : nat) : Page :=
  mkPage (Some (mkBar (Some "Song A") (Some "Artist A • Album A • 2020")))
    (demo_queue n c).

End SongInfo.

(** ** Messages to the background script ([sendMessageWithRetry],
    [src/utils/Logger.ts]) *)

Module Messaging.

(** [haystack.includes(needle)] *)
Fixpoint includes (needle haystack : string) : bool :=
  String.prefix needle haystack
  || match haystack with
     | EmptyString => false
     | String _ rest => includes needle rest
     end.

(** How one [browser.runtime.sendMessage(message)] settles: a response,
    or an error with its [message], which may be missing. *)
Inductive SendResult :=
| Responds (response : string)
| Rejects (message : option string).

(** [isConnectionError], on [error?.message]. *)
Definition isConnectionError (message : option string) : bool :=
  match message with
  | Some m =>
    includes "Could not establish connection" m
    || includes "Receiving end does not exist" m
    || includes "Extension context invalidated" m
  | None => false
  end.

Inductive Action :=
| Ping                      (* await pingBackground(), which never throws *)
| Sleep (ms : nat)          (* await new Promise(r => setTimeout(r, ms)) *)
| Send                      (* browser.runtime.sendMessage(message) *)
| OnRetry (attempt : nat) (message : option string).

Inductive Outcome :=
| Returns (response : string)
| Throws (message : option string)   (* throw error *)
| ThrowsUnknown.                     (* throw new Error("... Unknown error") *)

(** The [for] loop over the attempts still to make; [outcome k] is how
    the send of attempt [k] settles.  The last line of the function,
    [throw lastError || new Error(...)], is the case of no attempt left. *)
Fixpoint attempts (todo : list nat) (maxRetries retryDelayMs : nat)
  (onRetry : bool) (outcome : nat -> SendResult)
  (lastError : option (option string)) : list Action * Outcome :=
  match todo with
  | [] =>
    ([], match lastError with
         | Some m => Throws m
         | None => ThrowsUnknown
         end)
  | attempt :: todo' =>
    let wake := if (1 <? attempt)%nat then [Ping; Sleep 100] else [] in
    match outcome attempt with
    | Responds r => (wake ++ [Send], Returns r)
    | Rejects m =>
      if negb (isConnectionError m) || (attempt =? maxRetries)%nat
      then (wake ++ [Send], Throws m)
      else
        let '(acts, res) :=
          attempts todo' maxRetries retryDelayMs onRetry outcome (Some m) in
        (wake ++ [Send]
         ++ (if onRetry then [OnRetry attempt m] else [])
         ++ [Sleep (retryDelayMs * attempt)] ++ acts, res)
    end
  end.

(** [sendMessageWithRetry(message, { maxRetries, retryDelayMs, onRetry })];
    the defaults are 3 and 300. *)
Definition sendMessageWithRetry (maxRetries retryDelayMs : nat)
  (onRetry : bool) (outcome : nat -> SendResult) : list Action * Outcome :=
  attempts (seq 1 maxRetries) maxRetries retryDelayMs onRetry outcome None.

Definition is_send (a : Action) : bool :=
  match a with
  | Send => true
  | _ => false
  end.

Definition sends (acts : list Action) : nat := length (List.filter is_send acts).

(** The time spent waiting, in milliseconds. *)
Fixpoint slept (acts : list Action) : nat :=
  match acts with
  | [] => 0
  | Sleep ms :: acts' => ms + slept acts'
  | _ :: acts' => slept acts'
  end.

(** The attempts reported to [onRetry], in order. *)
Fixpoint retried (acts : list Action) : list nat :=
  match acts with
  | [] => []
  | OnRetry k _ :: acts' => k :: retried acts'
  | _ :: acts' => retried acts'
  end.

(** The attempts before [k] all fail with a connection error. *)
Definition connection_fails_before (outcome : nat -> SendResult) (k : nat) : Prop :=
  forall i, (1 <= i < k)%nat ->
    exists m, outcome i = Rejects m /\ isConnectionError m = true.

(** The time waited around the failed attempts [a], ..., [a + m - 1]:
    100 ms after the ping that precedes every attempt but the first, and
    the delay after the failure. *)
Fixpoint waited (retryDelayMs a m : nat) : nat :=
  match m with
  | O => 0
  | S m' =>
    (if (1 <? a)%nat then 100 else 0) + retryDelayMs * a
    + waited retryDelayMs (S a) m'
  end.

(** Attempt [k] ends the loop with [res]. *)
Definition stops_at (outcome : nat -> SendResult) (maxRetries k : nat)
  (res : Outcome) : Prop :=
  match outcome k with
  | Responds r => res = Returns r
  | Rejects m =>
    (isConnectionError m = false \/ k = maxRetries) /\ res = Throws m
  end.

End Messaging.

(** ** The event bus ([src/services/eventBus.ts]) *)

Module EventBus.

(** [keyof HoriSEvents] *)
Inductive EventName :=
| HORIS_CALL_SUBMITTED
| HORIS_STATUS_UPDATE
| HORIS_MANUAL_TRIGGER.

#[global] Instance EventName_eq_dec : EqDecision EventName.
Proof. solve_decision. Defined.

(** The property of [listeners] an event is filed under. *)
Definition key (e : EventName) : string :=
  match e with
  | HORIS_CALL_SUBMITTED => "HORIS_CALL_SUBMITTED"
  | HORIS_STATUS_UPDATE => "HORIS_STATUS_UPDATE"
  | HORIS_MANUAL_TRIGGER => "HORIS_MANUAL_TRIGGER"
  end.

(** A callback is known by its identity, a detail by its text. *)
Definition Callback := nat.

(** [private listeners: Record<string, EventCallback<any>[]> = {}] is a
    [gmap string (list Callback)]. *)

(** [on(event, callback)]: the new listeners; what it returns is the
    closure [() => this.off(event, callback)]. *)
Definition on (event : EventName) (callback : Callback)
  (listeners : gmap string (list Callback)) : gmap string (list Callback) :=
  let listeners :=
    match listeners !! key event with
    | Some _ => listeners
    | None => <[key event := []]> listeners
    end in
  <[key event := default [] (listeners !! key event) ++ [callback]]> listeners.

(** [off(event, callback)] *)
Definition off (event : EventName) (callback : Callback)
  (listeners : gmap string (list Callback)) : gmap string (list Callback) :=
  match listeners !! key event with
  | None => listeners
  | Some cbs =>
    <[key event := List.filter (fun cb => negb (cb =? callback)%nat) cbs]>
      listeners
  end.

(** [emit(event, detail)]: the calls it makes, in order. *)
Definition emit (event : EventName) (detail : string)
  (listeners : gmap string (list Callback)) : list (Callback * string) :=
  match listeners !! key event with
  | None => []
  | Some cbs => map (fun cb => (cb, detail)) cbs
  end.

(** The callbacks registered for an event, with their repetitions. *)
Definition registered (event : EventName)
  (listeners : gmap string (list Callback)) : list Callback :=
  default [] (listeners !! key event).

End EventBus.

(** ** The prefix of the logger ([src/utils/Logger.ts]) *)

Module Logger.

Definition BASE_PREFIX : string := "[Horizon]".

(** [Array.prototype.join] *)
Fixpoint join (sep : string) (parts : list string) : string :=
  match parts with
  | [] => EmptyString
  | [part] => part
  | part :: parts' => String.append part (String.append sep (join sep parts'))
  end.

(** A logger is its [contexts]. *)
Definition withContext (context : string) (contexts : list string)
  : list string :=
  contexts ++ [context].

Definition bracket (c : string) : string :=
  String.append "[" (String.append c "]").

Definition buildPrefix (contexts : list string) : string :=
  if (length contexts =? 0)%nat then BASE_PREFIX
  else join " " (BASE_PREFIX :: map bracket contexts).

End Logger.

(** ** The search of songs ([parseSearchResponse], [YtmApiService.search]
    in [src/services/ytmApiService.ts]; [SongSearchService.search] in
    [src/services/songSearchService.ts]) *)

Module Search.

(** The part of the response of the search endpoint that the parser
    reads.  A field that may be missing is an [option]. *)
Record Run := mkRun { text : option string }.

Record Renderer := mkRenderer {
  playlistVideoId : option string;  (* playlistItemData?.videoId *)
  watchVideoId : option string;     (* doubleTapCommand?.watchEndpoint?.videoId *)
  titleText : option string;        (* flexColumns?.[0]?...text?.runs?.[0]?.text *)
  artistRuns : option (list Run);   (* flexColumns?.[1]?...text?.runs *)
  thumbnails : option (list string) (* thumbnail?...thumbnails, their url *)
}.

(** [item.musicResponsiveListItemRenderer] *)
Definition Item := option Renderer.

(** [section.musicShelfRenderer], with its [contents]; iterating over
    missing [contents] throws. *)
Record Shelf := mkShelf { contents : option (list Item) }.

Definition Section := option Shelf.

Record Result := mkResult {
  id : string;
  title : string;
  artist : string;
  cover : string;
  duration : nat
}.

Definition type_words : list string :=
  ["Song"; "Video"; "Single"; "EP"; "Album"]%string.

Definition string_in (s : string) (l : list string) : bool :=
  existsb (String.eqb s) l.

(** The predicate of [artistRuns.find]. *)
Definition names_artist (r : Run) : bool :=
  match text r with
  | Some t =>
    truthy_str t && negb (String.eqb t "•") && negb (SongInfo.blank t)
    && negb (string_in t type_words)
  | None => false
  end.

(** [thumbnails[thumbnails.length - 1].url] *)
Definition last_url (urls : list string) : string :=
  List.last urls EmptyString.

(** The body of the inner loop: the result pushed for an item, if any. *)
Definition parse_item (item : Item) : option Result :=
  match item with
  | None => None
  | Some mrlir =>
    let videoId :=
      if truthy_ostr (playlistVideoId mrlir) then playlistVideoId mrlir
      else watchVideoId mrlir in
    match videoId with
    | None => None
    | Some vid =>
      if negb (truthy_str vid) then None
      else
        let title := SongInfo.text_or (titleText mrlir) "Unknown" in
        let runs := default [] (artistRuns mrlir) in
        let artist :=
          match List.find names_artist runs with
          | Some r => default "Unknown"%string (text r)
          | None => "Unknown"%string
          end in
        let cover :=
          match thumbnails mrlir with
          | Some urls => if (0 <? length urls)%nat then last_url urls
                         else EmptyString
          | None => EmptyString
          end in
        Some (mkResult vid title artist cover 0)
    end
  end.

(** The outer loop; the second component tells that an exception ended
    it, which the [catch] around the loops turns into the results pushed
    so far. *)
Fixpoint parse_sections (sections : list Section) : list Result * bool :=
  match sections with
  | [] => ([], false)
  | None :: sections' => parse_sections sections'
  | Some shelf :: sections' =>
    match contents shelf with
    | None => ([], true)
    | Some items =>
      let '(results, thrown) := parse_sections sections' in
      (omap parse_item items ++ results, thrown)
    end
  end.

(** [parseSearchResponse(data)]; [None] is a response without the list
    of sections. *)
Definition parseSearchResponse (data : option (list Section)) : list Result :=
  match data with
  | None => []
  | Some sections => fst (parse_sections sections)
  end.

(** The length of a string in UTF-16 code units, from its UTF-8 bytes: a
    byte that continues a character counts for nothing, the first byte of
    a character of four bytes for two. *)
Fixpoint utf16_length (s : string) : nat :=
  match s with
  | EmptyString => 0
  | String c rest =>
    (if SongInfo.byte_in c 128 191 then 0
     else if SongInfo.byte_in c 240 255 then 2 else 1)
    + utf16_length rest
  end.

(** How the call of the search endpoint goes. *)
Inductive Fetch :=
| FetchFails                              (* fetch or response.json() rejects *)
| FetchNotOk                              (* !response.ok *)
| FetchOk (data : option (list Section)).

(** [YtmApiService.search(query)]: [context_now] and [context_later] tell
    whether the context of the page is known at the call and a second
    later; [None] is a rejection. *)
Definition ytm_search (context_now context_later : bool) (fetch : Fetch)
  : option (list Result) :=
  if negb context_now && negb context_later then None
  else match fetch with
       | FetchFails | FetchNotOk => None
       | FetchOk data => Some (parseSearchResponse data)
       end.

(** [SongSearchService.search(query)]; the second component tells whether
    the endpoint was searched. *)
Definition song_search (query : string) (context_now context_later : bool)
  (fetch : Fetch) : list Result * bool :=
  if negb (truthy_str query) || (utf16_length query <? 2)%nat then ([], false)
  else match ytm_search context_now context_later fetch with
       | Some results => (results, true)
       | None => ([mkResult "manual-1" query "Search Result" "" 0], true)
       end.

End Search.

(** * Properties *)

(** ** JavaScript helpers *)

Lemma Qlt_bool_iff x y : Qlt_bool x y = true <-> x < y.
Proof.
  unfold Qlt_bool. rewrite negb_true_iff.
  destruct (Qle_bool y x) eqn:E.
  - apply Qle_bool_iff in E. split; [discriminate | lra].
  - split; [intros _ | reflexivity].
    destruct (Qlt_le_dec x y) as [H | H]; [exact H |].
    apply Qle_bool_iff in H. congruence.
Qed.

Lemma Math_max_l a b : a <= Math_max a b.
Proof.
  unfold Math_max. destruct (Qle_bool a b) eqn:E.
  - now apply Qle_bool_iff.
  - lra.
Qed.

Lemma Math_max_r a b : b <= Math_max a b.
Proof.
  unfold Math_max. destruct (Qle_bool a b) eqn:E; [lra |].
  destruct (Qlt_le_dec b a) as [H | H]; [lra |].
  apply Qle_bool_iff in H. congruence.
Qed.

Lemma Math_max_of_le a b : a <= b -> Math_max a b = b.
Proof.
  intros H. unfold Math_max. apply Qle_bool_iff in H. now rewrite H.
Qed.

(** ** Lists *)

Lemma filter_none {A} (f : A -> bool) (l : list A) :
  (forall a, In a l -> f a = false) -> List.filter f l = [].
Proof.
  induction l as [| x l IH]; intros H; [reflexivity |].
  simpl. rewrite (H x (or_introl eq_refl)). apply IH.
  intros a Ha. apply H. now right.
Qed.

(** ** The transition scheduler *)

Module SchedulerProofs.
Import TransitionScheduler.

Lemma DJState_eqb_eq a b : DJState_eqb a b = true <-> a = b.
Proof. destruct a, b; simpl; split; congruence. Qed.

Lemma sig_matches_eq g c : sig_matches g c = true <-> g = Some c.
Proof.
  destruct g as [s |]; simpl.
  - rewrite String.eqb_eq. split; congruence.
  - split; discriminate.
Qed.

(** The only way [playBufferedAudio] reaches [audioEl.play()]. *)
Lemma playBufferedAudio_plays v st u :
  In (AudioPlay u) (snd (playBufferedAudio v st)) ->
  exists audio,
    bufferedAudio st = Some audio /\ u = data_url audio /\
    generatedForSig st = Some (currentSongSig st) /\
    fst (playBufferedAudio v st) = set_status PLAYING st.
Proof.
  unfold playBufferedAudio.
  destruct (bufferedAudio st) as [audio |]; [| intros []].
  destruct (truthy_str audio); simpl; [| intros []].
  destruct (sig_matches _ _) eqn:M; simpl; [| intros []].
  intros [H | [H | []]]; [discriminate |].
  exists audio. apply sig_matches_eq in M. injection H as <-. auto.
Qed.

(** A validation failure throws the buffer away and plays nothing. *)
Lemma playBufferedAudio_stale v st :
  truthy_ostr (bufferedAudio st) = true ->
  generatedForSig st <> Some (currentSongSig st) ->
  playBufferedAudio v st = (reset st, []).
Proof.
  unfold playBufferedAudio, truthy_ostr. intros T M.
  destruct (bufferedAudio st) as [audio |]; [| discriminate].
  rewrite T. simpl.
  destruct (sig_matches _ _) eqn:E; [| reflexivity].
  now apply sig_matches_eq in E.
Qed.

Lemma reset_logic_sig sig now st :
  currentSongSig (reset_logic sig now st) = sig.
Proof.
  unfold reset_logic.
  destruct (String.eqb sig (currentSongSig st)) eqn:E; simpl.
  - apply String.eqb_eq in E.
    destruct (Qlt_bool _ _); simpl; congruence.
  - destruct (Qlt_bool _ _); reflexivity.
Qed.

(** A tick that plays went through [playBufferedAudio] in a state whose
    signature is the one just read from the page. *)
Lemma mainLoop_plays env st u :
  In (AudioPlay u) (snd (mainLoop env st)) ->
  exists v sa,
    video env = Some v /\
    currentSongSig sa = make_sig (title env) (artist env) /\
    In (AudioPlay u) (snd (playBufferedAudio (Some v) sa)) /\
    fst (mainLoop env st) = fst (playBufferedAudio (Some v) sa).
Proof.
  unfold mainLoop.
  destruct (runtime_alive env); cbn [negb snd];
    [| intros [H | []]; discriminate].
  destruct (video env) as [v |]; [| intros []].
  destruct (paused v || negb (truthy_num (duration v))); [intros [] |].
  cbv beta zeta.
  set (sig := make_sig (title env) (artist env)).
  set (st0 := reset_logic sig (currentTime v) st).
  assert (S0 : currentSongSig st0 = sig) by apply reset_logic_sig.
  assert (RB : forall sa acts,
    currentSongSig sa = sig ->
    (forall x, In x acts -> x <> AudioPlay u) ->
    In (AudioPlay u)
      (snd (if DJState_eqb (status sa) READY
               && Qlt_bool (duration v - currentTime v) 12
            then let '(st', acts') := playBufferedAudio (Some v) sa in
                 (st', acts ++ acts')
            else (sa, acts))) ->
    exists v' sa',
      Some v = Some v' /\ currentSongSig sa' = sig /\
      In (AudioPlay u) (snd (playBufferedAudio (Some v') sa')) /\
      fst (if DJState_eqb (status sa) READY
              && Qlt_bool (duration v - currentTime v) 12
           then let '(st', acts') := playBufferedAudio (Some v) sa in
                (st', acts ++ acts')
           else (sa, acts))
      = fst (playBufferedAudio (Some v') sa')).
  { intros sa acts Hs Hn.
    destruct (DJState_eqb (status sa) READY && Qlt_bool _ 12).
    - destruct (playBufferedAudio (Some v) sa) as [st' acts'] eqn:P.
      simpl. intros H. apply in_app_or in H as [H | H].
      + now apply Hn in H.
      + exists v, sa. rewrite P. auto.
    - simpl. intros H. now apply Hn in H. }
  destruct (DJState_eqb (status st0) IDLE
            && Qlt_bool (duration v - currentTime v) 45
            && Qlt_bool 10 (duration v - currentTime v)).
  - destruct (negb (truthy_str (title env)) || negb (truthy_str (artist env)));
      [simpl; intros [] |].
    destruct (storage_available env); [| simpl; intros []].
    cbn [negb].
    destruct (storage_throws env); apply RB; try exact S0;
      intros x [<- | []]; discriminate.
  - apply RB; [exact S0 | intros x []].
Qed.

(** C1. In every run of the scheduler, from any state and over any
    sequence of ticks, generation completions and other callbacks, a step
    that plays audio is a tick that called [playBufferedAudio] with
    [generatedForSig] equal to [currentSongSig], itself the signature of
    the track read in that tick, and what it plays is the buffer; and
    [playBufferedAudio] on a buffer whose [generatedForSig] differs from
    [currentSongSig] resets the state (the buffer is dropped) and plays
    nothing. *)
Theorem C1_only_valid_buffers_play :
  (forall st0 evs e u,
     let st := fst (run st0 evs) in
     In (AudioPlay u) (snd (step st e)) ->
     exists env audio,
       e = Tick env /\
       u = data_url audio /\
       bufferedAudio (fst (step st e)) = Some audio /\
       generatedForSig (fst (step st e))
         = Some (currentSongSig (fst (step st e))) /\
       currentSongSig (fst (step st e))
         = make_sig (title env) (artist env) /\
       status (fst (step st e)) = PLAYING)
  /\
  (forall v st,
     truthy_ostr (bufferedAudio st) = true ->
     generatedForSig st <> Some (currentSongSig st) ->
     playBufferedAudio v st = (reset st, []) /\
     bufferedAudio (reset st) = None /\ status (reset st) = IDLE).
Proof.
  split.
  - intros st0 evs e u st. generalize st. clear. intros st H.
    destruct e as [env | sig le en | sig le r | | ov | ov |]; simpl in H.
    + exists env.
      apply mainLoop_plays in H as (v & sa & _ & Hs & Hp & Hf).
      apply playBufferedAudio_plays in Hp as (audio & Hb & Hu & Hg & Hq).
      exists audio. simpl. rewrite Hf, Hq. simpl. rewrite <- Hs.
      repeat split; assumption.
    + unfold storage_callback in H.
      destruct le; [destruct H |]. destruct en; simpl in H.
      * destruct H as [H | []]. discriminate.
      * destruct H.
    + unfold generate_callback in H.
      destruct le; [destruct H |].
      destruct (negb _); [destruct H |].
      destruct (response_audio r); destruct H.
    + destruct H.
    + destruct H as [H | []]. discriminate.
    + destruct H as [H | [H | []]]; discriminate.
    + destruct H.
  - intros v st T M. split; [now apply playBufferedAudio_stale | auto].
Qed.

(** A run that ends in playback, and a stale buffer, for C1. *)
Lemma C1_only_valid_buffers_play_witness :
  (let evs := [playing_tick "Song A" "Artist A" 200 160;
               GenerateResponse "Song A|Artist A" false (Some (Some "UklGRg"))] in
   let e := playing_tick "Song A" "Artist A" 200 190 in
   In (AudioPlay (data_url "UklGRg")) (snd (step (fst (run initial evs)) e)) /\
   exists env audio,
     e = Tick env /\
     data_url "UklGRg" = data_url audio /\
     bufferedAudio (fst (step (fst (run initial evs)) e)) = Some audio /\
     generatedForSig (fst (step (fst (run initial evs)) e))
       = Some (currentSongSig (fst (step (fst (run initial evs)) e))) /\
     currentSongSig (fst (step (fst (run initial evs)) e))
       = make_sig (title env) (artist env) /\
     status (fst (step (fst (run initial evs)) e)) = PLAYING)
  /\
  (let st := {| status := READY; currentSongSig := "Song B|Artist B";
                bufferedAudio := Some "UklGRg";
                generatedForSig := Some "Song A|Artist A";
                lastTime := 170 |} in
   truthy_ostr (bufferedAudio st) = true /\
   generatedForSig st <> Some (currentSongSig st) /\
   playBufferedAudio None st = (reset st, []) /\
   bufferedAudio (reset st) = None /\ status (reset st) = IDLE).
Proof.
  split.
  - split.
    + vm_compute. right. left. reflexivity.
    + apply (proj1 C1_only_valid_buffers_play).
      vm_compute. right. left. reflexivity.
  - split; [reflexivity |]. split; [discriminate |].
    apply (proj2 C1_only_valid_buffers_play); [reflexivity | discriminate].
Defined.

(** What [generate_callback] does when the signature it was made for is
    no longer the current one: nothing. *)
Lemma generate_callback_mismatch sig le r st :
  currentSongSig st <> sig -> generate_callback sig le r st = (st, []).
Proof.
  intros H. unfold generate_callback. destruct le; [reflexivity |].
  destruct (String.eqb (currentSongSig st) sig) eqn:E; [| reflexivity].
  now apply String.eqb_eq in E.
Qed.

Lemma generate_callback_audio sig a st :
  currentSongSig st = sig -> truthy_str a = true ->
  generate_callback sig false (Some (Some a)) st
  = (set_status READY (set_bufferedAudio (Some a) st), []).
Proof.
  intros H T. unfold generate_callback, response_audio.
  apply String.eqb_eq in H. rewrite H, T. reflexivity.
Qed.

(** C6, as stated, fails: a completion for "Song A|Artist A" that arrives
    while "Song B|Artist B" is current does not move the scheduler to
    COOLDOWN. *)
Lemma C6_stale_completion_counterexample :
  let st := {| status := IDLE; currentSongSig := "Song B|Artist B";
               bufferedAudio := None; generatedForSig := None;
               lastTime := 3 |} in
  currentSongSig st <> "Song A|Artist A" /\
  status (fst (step st (GenerateResponse "Song A|Artist A" false
                          (Some (Some "UklGRg"))))) <> COOLDOWN.
Proof. split; discriminate. Qed.

(** C6, amended. When a generation-completion callback arrives and
    [currentSongSig] no longer equals the signature the request was made
    for, the returned audio is not buffered and the state of the scheduler
    is left as it is (no move to COOLDOWN); when the signatures still
    match and audio is present (the callback reporting no runtime error),
    the audio is stored and the scheduler moves to READY. *)
Theorem C6_generation_completion sig st :
  (forall lastError response,
     currentSongSig st <> sig ->
     step st (GenerateResponse sig lastError response) = (st, []))
  /\
  (forall audio,
     currentSongSig st = sig -> truthy_str audio = true ->
     let st' := fst (step st (GenerateResponse sig false (Some (Some audio)))) in
     bufferedAudio st' = Some audio /\ status st' = READY /\
     currentSongSig st' = currentSongSig st /\
     generatedForSig st' = generatedForSig st /\ lastTime st' = lastTime st).
Proof.
  split.
  - intros le r H. now apply generate_callback_mismatch.
  - intros audio H T. cbv zeta. unfold step.
    rewrite generate_callback_audio by assumption.
    repeat split.
Qed.

Lemma C6_generation_completion_witness :
  (let st := {| status := GENERATING; currentSongSig := "Song B|Artist B";
                bufferedAudio := None; generatedForSig := Some "Song B|Artist B";
                lastTime := 3 |} in
   currentSongSig st <> "Song A|Artist A" /\
   step st (GenerateResponse "Song A|Artist A" false (Some (Some "UklGRg")))
   = (st, []))
  /\
  (let st := {| status := GENERATING; currentSongSig := "Song A|Artist A";
                bufferedAudio := None; generatedForSig := Some "Song A|Artist A";
                lastTime := 170 |} in
   currentSongSig st = "Song A|Artist A" /\ truthy_str "UklGRg" = true /\
   let st' := fst (step st (GenerateResponse "Song A|Artist A" false
                              (Some (Some "UklGRg")))) in
   bufferedAudio st' = Some "UklGRg" /\ status st' = READY /\
   currentSongSig st' = currentSongSig st /\
   generatedForSig st' = generatedForSig st /\ lastTime st' = lastTime st).
Proof.
  split.
  - split; [discriminate |].
    apply (proj1 (C6_generation_completion _ _)). discriminate.
  - split; [reflexivity |]. split; [reflexivity |].
    apply (proj2 (C6_generation_completion _ _)); reflexivity.
Defined.

(** Projections of the setters, and nothing else. *)
Ltac fields :=
  cbn [fst snd set_lastTime reset set_generatedForSig set_bufferedAudio
       set_status set_currentSongSig currentSongSig status bufferedAudio
       generatedForSig lastTime].

Lemma reset_logic_idle sig now st :
  status st = IDLE -> status (reset_logic sig now st) = IDLE.
Proof.
  intros H. unfold reset_logic.
  destruct (negb _); destruct (Qlt_bool _ _); simpl; auto.
Qed.

Lemma reset_logic_lastTime sig now st :
  lastTime (reset_logic sig now st) = now.
Proof. reflexivity. Qed.

(** A tick of an idle scheduler inside the generation window. *)
Lemma tick_idle_generates t a dur pos st :
  status st = IDLE ->
  truthy_str t = true -> truthy_str a = true -> truthy_num dur = true ->
  Qlt_bool (dur - pos) 45 = true -> Qlt_bool 10 (dur - pos) = true ->
  step st (playing_tick t a dur pos)
  = (set_generatedForSig (Some (make_sig t a))
       (set_status GENERATING (reset_logic (make_sig t a) pos st)),
     [StorageGet (make_sig t a)]).
Proof.
  intros Hs Ht Ha Hd Hlo Hhi. unfold step, playing_tick, mainLoop.
  cbn [runtime_alive video paused duration currentTime title artist
       storage_available storage_throws negb orb].
  rewrite Hd. cbn [negb].
  rewrite (reset_logic_idle _ _ _ Hs), Hlo, Hhi, Ht, Ha.
  reflexivity.
Qed.

(** A tick of the same track that finds the position more than five
    seconds behind the last one, outside the generation window. *)
Lemma tick_seek_resets t a dur pos st :
  currentSongSig st = make_sig t a ->
  truthy_num dur = true ->
  Qlt_bool (pos + 5) (lastTime st) = true ->
  Qlt_bool (dur - pos) 45 = false ->
  step st (playing_tick t a dur pos) = (set_lastTime pos (reset st), []).
Proof.
  intros Hc Hd Hseek Hwin. unfold step, playing_tick, mainLoop.
  cbn [runtime_alive video paused duration currentTime title artist
       storage_available storage_throws negb orb].
  rewrite Hd. cbn [negb].
  unfold reset_logic. rewrite Hc, String.eqb_refl. cbn [negb].
  rewrite Hseek, Hwin. reflexivity.
Qed.

(** C8, as stated, fails at its last step: in the scenario, run from the
    initial state, the generation result that arrives after the seek is
    buffered, with the scheduler in READY. *)
Lemma C8_seek_scenario_counterexample :
  let st := fst (run initial
              [playing_tick "Song A" "Artist A" 200 160;
               playing_tick "Song A" "Artist A" 200 10;
               GenerateResponse "Song A|Artist A" false (Some (Some "UklGRg"))]) in
  bufferedAudio st = Some "UklGRg" /\ status st = READY.
Proof. split; reflexivity. Qed.

(** C8, amended. On a tick where the current track has duration 200s,
    position 160s and title "Song A", artist "Artist A", a scheduler in
    IDLE moves to GENERATING with [generatedForSig] "Song A|Artist A" and
    asks for the settings; if the next tick finds the position back at
    10s, the state is IDLE again with the buffer and [generatedForSig]
    cleared; the generation result that then arrives for the unchanged
    track is buffered (READY) with [generatedForSig] still cleared, so that
    [playBufferedAudio] drops it without playing, as the tick at 189s
    does. *)
Theorem C8_seek_scenario st audio :
  status st = IDLE -> truthy_str audio = true ->
  let sig := "Song A|Artist A"%string in
  let r1 := step st (playing_tick "Song A" "Artist A" 200 160) in
  let r2 := step (fst r1) (playing_tick "Song A" "Artist A" 200 10) in
  let r3 := step (fst r2) (GenerateResponse sig false (Some (Some audio))) in
  let r4 := step (fst r3) (playing_tick "Song A" "Artist A" 200 189) in
  (status (fst r1) = GENERATING /\ generatedForSig (fst r1) = Some sig /\
   snd r1 = [StorageGet sig]) /\
  (status (fst r2) = IDLE /\ bufferedAudio (fst r2) = None /\
   generatedForSig (fst r2) = None /\ snd r2 = []) /\
  (status (fst r3) = READY /\ bufferedAudio (fst r3) = Some audio /\
   generatedForSig (fst r3) = None) /\
  (forall v, playBufferedAudio v (fst r3) = (reset (fst r3), [])) /\
  (status (fst r4) = IDLE /\ bufferedAudio (fst r4) = None /\ snd r4 = []).
Proof.
  intros Hs Ha sig r1 r2 r3 r4.
  assert (E1 : r1 = (set_generatedForSig (Some sig)
                       (set_status GENERATING (reset_logic sig 160 st)),
                     [StorageGet sig])).
  { subst r1. now apply (tick_idle_generates "Song A" "Artist A" 200 160). }
  assert (E2 : r2 = (set_lastTime 10 (reset (fst r1)), [])).
  { subst r2. apply (tick_seek_resets "Song A" "Artist A" 200 10);
      rewrite ?E1; try reflexivity.
    fields. apply reset_logic_sig. }
  assert (C2 : currentSongSig (fst r2) = sig).
  { rewrite E2, E1. fields. apply reset_logic_sig. }
  assert (E3 : r3 = (set_status READY
                       (set_bufferedAudio (Some audio) (fst r2)), [])).
  { subst r3. unfold step. now apply generate_callback_audio. }
  assert (G3 : generatedForSig (fst r3) = None).
  { rewrite E3, E2. reflexivity. }
  assert (P : forall v, playBufferedAudio v (fst r3) = (reset (fst r3), [])).
  { intros v. apply playBufferedAudio_stale.
    - rewrite E3. fields. exact Ha.
    - rewrite G3. discriminate. }
  split; [rewrite E1; repeat split |].
  split; [rewrite E2; repeat split |].
  split; [rewrite E3; repeat split; rewrite E2; reflexivity |].
  split; [exact P |].
  assert (E4 : r4 = (reset (set_lastTime 189 (fst r3)), [])).
  { subst r4. unfold step, playing_tick, mainLoop.
    cbn [runtime_alive video paused duration currentTime title artist
         storage_available storage_throws negb orb].
    change (truthy_num 200) with true. cbn [negb].
    assert (R : reset_logic (make_sig "Song A" "Artist A") 189 (fst r3)
                = set_lastTime 189 (fst r3)).
    { unfold reset_logic.
      replace (currentSongSig (fst r3)) with sig
        by (rewrite E3; fields; now rewrite C2).
      change (make_sig "Song A" "Artist A") with sig.
      rewrite String.eqb_refl. cbn [negb].
      replace (lastTime (fst r3)) with 10 by (rewrite E3, E2; reflexivity).
      reflexivity. }
    rewrite R.
    replace (status (set_lastTime 189 (fst r3))) with READY
      by (rewrite E3; reflexivity).
    change (DJState_eqb READY IDLE) with false.
    change (DJState_eqb READY READY) with true.
    change (Qlt_bool (200 - 189) 12) with true.
    cbn [andb].
    rewrite (playBufferedAudio_stale (Some _) (set_lastTime 189 (fst r3))).
    - reflexivity.
    - rewrite E3. fields. exact Ha.
    - fields. rewrite G3. discriminate. }
  rewrite E4. repeat split.
Qed.

Lemma C8_seek_scenario_witness :
  status initial = IDLE /\ truthy_str "UklGRg" = true /\
  let sig := "Song A|Artist A"%string in
  let r1 := step initial (playing_tick "Song A" "Artist A" 200 160) in
  let r2 := step (fst r1) (playing_tick "Song A" "Artist A" 200 10) in
  let r3 := step (fst r2) (GenerateResponse sig false (Some (Some "UklGRg"))) in
  let r4 := step (fst r3) (playing_tick "Song A" "Artist A" 200 189) in
  (status (fst r1) = GENERATING /\ generatedForSig (fst r1) = Some sig /\
   snd r1 = [StorageGet sig]) /\
  (status (fst r2) = IDLE /\ bufferedAudio (fst r2) = None /\
   generatedForSig (fst r2) = None /\ snd r2 = []) /\
  (status (fst r3) = READY /\ bufferedAudio (fst r3) = Some "UklGRg" /\
   generatedForSig (fst r3) = None) /\
  (forall v, playBufferedAudio v (fst r3) = (reset (fst r3), [])) /\
  (status (fst r4) = IDLE /\ bufferedAudio (fst r4) = None /\ snd r4 = []).
Proof.
  split; [reflexivity |]. split; [reflexivity |].
  apply (C8_seek_scenario initial "UklGRg"); reflexivity.
Defined.

End SchedulerProofs.

(** ** The live call service *)

Module LiveCallProofs.
Import LiveCall.

Lemma scheduled_app a b : scheduled (a ++ b) = scheduled a ++ scheduled b.
Proof.
  induction a as [| x a IH]; [reflexivity |].
  destruct x; simpl; rewrite ?IH; reflexivity.
Qed.

Lemma scheduled_toolCalls sid now s calls :
  scheduled (on_toolCalls sid now s calls) = [].
Proof.
  induction calls as [| fc calls IH]; [reflexivity |].
  simpl. destruct (String.eqb _ _); simpl; exact IH.
Qed.

Lemma scheduled_on_audio sid msg now s :
  scheduled (snd (on_audio sid msg now s)) = [] /\
  liveNextStartTime s <= liveNextStartTime (fst (on_audio sid msg now s)).
Proof.
  unfold on_audio.
  destruct (base64Audio msg) as [data |]; [| simpl; split; [easy | lra]].
  destruct (liveOutputContext s); [| simpl; split; [easy | lra]].
  destruct (truthy_str data); simpl; split; try easy; try lra.
  apply Math_max_l.
Qed.

(** One event of a stream of chunks either schedules nothing and leaves
    the next start time where it was or later, or schedules one chunk at
    the next start time and moves it to the end of that chunk. *)
Lemma chunk_step s e :
  chunk_event e = true ->
  (scheduled (snd (step s e)) = [] /\
   liveNextStartTime s <= liveNextStartTime (fst (step s e)))
  \/
  (exists d, 0 <= d /\
     scheduled (snd (step s e)) = [(liveNextStartTime s, d)] /\
     liveNextStartTime (fst (step s e)) = liveNextStartTime s + d).
Proof.
  destruct e as [cfg i o | sid st p | | sid | sid | sid msg now
                | sid src dur | sid | sid src | sid now | sid | | g];
    simpl; try discriminate; intros H.
  - left. unfold onopen.
    destruct (config s), (liveInputContext s), (liveStream s); simpl;
      split; try reflexivity; lra.
  - left. unfold onaudioprocess.
    destruct (liveInputContext s); simpl; split; try reflexivity; try lra.
  - left. unfold onmessage, is_interrupted in *.
    assert (E : match serverContent msg with
                | Some c => if interrupted c then on_interrupted now s
                            else (s, [])
                | None => (s, [])
                end = (s, [])).
    { destruct (serverContent msg) as [c |]; [| reflexivity].
      destruct (interrupted c); [discriminate | reflexivity]. }
    rewrite E.
    destruct (on_audio sid msg now s) as [s' a3] eqn:A.
    pose proof (scheduled_on_audio sid msg now s) as [S1 S2].
    rewrite A in S1, S2. simpl in S1, S2. simpl.
    rewrite scheduled_app, S1, app_nil_r. split; [| exact S2].
    destruct (toolCall msg); [apply scheduled_toolCalls | reflexivity].
  - right. exists dur. apply Qle_bool_iff in H. auto.
  - left. split; [reflexivity | lra].
  - left. unfold source_ended.
    destruct (negb _); [simpl; split; [reflexivity | lra] |].
    destruct (negb _ && _); [| simpl; split; [reflexivity | lra]].
    simpl. destruct (liveOutputContext s); simpl; destruct (config s);
      simpl; split; try reflexivity; lra.
Qed.

Lemma back_to_back_lower t (l : list (Q * Q)) :
  Forall (fun p => t <= fst p) l ->
  forall t', t' <= t -> Forall (fun p => t' <= fst p) l.
Proof.
  intros H t' Ht. eapply Forall_impl; [exact H |].
  simpl. intros p Hp. lra.
Qed.

(** The invariant of a stream of chunks: what gets scheduled is back to
    back and starts no earlier than the next start time at the outset. *)
Lemma chunk_run evs : forall s,
  forallb chunk_event evs = true ->
  back_to_back (scheduled (snd (run s evs))) /\
  Forall (fun p => liveNextStartTime s <= fst p) (scheduled (snd (run s evs))).
Proof.
  induction evs as [| e evs IH]; intros s H.
  - simpl. auto.
  - simpl in H. apply andb_true_iff in H as [He Hevs].
    simpl. destruct (step s e) as [s1 a1] eqn:E1.
    destruct (run s1 evs) as [s2 a2] eqn:E2.
    specialize (IH s1 Hevs). rewrite E2 in IH. simpl in IH.
    destruct IH as [IHb IHf].
    pose proof (chunk_step s e He) as C. rewrite E1 in C. simpl in C.
    simpl. rewrite scheduled_app.
    destruct C as [[C1 C2] | (d & Hd & C1 & C2)]; rewrite C1; simpl.
    + split; [exact IHb |].
      now apply (back_to_back_lower (liveNextStartTime s1)).
    + rewrite C2 in IHf. split; [split; [| exact IHb] |].
      * eapply Forall_impl; [exact IHf |]. simpl. intros p Hp. lra.
      * constructor; [simpl; lra |].
        apply (back_to_back_lower (liveNextStartTime s + d)); [exact IHf | lra].
Qed.

(** A message without interruption reaches the audio branch with the
    state it came with. *)
Lemma onmessage_chunk sid msg now s ctx data :
  is_interrupted msg = false ->
  liveOutputContext s = Some ctx ->
  base64Audio msg = Some data -> truthy_str data = true ->
  fst (onmessage sid msg now s)
  = set_liveNextStartTime (Math_max (liveNextStartTime s) now) s /\
  scheduled (snd (onmessage sid msg now s)) = [].
Proof.
  intros Hi Hc Hd Ht. unfold onmessage, is_interrupted in *.
  assert (E : match serverContent msg with
              | Some c => if interrupted c then on_interrupted now s
                          else (s, [])
              | None => (s, [])
              end = (s, [])).
  { destruct (serverContent msg) as [c |]; [| reflexivity].
    now rewrite Hi. }
  rewrite E. unfold on_audio. rewrite Hd, Hc, Ht. simpl.
  split; [reflexivity |].
  rewrite scheduled_app, app_nil_r.
  destruct (toolCall msg); [apply scheduled_toolCalls | reflexivity].
Qed.

(** C2. A chunk that arrives at time [now], with the output context open,
    and is decoded before anything else happens, is started at
    [max(liveNextStartTime, now)], and [liveNextStartTime] is then that
    start plus the duration of the chunk.  Over any stream of chunk events
    (arrivals, decodings finishing in any order, sources ending), with
    durations that are not negative, the chunks are started at times that
    never decrease, and each ends before every later one starts. *)
Theorem C2_chunks_back_to_back :
  (forall s sid msg now ctx data src dur,
     is_interrupted msg = false ->
     liveOutputContext s = Some ctx ->
     base64Audio msg = Some data -> truthy_str data = true ->
     let r := run s [OnMessage sid msg now; DecodeDone sid src dur] in
     scheduled (snd r) = [(Math_max (liveNextStartTime s) now, dur)] /\
     In (SourceStart src (Math_max (liveNextStartTime s) now) dur) (snd r) /\
     liveNextStartTime (fst r) = Math_max (liveNextStartTime s) now + dur)
  /\
  (forall s evs,
     forallb chunk_event evs = true ->
     back_to_back (scheduled (snd (run s evs)))).
Proof.
  split.
  - intros s sid msg now ctx data src dur Hi Hc Hd Ht r. subst r.
    destruct (onmessage_chunk sid msg now s ctx data Hi Hc Hd Ht) as [E1 E2].
    simpl. destruct (onmessage sid msg now s) as [s1 a1] eqn:E.
    simpl in E1, E2. subst s1. simpl.
    rewrite scheduled_app, E2. simpl. split; [reflexivity |].
    split; [| reflexivity].
    apply in_or_app. right. left. reflexivity.
  - intros s evs H. now apply chunk_run.
Qed.

Lemma C2_chunks_back_to_back_witness :
  (let s := fst (run new_service
                   [StartSession (mkConfig "k" "Matej" "" "a" "b" "c" "d" "Kore" "en") 1%nat 2%nat]) in
   let msg := mkMessage false (Some (mkContent (Some (Some "AAAA")) false false)) None in
   is_interrupted msg = false /\
   liveOutputContext s = Some 2%nat /\
   base64Audio msg = Some "AAAA"%string /\ truthy_str "AAAA" = true /\
   let r := run s [OnMessage 1%nat msg (3 # 2); DecodeDone 1%nat 7%nat (1 # 2)] in
   scheduled (snd r) = [(Math_max (liveNextStartTime s) (3 # 2), 1 # 2)] /\
   In (SourceStart 7%nat (Math_max (liveNextStartTime s) (3 # 2)) (1 # 2)) (snd r) /\
   liveNextStartTime (fst r) = Math_max (liveNextStartTime s) (3 # 2) + (1 # 2))
  /\
  (let msg := mkMessage false (Some (mkContent (Some (Some "AAAA")) false false)) None in
   let evs := [OnMessage 1%nat msg (3 # 2); OnMessage 1%nat msg 2;
               DecodeDone 1%nat 8%nat 1; DecodeDone 1%nat 7%nat (1 # 2);
               SourceEnded 1%nat 8%nat] in
   forallb chunk_event evs = true /\
   back_to_back (scheduled (snd (run new_service evs)))).
Proof.
  split.
  - split; [reflexivity |]. split; [reflexivity |].
    split; [reflexivity |]. split; [reflexivity |].
    apply (proj1 C2_chunks_back_to_back _ 1%nat _ _ 2%nat "AAAA"%string);
      reflexivity.
  - split; [reflexivity |].
    apply (proj2 C2_chunks_back_to_back). reflexivity.
Defined.

(** [x || 0] on a number is that number. *)
Lemma or_zero now : (if truthy_num now then now else 0) == now.
Proof.
  unfold truthy_num. destruct (Qeq_bool now 0) eqn:E; simpl.
  - apply Qeq_bool_iff in E. now symmetry.
  - reflexivity.
Qed.

Lemma on_interrupted_fields now s :
  liveSources (fst (on_interrupted now s)) = ∅ /\
  liveOutputContext (fst (on_interrupted now s)) = liveOutputContext s /\
  snd (on_interrupted now s) = SourceStop <$> elements (liveSources s) /\
  (liveOutputContext s <> None ->
   liveNextStartTime (fst (on_interrupted now s)) == now).
Proof.
  unfold on_interrupted. simpl. repeat split.
  intros H. destruct (liveOutputContext s); [apply or_zero | congruence].
Qed.

Lemma on_audio_fields sid msg now s :
  liveSources (fst (on_audio sid msg now s)) = liveSources s /\
  liveOutputContext (fst (on_audio sid msg now s)) = liveOutputContext s /\
  (liveNextStartTime s <= now ->
   liveNextStartTime (fst (on_audio sid msg now s)) = liveNextStartTime s \/
   liveNextStartTime (fst (on_audio sid msg now s)) = now).
Proof.
  unfold on_audio.
  destruct (base64Audio msg) as [data |]; [| simpl; auto].
  destruct (liveOutputContext s) eqn:C; [| simpl; auto].
  destruct (truthy_str data); simpl; [| auto].
  split; [reflexivity |]. split; [exact C |].
  intros H. right. now apply Math_max_of_le.
Qed.

(** A chunk that arrives when nothing is scheduled beyond [now] is
    started at [now], interruption or not. *)
Lemma onmessage_starts_now sid msg now s ctx data :
  liveOutputContext s = Some ctx ->
  base64Audio msg = Some data -> truthy_str data = true ->
  liveNextStartTime s <= now ->
  liveNextStartTime (fst (onmessage sid msg now s)) = now /\
  scheduled (snd (onmessage sid msg now s)) = [].
Proof.
  intros Hc Hd Ht Hle. unfold onmessage.
  set (r1 := match serverContent msg with
             | Some c => if interrupted c then on_interrupted now s
                         else (s, [])
             | None => (s, [])
             end).
  assert (R1 : liveOutputContext (fst r1) = Some ctx /\
               liveNextStartTime (fst r1) <= now /\
               scheduled (snd r1) = []).
  { subst r1. destruct (serverContent msg) as [c |]; [| auto].
    destruct (interrupted c); [| auto].
    destruct (on_interrupted_fields now s) as (_ & E2 & E3 & E4).
    rewrite E2, E3. repeat split; [exact Hc | |].
    - rewrite E4 by congruence. lra.
    - clear. induction (elements (liveSources s)); simpl; auto. }
  destruct r1 as [s1 a1]. simpl in R1. destruct R1 as (C1 & L1 & S1).
  unfold on_audio. rewrite Hd, C1, Ht. simpl.
  split; [now apply Math_max_of_le |].
  rewrite !scheduled_app, S1, app_nil_r. simpl.
  destruct (toolCall msg); [apply scheduled_toolCalls | reflexivity].
Qed.

(** C4. When a message of the backend says the model was interrupted,
    with the output context open, the handler stops every source of
    [liveSources], leaves [liveSources] empty and [liveNextStartTime]
    equal to the current time of the output context; a chunk that arrives
    next, at a time [now'] not before, is started at [now']. *)
Theorem C4_interruption_restarts_at_now s sid msg c now ctx :
  serverContent msg = Some c -> interrupted c = true ->
  liveOutputContext s = Some ctx ->
  let r := step s (OnMessage sid msg now) in
  (forall src, src ∈ liveSources s -> In (SourceStop src) (snd r)) /\
  liveSources (fst r) = ∅ /\
  liveNextStartTime (fst r) == now /\
  (forall sid' msg' now' data src dur,
     base64Audio msg' = Some data -> truthy_str data = true ->
     now <= now' ->
     let r' := run (fst r) [OnMessage sid' msg' now'; DecodeDone sid' src dur] in
     scheduled (snd r') = [(now', dur)] /\
     In (SourceStart src now' dur) (snd r')).
Proof.
  intros Hm Hi Hc r.
  destruct (on_interrupted_fields now s) as (E1 & E2 & E3 & E4).
  assert (R : r = (fst (on_audio sid msg now (fst (on_interrupted now s))),
                   snd (on_interrupted now s)
                   ++ match toolCall msg with
                      | Some calls =>
                        on_toolCalls sid now (fst (on_interrupted now s)) calls
                      | None => []
                      end
                   ++ snd (on_audio sid msg now (fst (on_interrupted now s))))).
  { subst r. unfold step, onmessage. rewrite Hm, Hi.
    destruct (on_interrupted now s) as [s1 a1]. cbn [fst snd].
    destruct (on_audio sid msg now s1) as [s2 a3]. reflexivity. }
  destruct (on_audio_fields sid msg now (fst (on_interrupted now s)))
    as (A1 & A2 & A3).
  assert (N : liveNextStartTime (fst r) == now).
  { rewrite R. cbn [fst].
    assert (L : liveNextStartTime (fst (on_interrupted now s)) == now)
      by (apply E4; congruence).
    assert (Hle : liveNextStartTime (fst (on_interrupted now s)) <= now)
      by lra.
    destruct (A3 Hle) as [A3' | A3']; rewrite A3'; [exact L | reflexivity]. }
  assert (C : liveOutputContext (fst r) = Some ctx).
  { rewrite R. cbn [fst]. now rewrite A2, E2. }
  split; [| split; [| split; [exact N |]]].
  - intros src Hin. rewrite R. cbn [snd]. apply in_or_app. left.
    rewrite E3. apply list_elem_of_In, list_elem_of_fmap.
    exists src. split; [reflexivity |]. now apply elem_of_elements.
  - rewrite R. cbn [fst]. now rewrite A1.
  - intros sid' msg' now' data src dur Hd Ht Hle r'. subst r'.
    destruct (onmessage_starts_now sid' msg' now' (fst r) ctx data C Hd Ht)
      as [S1 S2]; [lra |].
    simpl. destruct (onmessage sid' msg' now' (fst r)) as [s1 a1].
    simpl in S1, S2. simpl. rewrite scheduled_app, S2, S1. simpl.
    split; [reflexivity |]. apply in_or_app. right. left. reflexivity.
Qed.

Lemma C4_interruption_restarts_at_now_witness :
  let cfg := mkConfig "k" "Matej" "" "a" "b" "c" "d" "Kore" "en" in
  let chunk := mkMessage false (Some (mkContent (Some (Some "AAAA")) false false)) None in
  let s := fst (run new_service
                  [StartSession cfg 1%nat 2%nat; OnMessage 1%nat chunk 0;
                   DecodeDone 1%nat 7%nat 5; DecodeDone 1%nat 8%nat 5]) in
  let c := mkContent None true false in
  let msg := mkMessage false (Some c) None in
  serverContent msg = Some c /\ interrupted c = true /\
  liveOutputContext s = Some 2%nat /\
  let r := step s (OnMessage 1%nat msg 1) in
  (forall src, src ∈ liveSources s -> In (SourceStop src) (snd r)) /\
  liveSources (fst r) = ∅ /\
  liveNextStartTime (fst r) == 1 /\
  (forall sid' msg' now' data src dur,
     base64Audio msg' = Some data -> truthy_str data = true ->
     1 <= now' ->
     let r' := run (fst r) [OnMessage sid' msg' now'; DecodeDone sid' src dur] in
     scheduled (snd r') = [(now', dur)] /\
     In (SourceStart src now' dur) (snd r')).
Proof.
  intros cfg chunk s c msg.
  split; [reflexivity |]. split; [reflexivity |]. split; [reflexivity |].
  apply (C4_interruption_restarts_at_now s 1%nat msg c 1 2%nat); reflexivity.
Defined.

(** Emptiness of [liveSources], as the code tests it. *)
Lemma size_zero (X : gset SourceNode) : (size X =? 0)%nat = true <-> X = ∅.
Proof.
  rewrite Nat.eqb_eq. split.
  - intros H. now apply leibniz_equiv, size_empty_inv.
  - intros ->. apply size_empty.
Qed.

Ltac split_in :=
  repeat match goal with
         | H : In _ (_ ++ _) |- _ => apply in_app_or in H
         | H : _ \/ _ |- _ => destruct H
         | H : In _ [] |- _ => destruct H
         | H : In _ (_ :: _) |- _ => destruct H
         | H : False |- _ => destruct H
         end.

(** What [cleanupSession] can do: it stops no source, notifies no error
    and arms no timer; it releases only with [liveSources] empty, and
    tells the end of the call only when graceful. *)
Lemma cleanupSession_actions g s a :
  In a (snd (cleanupSession g s)) ->
  is_stop a = false /\ is_unrecoverable a = false /\ is_timer a = false /\
  (is_release a = true -> liveSources s = ∅) /\
  (forall cfg, a = OnCallEnd cfg -> g = true).
Proof.
  unfold cleanupSession.
  destruct (isLiveActive s); simpl; [| intros []].
  destruct (liveStream s); simpl;
    destruct (liveInputContext s); simpl;
    destruct (liveSilenceInterval s); simpl;
    destruct (size (liveSources s) =? 0)%nat eqn:Z; simpl;
    try (apply size_zero in Z);
    try (destruct (liveOutputContext s); simpl;
         destruct (config s); simpl; destruct g; simpl);
    intros H; split_in; subst; simpl; repeat split;
    try discriminate; try assumption; try reflexivity;
    try (intros _; assumption); try (intros ? [=]).
Qed.

Lemma cleanupSession_fields g s :
  let s' := fst (cleanupSession g s) in
  liveSources s' = liveSources s /\ config s' = config s /\
  currentSessionId s' = currentSessionId s /\ isLiveActive s' = false.
Proof.
  unfold cleanupSession.
  destruct (isLiveActive s) eqn:A; simpl; [| auto].
  destruct (liveStream s); simpl;
    destruct (liveInputContext s); simpl;
    destruct (liveSilenceInterval s); simpl;
    destruct (size (liveSources s) =? 0)%nat; simpl;
    try (destruct (liveOutputContext s); simpl); auto.
Qed.

Lemma source_ended_sources sid src s :
  liveSources (fst (source_ended sid src s)) = liveSources s ∖ {[src]}.
Proof.
  unfold source_ended. simpl.
  destruct (negb (sid =? currentSessionId s)%nat); [reflexivity |].
  destruct (negb (isLiveActive s)
            && (size (liveSources s ∖ {[src]}) =? 0)%nat); [| reflexivity].
  destruct (liveOutputContext s); reflexivity.
Qed.

Lemma source_ended_release sid src s a :
  In a (snd (source_ended sid src s)) -> is_release a = true ->
  liveSources s ∖ {[src]} = ∅.
Proof.
  unfold source_ended. simpl.
  destruct (negb (sid =? currentSessionId s)%nat); [intros [] |].
  destruct (size (liveSources s ∖ {[src]}) =? 0)%nat eqn:Z.
  - intros _ _. now apply size_zero.
  - rewrite andb_false_r. intros [].
Qed.

Lemma on_toolCalls_no_release sid now s calls a :
  In a (on_toolCalls sid now s calls) -> is_release a = false.
Proof.
  induction calls as [| fc calls IH]; [intros [] |].
  simpl. destruct (String.eqb _ _); simpl; intros H; split_in; subst; auto.
Qed.

Lemma onmessage_no_release sid msg now s a :
  In a (snd (onmessage sid msg now s)) -> is_release a = false.
Proof.
  unfold onmessage.
  destruct (match serverContent msg with
            | Some c => if interrupted c then on_interrupted now s else (s, [])
            | None => (s, [])
            end) as [s1 a1] eqn:E1.
  destruct (on_audio sid msg now s1) as [s2 a3] eqn:E3. simpl.
  intros H. apply in_app_or in H as [H | H].
  - destruct (serverContent msg) as [c |]; [| injection E1 as <- <-; destruct H].
    destruct (interrupted c); [| injection E1 as <- <-; destruct H].
    unfold on_interrupted in E1. injection E1 as <- <-.
    apply list_elem_of_In, list_elem_of_fmap in H as (x & -> & _). reflexivity.
  - apply in_app_or in H as [H | H].
    + destruct (toolCall msg); [| destruct H].
      now apply on_toolCalls_no_release in H.
    + unfold on_audio in E3.
      destruct (base64Audio msg) as [d |];
        [| injection E3 as <- <-; destruct H].
      destruct (liveOutputContext s1); [| injection E3 as <- <-; destruct H].
      destruct (truthy_str d); injection E3 as <- <-; split_in; subst; auto.
Qed.

(** No step releases the output side while a source is left in
    [liveSources]. *)
Lemma release_needs_empty s e a :
  In a (snd (step s e)) -> is_release a = true ->
  liveSources (fst (step s e)) = ∅.
Proof.
  destruct e as [cfg i o | sid st p | | sid | sid | sid msg now
                | sid src dur | sid | sid src | sid now | sid | | g];
    simpl; intros H R.
  - split_in; subst; discriminate.
  - split_in; subst; discriminate.
  - unfold startSession_catch, notify_unrecoverable in *.
    pose proof (cleanupSession_fields false s) as (F & _).
    pose proof (cleanupSession_actions false s a) as A.
    destruct (cleanupSession false s) as [s' a2]. simpl in *.
    apply in_app_or in H as [H | H].
    + destruct (config s); split_in; subst; discriminate.
    + rewrite F. now apply A.
  - unfold onopen in *.
    destruct (config s), (liveInputContext s), (liveStream s);
      simpl in H; split_in; subst; discriminate.
  - unfold onaudioprocess in *.
    destruct (liveInputContext s); simpl in H; split_in; subst; discriminate.
  - apply onmessage_no_release in H. congruence.
  - split_in; subst; discriminate.
  - destruct H.
  - rewrite source_ended_sources. eapply source_ended_release; eauto.
  - unfold onclose in *.
    destruct (isLiveActive s); [| destruct H].
    destruct (liveOutputContext s).
    + simpl in H. split_in; subst; discriminate.
    + pose proof (cleanupSession_fields true s) as (F & _).
      rewrite F. now apply (cleanupSession_actions true s a).
  - unfold onerror, notify_unrecoverable in *.
    pose proof (cleanupSession_fields false s) as (F & C & _).
    pose proof (cleanupSession_actions false s a) as A.
    destruct (cleanupSession false s) as [s' a2]. simpl in *.
    apply in_app_or in H as [H | H].
    + rewrite F. now apply A.
    + destruct (config s'); split_in; subst; discriminate.
  - pose proof (cleanupSession_fields true s) as (F & _).
    rewrite F. now apply (cleanupSession_actions true s a).
  - pose proof (cleanupSession_fields g s) as (F & _).
    rewrite F. now apply (cleanupSession_actions g s a).
Qed.

(** Over [ended] events the set of sources only shrinks. *)
Lemma ended_run_subset evs : forall s,
  forallb ended_event evs = true ->
  liveSources (fst (run s evs)) ⊆ liveSources s.
Proof.
  induction evs as [| e evs IH]; intros s H; [reflexivity |].
  simpl in H. apply andb_true_iff in H as [He Hevs].
  destruct e; try discriminate. simpl.
  pose proof (source_ended_sources sessionId source s) as S1.
  destruct (source_ended sessionId source s) as [s1 a1]. simpl in S1.
  specialize (IH s1 Hevs).
  destruct (run s1 evs) as [s2 a2]. simpl in *. set_solver.
Qed.

Lemma ended_run_release evs : forall s a,
  forallb ended_event evs = true ->
  In a (snd (run s evs)) -> is_release a = true ->
  liveSources (fst (run s evs)) = ∅.
Proof.
  induction evs as [| e evs IH]; intros s a H Hin R; [destruct Hin |].
  simpl in H. apply andb_true_iff in H as [He Hevs].
  simpl in *.
  pose proof (release_needs_empty s e a) as N.
  destruct (step s e) as [s1 a1]. simpl in N.
  pose proof (ended_run_subset evs s1 Hevs) as Sub.
  specialize (IH s1 a Hevs).
  destruct (run s1 evs) as [s2 a2]. simpl in *.
  apply in_app_or in Hin as [Hin | Hin].
  - specialize (N Hin R). set_solver.
  - now apply IH.
Qed.

(** C5. [cleanupSession] stops no source and leaves [liveSources] as it
    is.  No step of the service closes the output context or calls
    [onCallEnd] unless [liveSources] is empty once the step is done; so
    after a teardown, as long as a scheduled source has not ended, neither
    has happened.  With no source scheduled the teardown of an active
    session closes the output context at once (and calls [onCallEnd] when
    graceful); otherwise the [ended] event of the last source does both. *)
Theorem C5_release_after_last_chunk :
  (forall g s,
     liveSources (fst (cleanupSession g s)) = liveSources s /\
     forall a, In a (snd (cleanupSession g s)) -> is_stop a = false)
  /\
  (forall s e a,
     In a (snd (step s e)) -> is_release a = true ->
     liveSources (fst (step s e)) = ∅)
  /\
  (forall g s evs,
     forallb ended_event evs = true ->
     let r := run (fst (cleanupSession g s)) evs in
     liveSources (fst r) <> ∅ ->
     forall a, In a (snd (cleanupSession g s) ++ snd r) ->
               is_release a = false)
  /\
  (forall g s ctx cfg,
     isLiveActive s = true -> liveSources s = ∅ ->
     liveOutputContext s = Some ctx -> config s = Some cfg ->
     In (OutputContextClose ctx) (snd (cleanupSession g s)) /\
     (g = true -> In (OnCallEnd cfg) (snd (cleanupSession g s))))
  /\
  (forall s src ctx cfg,
     isLiveActive s = false -> liveSources s = {[src]} ->
     liveOutputContext s = Some ctx -> config s = Some cfg ->
     snd (step s (SourceEnded (currentSessionId s) src))
     = [OutputContextClose ctx; OnCallEnd cfg]).
Proof.
  split; [| split; [| split; [| split]]].
  - intros g s. split; [apply cleanupSession_fields |].
    intros a H. now apply cleanupSession_actions in H.
  - exact release_needs_empty.
  - intros g s evs H r Hne a Hin.
    destruct (is_release a) eqn:R; [| reflexivity]. exfalso. apply Hne.
    apply in_app_or in Hin as [Hin | Hin].
    + pose proof (cleanupSession_actions g s a Hin) as (_ & _ & _ & E & _).
      pose proof (cleanupSession_fields g s) as (F & _).
      pose proof (ended_run_subset evs (fst (cleanupSession g s)) H) as Sub.
      fold r in Sub. rewrite F, (E R) in Sub. set_solver.
    + now apply (ended_run_release evs _ a).
  - intros g s ctx cfg A E C K.
    assert (Z : (size (liveSources s) =? 0)%nat = true) by now apply size_zero.
    unfold cleanupSession. rewrite A. cbn -[size].
    destruct (liveStream s); cbn -[size];
      destruct (liveInputContext s); cbn -[size];
      destruct (liveSilenceInterval s); cbn -[size];
      rewrite Z, C; cbn -[size]; rewrite K;
      (split; [| intros ->]); cbn; tauto.
  - intros s src ctx cfg A E C K.
    assert (Z : (size (liveSources s ∖ {[src]}) =? 0)%nat = true)
      by (apply size_zero; set_solver).
    unfold step, source_ended. cbn -[size].
    rewrite Nat.eqb_refl, A, Z. cbn -[size]. rewrite C. cbn -[size].
    rewrite K. reflexivity.
Qed.

Lemma C5_release_after_last_chunk_witness :
  (* a teardown while two chunks play stops nothing *)
  (liveSources (fst (cleanupSession true demo_playing))
   = liveSources demo_playing /\
   forall a, In a (snd (cleanupSession true demo_playing)) -> is_stop a = false)
  /\
  (* the release at the end of the last chunk *)
  (let s := fst (run demo_playing [CleanupSession true; SourceEnded 1%nat 7%nat]) in
   let e := SourceEnded 1%nat 8%nat in
   In (OnCallEnd demo_config) (snd (step s e)) /\
   is_release (OnCallEnd demo_config) = true /\
   liveSources (fst (step s e)) = ∅)
  /\
  (* no release while source 8 plays *)
  (let evs := [SourceEnded 1%nat 7%nat] in
   forallb ended_event evs = true /\
   let r := run (fst (cleanupSession true demo_playing)) evs in
   liveSources (fst r) <> ∅ /\
   forall a, In a (snd (cleanupSession true demo_playing) ++ snd r) ->
             is_release a = false)
  /\
  (* nothing scheduled: release at once *)
  (isLiveActive demo_started = true /\ liveSources demo_started = ∅ /\
   liveOutputContext demo_started = Some 2%nat /\
   config demo_started = Some demo_config /\
   In (OutputContextClose 2%nat) (snd (cleanupSession true demo_started)) /\
   (true = true ->
    In (OnCallEnd demo_config) (snd (cleanupSession true demo_started))))
  /\
  (let s := fst (run demo_playing [CleanupSession true; SourceEnded 1%nat 7%nat]) in
   isLiveActive s = false /\ liveSources s = {[8%nat]} /\
   liveOutputContext s = Some 2%nat /\ config s = Some demo_config /\
   snd (step s (SourceEnded (currentSessionId s) 8%nat))
   = [OutputContextClose 2%nat; OnCallEnd demo_config]).
Proof.
  pose proof C5_release_after_last_chunk as (T1 & T2 & T3 & T4 & T5).
  split; [apply T1 |].
  split.
  { assert (H : In (OnCallEnd demo_config)
                  (snd (step (fst (run demo_playing
                                     [CleanupSession true;
                                      SourceEnded 1%nat 7%nat]))
                          (SourceEnded 1%nat 8%nat))))
      by (vm_compute; right; left; reflexivity).
    split; [exact H |]. split; [reflexivity |].
    exact (T2 _ _ _ H eq_refl). }
  split.
  { split; [reflexivity |].
    assert (N : liveSources
                  (fst (run (fst (cleanupSession true demo_playing))
                          [SourceEnded 1%nat 7%nat])) <> ∅)
      by (vm_compute; discriminate).
    split; [exact N |]. exact (T3 true demo_playing [SourceEnded 1%nat 7%nat] eq_refl N). }
  split.
  { split; [reflexivity |]. split; [reflexivity |].
    split; [reflexivity |]. split; [reflexivity |].
    apply T4; reflexivity. }
  split; [reflexivity |]. split; [vm_compute; reflexivity |].
  split; [reflexivity |]. split; [reflexivity |].
  apply T5; [reflexivity | vm_compute; reflexivity | reflexivity | reflexivity].
Defined.






(** C9. [cleanupSession] on a service that is not active returns at once:
    the state is the same and nothing is called; whatever the state, a
    second [cleanupSession] after a first one is such a call. *)
Theorem C9_cleanup_idempotent :
  (forall g s, isLiveActive s = false -> cleanupSession g s = (s, []))
  /\
  (forall g1 g2 s,
     cleanupSession g2 (fst (cleanupSession g1 s))
     = (fst (cleanupSession g1 s), [])).
Proof.
  assert (H : forall g s, isLiveActive s = false -> cleanupSession g s = (s, [])).
  { intros g s A. unfold cleanupSession. now rewrite A. }
  split; [exact H |].
  intros g1 g2 s. apply H. apply cleanupSession_fields.
Qed.

Lemma C9_cleanup_idempotent_witness :
  let s := fst (cleanupSession true demo_playing) in
  isLiveActive s = false /\ cleanupSession false s = (s, []).
Proof.
  split; [reflexivity |].
  apply (proj1 C9_cleanup_idempotent). reflexivity.
Defined.

(** C3, on the code.  After a second [startSession] the current session
    is number 2.  The [ended] event of a source of session 1 is ignored,
    as the handler compares the session numbers; the handlers of the
    connection do not: an [onerror] of session 1 tears session 2 down and
    reports the failure to the second caller, and an interruption in a
    message of session 1 moves the next start time of session 2. *)
Theorem C3_stale_events_on_the_code :
  currentSessionId demo_restarted = 2%nat /\
  isLiveActive demo_restarted = true /\
  step demo_restarted (SourceEnded 1%nat 7%nat) = (demo_restarted, []) /\
  isLiveActive (fst (step demo_restarted (OnError 1%nat))) = false /\
  liveStream (fst (step demo_restarted (OnError 1%nat))) = None /\
  snd (step demo_restarted (OnError 1%nat))
  = [StopTracks 11%nat; InputContextClose 3%nat; OutputContextClose 4%nat;
     OnUnrecoverableError demo_config2] /\
  liveNextStartTime demo_restarted = 0 /\
  liveNextStartTime
    (fst (step demo_restarted
            (OnMessage 1%nat (mkMessage false (Some (mkContent None true false)) None) 9)))
  = 9.
Proof. vm_compute. repeat split; reflexivity. Qed.

End LiveCallProofs.

(** ** The relay input source *)

Module RemoteSocketProofs.
Import RemoteSocket.

(** A step hands audio only to the callback the source holds. *)
Lemma step_forwards s e a :
  In a (snd (step s e)) -> is_forward a = true ->
  exists cb d, a = PropagateAudio cb d /\ propagateAudio s = Some cb.
Proof.
  destruct e as [cb o k | | cb | k | k data | k]; simpl.
  - unfold connect, initWebSocket. simpl.
    destruct (ws s); [destruct o |]; simpl; intros H R;
      repeat destruct H as [H | H]; subst; try discriminate; destruct H.
  - unfold disconnect. destruct (ws s); simpl; intros H R;
      repeat destruct H as [H | H]; subst; try discriminate; destruct H.
  - intros [].
  - unfold ws_onopen. destruct (ws s); simpl; intros H R;
      repeat destruct H as [H | H]; subst; try discriminate; destruct H.
  - unfold ws_onmessage. destruct data as [bytes | [name | | |]].
    + destruct (propagateAudio s) as [cb |]; simpl; [| intros []].
      intros [<- | []] _. eauto.
    + intros [<- | []]. discriminate.
    + intros [<- | []]. discriminate.
    + intros [].
    + intros [].
  - intros [<- | []]. discriminate.
Qed.

(** The callback held after a step: the one held before, unless the step
    is a [connect] or a [disconnect]. *)
Lemma step_callback s e :
  propagateAudio (fst (step s e))
  = match e with
    | Connect cb _ _ => Some cb
    | Disconnect => None
    | _ => propagateAudio s
    end.
Proof.
  destruct e as [cb o k | | cb | k | k data | k]; simpl; try reflexivity.
  - unfold connect. simpl. destruct (ws s); [destruct o |]; reflexivity.
  - unfold disconnect. destruct (ws s); reflexivity.
  - unfold ws_onmessage.
    destruct data as [bytes | [name | | |]]; try reflexivity.
    destruct (propagateAudio s) eqn:P; simpl; congruence.
Qed.

(** While [cb] is not held and not handed to [connect] again, it is not
    called. *)
Lemma run_never_forwards cb evs : forall s,
  propagateAudio s <> Some cb ->
  existsb (connects cb) evs = false ->
  List.filter (forwards_to cb) (snd (run s evs)) = [].
Proof.
  induction evs as [| e evs IH]; intros s Hs Hc; [reflexivity |].
  simpl in Hc. apply orb_false_iff in Hc as [He Hevs].
  simpl.
  pose proof (step_forwards s e) as F.
  pose proof (step_callback s e) as C.
  destruct (step s e) as [s1 a1]. simpl in F, C.
  assert (Hs1 : propagateAudio s1 <> Some cb).
  { rewrite C. destruct e; try assumption; [| discriminate].
    simpl in He. apply Nat.eqb_neq in He. congruence. }
  specialize (IH s1 Hs1 Hevs).
  destruct (run s1 evs) as [s2 a2]. simpl in *.
  rewrite List.filter_app, IH, app_nil_r.
  apply filter_none.
  intros a Ha. destruct (forwards_to cb a) eqn:Fa; [| reflexivity].
  exfalso. destruct a; try discriminate. simpl in Fa.
  apply Nat.eqb_eq in Fa. subst cb0.
  destruct (F _ Ha eq_refl) as (cb' & d & [= <- <-] & Hp). congruence.
Qed.

(** Between a [disconnect] and the next [connect], nothing is forwarded
    at all. *)
Lemma run_socket_events_silent evs : forall s,
  propagateAudio s = None ->
  forallb socket_event evs = true ->
  List.filter is_forward (snd (run s evs)) = [].
Proof.
  induction evs as [| e evs IH]; intros s Hs Hc; [reflexivity |].
  simpl in Hc. apply andb_true_iff in Hc as [He Hevs].
  simpl.
  pose proof (step_forwards s e) as F.
  pose proof (step_callback s e) as C.
  destruct (step s e) as [s1 a1]. simpl in F, C.
  assert (Hs1 : propagateAudio s1 = None).
  { rewrite C. destruct e; try discriminate; assumption. }
  specialize (IH s1 Hs1 Hevs).
  destruct (run s1 evs) as [s2 a2]. simpl in *.
  rewrite List.filter_app, IH, app_nil_r.
  apply filter_none.
  intros a Ha. destruct (is_forward a) eqn:Fa; [| reflexivity].
  destruct (F _ Ha Fa) as (cb' & d & _ & Hp). congruence.
Qed.

(** C10. After [disconnect()] the source holds no audio callback and no
    socket, and the socket it held, if any, was closed.  Whatever the
    relay sockets then deliver, no frame is forwarded; and in any later
    run, a callback is called with audio only if it is handed to
    [connect] again in that run. *)
Theorem C10_disconnect_stops_forwarding s :
  propagateAudio (fst (disconnect s)) = None /\
  ws (fst (disconnect s)) = None /\
  (forall k, ws s = Some k -> snd (disconnect s) = [WsClose k]) /\
  (forall evs,
     forallb socket_event evs = true ->
     List.filter is_forward (snd (run (fst (disconnect s)) evs)) = []) /\
  (forall cb evs,
     existsb (connects cb) evs = false ->
     List.filter (forwards_to cb) (snd (run (fst (disconnect s)) evs)) = []).
Proof.
  assert (P : propagateAudio (fst (disconnect s)) = None)
    by (unfold disconnect; destruct (ws s); reflexivity).
  split; [exact P |].
  split; [unfold disconnect; destruct (ws s) eqn:W; simpl; congruence |].
  split; [intros k H; unfold disconnect; rewrite H; reflexivity |].
  split.
  - intros evs H. now apply run_socket_events_silent.
  - intros cb evs H. apply run_never_forwards; [| exact H].
    rewrite P. discriminate.
Qed.

Lemma C10_disconnect_stops_forwarding_witness :
  let s := fst (run (new_source "8X2-A9D" "ws://localhost:8080" 0%nat)
                  [Connect 5%nat false 1%nat; WsOnOpen 1%nat]) in
  let frames := [WsOnMessage 1%nat (Binary [Byte.x01; Byte.x02]);
                 WsOnClose 1%nat;
                 WsOnMessage 1%nat (Binary [Byte.x03])] in
  let later := [WsOnMessage 1%nat (Binary [Byte.x01]);
                Connect 6%nat false 2%nat;
                WsOnMessage 1%nat (Binary [Byte.x02])] in
  ws s = Some 1%nat /\ snd (disconnect s) = [WsClose 1%nat] /\
  (forallb socket_event frames = true /\
   List.filter is_forward (snd (run (fst (disconnect s)) frames)) = []) /\
  (existsb (connects 5%nat) later = false /\
   List.filter (forwards_to 5%nat) (snd (run (fst (disconnect s)) later)) = []).
Proof.
  intros s frames later.
  pose proof (C10_disconnect_stops_forwarding s) as (_ & _ & T3 & T4 & T5).
  split; [reflexivity |]. split; [now apply T3 |].
  split; (split; [reflexivity |]).
  - now apply T4.
  - now apply T5.
Defined.

End RemoteSocketProofs.

(** * Properties of the rest of the code *)

(** ** The live call service: sessions, hang-up, restart *)

Module LiveCallMore.
Import LiveCall LiveCallExtra LiveCallProofs.

Lemma on_audio_id sid msg now s :
  currentSessionId (fst (on_audio sid msg now s)) = currentSessionId s /\
  config (fst (on_audio sid msg now s)) = config s /\
  isLiveActive (fst (on_audio sid msg now s)) = isLiveActive s /\
  liveSilenceInterval (fst (on_audio sid msg now s)) = liveSilenceInterval s.
Proof.
  unfold on_audio. destruct (base64Audio msg) as [d |]; [| auto].
  destruct (liveOutputContext s); [| auto].
  destruct (truthy_str d); auto.
Qed.

Lemma onmessage_id sid msg now s :
  currentSessionId (fst (onmessage sid msg now s)) = currentSessionId s /\
  config (fst (onmessage sid msg now s)) = config s /\
  isLiveActive (fst (onmessage sid msg now s)) = isLiveActive s /\
  liveSilenceInterval (fst (onmessage sid msg now s)) = liveSilenceInterval s.
Proof.
  unfold onmessage.
  set (r1 := match serverContent msg with
             | Some c => if interrupted c then on_interrupted now s else (s, [])
             | None => (s, [])
             end).
  assert (R : currentSessionId (fst r1) = currentSessionId s /\
              config (fst r1) = config s /\
              isLiveActive (fst r1) = isLiveActive s /\
              liveSilenceInterval (fst r1) = liveSilenceInterval s).
  { subst r1. destruct (serverContent msg) as [c |]; [| auto].
    destruct (interrupted c); auto. }
  destruct r1 as [s1 a1]. simpl in R.
  pose proof (on_audio_id sid msg now s1) as A.
  destruct (on_audio sid msg now s1) as [s2 a3]. simpl in *.
  destruct R as (R1 & R2 & R3 & R4). destruct A as (A1 & A2 & A3 & A4).
  repeat split; congruence.
Qed.

Lemma cleanupSession_interval g s :
  liveSilenceInterval s = None ->
  liveSilenceInterval (fst (cleanupSession g s)) = None /\
  forall a, In a (snd (cleanupSession g s)) -> is_silence_clear a = false.
Proof.
  intros I. unfold cleanupSession.
  destruct (isLiveActive s); simpl; [| split; [exact I | intros a []]].
  destruct (liveStream s); simpl;
    destruct (liveInputContext s); simpl;
    rewrite I; simpl;
    destruct (size (liveSources s) =? 0)%nat; simpl;
    try (destruct (liveOutputContext s); simpl;
         destruct (config s); simpl; destruct g; simpl);
    (split; [exact I |]); intros x H; split_in; subst; reflexivity.
Qed.

Lemma source_ended_id sid src s :
  currentSessionId (fst (source_ended sid src s)) = currentSessionId s /\
  config (fst (source_ended sid src s)) = config s /\
  isLiveActive (fst (source_ended sid src s)) = isLiveActive s /\
  liveSilenceInterval (fst (source_ended sid src s)) = liveSilenceInterval s /\
  forall a, In a (snd (source_ended sid src s)) -> is_silence_clear a = false.
Proof.
  unfold source_ended. simpl.
  destruct (negb (sid =? currentSessionId s)%nat);
    [simpl; repeat split; intros a [] |].
  destruct (negb (isLiveActive s) && _);
    [| simpl; repeat split; intros a []].
  destruct (liveOutputContext s); simpl; destruct (config s); simpl;
    repeat split; intros x H; split_in; subst; reflexivity.
Qed.

(** What a step does to the session number. *)
Lemma step_sessionId s e :
  currentSessionId (fst (step s e))
  = (currentSessionId s + (if is_start e then 1 else 0))%nat.
Proof.
  destruct e as [cfg i o | sid st p | | sid | sid | sid msg now
                | sid src dur | sid | sid src | sid now | sid | | g];
    simpl; rewrite ?Nat.add_0_r.
  - lia.
  - reflexivity.
  - unfold startSession_catch.
    pose proof (cleanupSession_fields false s) as (_ & _ & I & _).
    destruct (cleanupSession false s). exact I.
  - unfold onopen. destruct (config s), (liveInputContext s), (liveStream s);
      reflexivity.
  - unfold onaudioprocess. destruct (liveInputContext s); reflexivity.
  - apply onmessage_id.
  - reflexivity.
  - reflexivity.
  - apply source_ended_id.
  - unfold onclose. destruct (isLiveActive s); [| reflexivity].
    destruct (liveOutputContext s); [reflexivity |].
    apply cleanupSession_fields.
  - unfold onerror.
    pose proof (cleanupSession_fields false s) as (_ & _ & I & _).
    destruct (cleanupSession false s). exact I.
  - apply cleanupSession_fields.
  - apply cleanupSession_fields.
Qed.

(** X1. Over any run of the service the session number grows by exactly
    the number of [startSession] calls: no other handler changes it, and
    two sessions never share a number. *)
Theorem session_ids_count_starts s evs :
  currentSessionId (fst (run s evs))
  = (currentSessionId s + length (List.filter is_start evs))%nat.
Proof.
  revert s. induction evs as [| e evs IH]; intros s; simpl; [lia |].
  pose proof (step_sessionId s e) as E.
  destruct (step s e) as [s1 a1]. simpl in E.
  specialize (IH s1). destruct (run s1 evs) as [s2 a2]. simpl in *.
  rewrite IH, E. destruct (is_start e); simpl; lia.
Qed.

Lemma onmessage_actions sid msg now s a :
  In a (snd (onmessage sid msg now s)) ->
  is_silence_clear a = false /\ is_call_end a = false /\
  (forall src, stops src a = true -> src ∈ liveSources s).
Proof.
  unfold onmessage.
  destruct (match serverContent msg with
            | Some c => if interrupted c then on_interrupted now s else (s, [])
            | None => (s, [])
            end) as [s1 a1] eqn:E1.
  destruct (on_audio sid msg now s1) as [s2 a3] eqn:E3. simpl.
  intros H. apply in_app_or in H as [H | H].
  - destruct (serverContent msg) as [c |]; [| injection E1 as <- <-; destruct H].
    destruct (interrupted c); [| injection E1 as <- <-; destruct H].
    unfold on_interrupted in E1. injection E1 as <- <-.
    apply list_elem_of_In, list_elem_of_fmap in H as (x & -> & Hx).
    apply elem_of_elements in Hx. repeat split.
    intros src Hs. simpl in Hs. apply Nat.eqb_eq in Hs. now subst.
  - apply in_app_or in H as [H | H].
    + destruct (toolCall msg) as [calls |]; [| destruct H].
      clear E1 E3. induction calls as [| fc calls IH]; [destruct H |].
      simpl in H. destruct (String.eqb _ _); simpl in H; split_in; subst;
        try (repeat split; discriminate); auto.
    + unfold on_audio in E3.
      destruct (base64Audio msg) as [d |];
        [| injection E3 as <- <-; destruct H].
      destruct (liveOutputContext s1); [| injection E3 as <- <-; destruct H].
      destruct (truthy_str d); injection E3 as <- <-; split_in; subst;
        repeat split; discriminate.
Qed.

Lemma step_config s e :
  config (fst (step s e))
  = match e with
    | StartSession cfg _ _ => Some cfg
    | _ => config s
    end.
Proof.
  destruct e as [cfg i o | sid st p | | sid | sid | sid msg now
                | sid src dur | sid | sid src | sid now | sid | | g];
    simpl; try reflexivity.
  - unfold startSession_catch.
    pose proof (cleanupSession_fields false s) as (_ & I & _).
    destruct (cleanupSession false s). exact I.
  - unfold onopen. destruct (liveInputContext s), (liveStream s);
      reflexivity.
  - unfold onaudioprocess. destruct (liveInputContext s); reflexivity.
  - apply onmessage_id.
  - apply source_ended_id.
  - unfold onclose. destruct (isLiveActive s); [| reflexivity].
    destruct (liveOutputContext s); [reflexivity |].
    apply cleanupSession_fields.
  - unfold onerror.
    pose proof (cleanupSession_fields false s) as (_ & I & _).
    destruct (cleanupSession false s). exact I.
  - apply cleanupSession_fields.
  - apply cleanupSession_fields.
Qed.

(** Only [startSession] makes the service active. *)
Lemma step_active s e :
  isLiveActive (fst (step s e)) = true ->
  is_start e = true \/ isLiveActive s = true.
Proof.
  destruct e as [cfg i o | sid st p | | sid | sid | sid msg now
                | sid src dur | sid | sid src | sid now | sid | | g];
    simpl; auto.
  - unfold startSession_catch.
    pose proof (cleanupSession_fields false s) as (_ & _ & _ & I).
    destruct (cleanupSession false s). simpl in *. congruence.
  - unfold onopen. destruct (liveInputContext s), (liveStream s); auto.
  - unfold onaudioprocess. destruct (liveInputContext s); auto.
  - destruct (onmessage_id sid msg now s) as (_ & _ & -> & _). auto.
  - destruct (source_ended_id sid src s) as (_ & _ & -> & _). auto.
  - unfold onclose. destruct (isLiveActive s) eqn:A; [auto |].
    simpl. intros. congruence.
  - unfold onerror.
    pose proof (cleanupSession_fields false s) as (_ & _ & _ & I).
    destruct (cleanupSession false s). simpl in *. congruence.
  - pose proof (cleanupSession_fields true s) as (_ & _ & _ & I).
    simpl in I. congruence.
  - pose proof (cleanupSession_fields g s) as (_ & _ & _ & I).
    simpl in I. congruence.
Qed.

(** Nothing ever sets the silence interval. *)
Lemma step_interval s e :
  liveSilenceInterval s = None ->
  liveSilenceInterval (fst (step s e)) = None /\
  forall a, In a (snd (step s e)) -> is_silence_clear a = false.
Proof.
  intros I.
  destruct e as [cfg i o | sid st p | | sid | sid | sid msg now
                | sid src dur | sid | sid src | sid now | sid | | g];
    simpl.
  - split; [exact I |]. intros x H. split_in; subst; reflexivity.
  - split; [exact I |]. intros x H. split_in; subst; reflexivity.
  - unfold startSession_catch, notify_unrecoverable.
    pose proof (cleanupSession_interval false s I) as (C1 & C2).
    destruct (cleanupSession false s) as [s' a']. simpl in *.
    split; [exact C1 |]. intros x H. apply in_app_or in H as [H | H]; auto.
    destruct (config s); split_in; subst; reflexivity.
  - unfold onopen.
    destruct (config s), (liveInputContext s), (liveStream s); simpl;
      (split; [exact I |]); intros x H; split_in; subst; reflexivity.
  - unfold onaudioprocess. destruct (liveInputContext s); simpl;
      (split; [exact I |]); intros x H; split_in; subst; reflexivity.
  - destruct (onmessage_id sid msg now s) as (_ & _ & _ & ->).
    split; [exact I |]. intros x H. now apply onmessage_actions in H.
  - split; [exact I |]. intros x H. split_in; subst; reflexivity.
  - split; [exact I |]. intros x [].
  - destruct (source_ended_id sid src s) as (_ & _ & _ & -> & Q).
    split; [exact I | exact Q].
  - unfold onclose. destruct (isLiveActive s); [| split; [exact I | intros x []]].
    destruct (liveOutputContext s).
    + split; [exact I |]. intros x H. simpl in H. split_in; subst; reflexivity.
    + now apply cleanupSession_interval.
  - unfold onerror, notify_unrecoverable.
    pose proof (cleanupSession_interval false s I) as (C1 & C2).
    destruct (cleanupSession false s) as [s' a']. simpl in *.
    split; [exact C1 |]. intros x H. apply in_app_or in H as [H | H]; auto.
    destruct (config s'); split_in; subst; reflexivity.
  - now apply cleanupSession_interval.
  - now apply cleanupSession_interval.
Qed.

Lemma well_started_step s e :
  well_started s ->
  well_started (fst (step s e)) /\
  forall a, In a (snd (step s e)) -> is_silence_clear a = false.
Proof.
  intros (I & A & C).
  destruct (step_interval s e I) as (I' & Q).
  split; [| exact Q]. split; [exact I' |].
  pose proof (step_config s e) as K.
  pose proof (step_sessionId s e) as N.
  pose proof (step_active s e) as Act.
  split.
  - intros H. rewrite K. destruct (Act H) as [S | S].
    + destruct e; discriminate.
    + destruct e; try discriminate; now apply A.
  - rewrite K, N. destruct e; simpl; rewrite ?Nat.add_0_r; try exact C.
    split; [discriminate | lia].
Qed.

(** X2. In every run of a service made by the constructor, silence
    detection stays off ([liveSilenceInterval] is null and its
    [clearInterval] is never reached), an active service has a
    configuration to notify, and the configuration is missing exactly as
    long as no session was started. *)
Theorem fresh_service_invariants evs :
  well_started (fst (run new_service evs)) /\
  List.filter is_silence_clear (snd (run new_service evs)) = [].
Proof.
  assert (G : forall evs s, well_started s ->
                well_started (fst (run s evs)) /\
                List.filter is_silence_clear (snd (run s evs)) = []).
  { clear. induction evs as [| e evs IH]; intros s W; [now split |].
    simpl. destruct (well_started_step s e W) as (W1 & Q).
    destruct (step s e) as [s1 a1]. simpl in W1, Q.
    destruct (IH s1 W1) as (W2 & F2).
    destruct (run s1 evs) as [s2 a2]. simpl in *.
    split; [exact W2 |].
    now rewrite List.filter_app, F2, app_nil_r, filter_none. }
  apply G. repeat split; try discriminate; auto.
Qed.

Lemma Math_max_zero_delay x k :
  0 <= k -> k <= Math_max 0 x * 1000 + k /\ x * 1000 + k <= Math_max 0 x * 1000 + k.
Proof.
  intros Hk. pose proof (Math_max_l 0 x). pose proof (Math_max_r 0 x).
  split; lra.
Qed.

Lemma on_toolCalls_timers sid now s calls :
  length (List.filter is_timer (on_toolCalls sid now s calls))
  = length (List.filter is_endCall calls) /\
  (forall ms, In (SetTimeoutCleanup ms) (on_toolCalls sid now s calls) ->
     1000 <= ms /\
     (liveOutputContext s <> None ->
      (liveNextStartTime s - now) * 1000 + 1000 <= ms)) /\
  (forall fc, In fc calls -> is_endCall fc = true ->
     In (SendToolResponse sid fc) (on_toolCalls sid now s calls)).
Proof.
  induction calls as [| fc calls (IH1 & IH2 & IH3)].
  - simpl. repeat split; try easy.
  - simpl. unfold is_endCall at 1 3.
    destruct (String.eqb (fc_name fc) "endCall") eqn:E; simpl.
    + split; [now rewrite IH1 |]. split.
      * intros ms [H | [H | H]]; [discriminate | | now apply IH2].
        injection H as <-.
        destruct (liveOutputContext s).
        -- destruct (Math_max_zero_delay (liveNextStartTime s - now) 1000);
             [lra |]. split; [assumption | intros _; assumption].
        -- split; [lra | congruence].
      * intros fc' [<- | H] Hfc; [now left |]. right. right. now apply IH3.
    + split; [exact IH1 |]. split; [exact IH2 |].
      intros fc' [<- | H] Hfc; [| now apply IH3].
      unfold is_endCall in Hfc. congruence.
Qed.

(** X3. The two deferred teardowns.  A message that carries tool calls
    leaves the service as it is, answers every [endCall] and arms one
    cleanup timer for each; a closed connection, with the session active
    and the output context open, leaves the service as it is and arms one
    timer.  No timer is shorter than the audio still scheduled (in
    milliseconds) plus 1000, respectively 500; a service that is not
    active ignores the closed connection. *)
Theorem deferred_teardown_waits_for_audio s sid now :
  (forall calls,
     let r := step s (OnMessage sid (tool_message calls) now) in
     fst r = s /\
     length (List.filter is_timer (snd r))
     = length (List.filter is_endCall calls) /\
     (forall fc, In fc calls -> is_endCall fc = true ->
        In (SendToolResponse sid fc) (snd r)) /\
     (forall ms, In (SetTimeoutCleanup ms) (snd r) ->
        1000 <= ms /\
        (liveOutputContext s <> None ->
         (liveNextStartTime s - now) * 1000 + 1000 <= ms)))
  /\
  (isLiveActive s = true -> liveOutputContext s <> None ->
   exists ms,
     step s (OnClose sid now) = (s, [SetTimeoutCleanup ms]) /\
     500 <= ms /\ (liveNextStartTime s - now) * 1000 + 500 <= ms)
  /\
  (isLiveActive s = false -> step s (OnClose sid now) = (s, [])).
Proof.
  split; [| split].
  - intros calls r. subst r. unfold step, tool_message, onmessage. simpl.
    rewrite app_nil_r.
    destruct (on_toolCalls_timers sid now s calls) as (T1 & T2 & T3).
    repeat split; auto; now apply T2.
  - intros A C. unfold step, onclose. rewrite A.
    destruct (liveOutputContext s); [| congruence].
    eexists. split; [reflexivity |].
    apply Math_max_zero_delay. lra.
  - intros A. unfold step, onclose. now rewrite A.
Qed.

Lemma deferred_teardown_waits_for_audio_witness :
  isLiveActive demo_playing = true /\ liveOutputContext demo_playing <> None /\
  exists ms,
    step demo_playing (OnClose 1%nat 4) = (demo_playing, [SetTimeoutCleanup ms]) /\
    500 <= ms /\ (liveNextStartTime demo_playing - 4) * 1000 + 500 <= ms.
Proof.
  split; [reflexivity |]. split; [discriminate |].
  apply (proj1 (proj2 (deferred_teardown_waits_for_audio demo_playing 1%nat 4)));
    [reflexivity | discriminate].
Defined.

(** X4. The [graceful] flag decides about [onCallEnd] only when nothing
    plays: a non-graceful teardown with no source scheduled never calls
    it, but with one source still playing the [ended] event of that
    source closes the output context and calls [onCallEnd] all the
    same. *)
Theorem nongraceful_teardown_still_ends_call s :
  (forall a, In a (snd (cleanupSession false s)) -> is_call_end a = false)
  /\
  (forall src ctx cfg,
     isLiveActive s = true -> liveSources s = {[src]} ->
     liveOutputContext s = Some ctx -> config s = Some cfg ->
     List.filter is_release
       (snd (run s [CleanupSession false;
                    SourceEnded (currentSessionId s) src]))
     = [OutputContextClose ctx; OnCallEnd cfg]).
Proof.
  split.
  - intros a H. destruct (cleanupSession_actions false s a H) as (_ & _ & _ & _ & G).
    destruct a; try reflexivity. specialize (G cfg eq_refl). discriminate.
  - intros src ctx cfg A E C K.
    assert (Z : (size (liveSources s) =? 0)%nat = false).
    { destruct (size (liveSources s) =? 0)%nat eqn:Z; [| reflexivity].
      apply size_zero in Z. rewrite E in Z. set_solver. }
    assert (Z' : (size (liveSources s ∖ {[src]}) =? 0)%nat = true)
      by (apply size_zero; set_solver).
    unfold run, step, cleanupSession. rewrite A. cbn -[size].
    destruct (liveStream s); cbn -[size];
      destruct (liveInputContext s); cbn -[size];
      destruct (liveSilenceInterval s); cbn -[size];
      rewrite Z; cbn -[size]; unfold source_ended; cbn -[size];
      rewrite Nat.eqb_refl, Z'; cbn -[size]; rewrite C; cbn -[size];
      rewrite K; reflexivity.
Qed.

Lemma nongraceful_teardown_still_ends_call_witness :
  let s := fst (run demo_started
                  [OnMessage 1%nat demo_chunk 0; DecodeDone 1%nat 7%nat 5]) in
  isLiveActive s = true /\ liveSources s = {[7%nat]} /\
  liveOutputContext s = Some 2%nat /\ config s = Some demo_config /\
  List.filter is_release
    (snd (run s [CleanupSession false; SourceEnded (currentSessionId s) 7%nat]))
  = [OutputContextClose 2%nat; OnCallEnd demo_config].
Proof.
  intros s.
  assert (E : liveSources s = {[7%nat]}) by (vm_compute; reflexivity).
  split; [reflexivity |]. split; [exact E |].
  split; [reflexivity |]. split; [reflexivity |].
  apply (proj2 (nongraceful_teardown_still_ends_call s)); auto.
Defined.

(** Where the sources of a state come from. *)
Lemma step_sources s e :
  liveSources (fst (step s e))
  ⊆ liveSources s ∪ match e with
                    | DecodeDone _ src _ => {[src]}
                    | _ => ∅
                    end.
Proof.
  destruct e as [cfg i o | sid st p | | sid | sid | sid msg now
                | sid src dur | sid | sid src | sid now | sid | | g];
    simpl; try set_solver.
  - unfold startSession_catch.
    pose proof (cleanupSession_fields false s) as (I & _).
    destruct (cleanupSession false s). simpl in *. set_solver.
  - unfold onopen. destruct (config s), (liveInputContext s), (liveStream s);
      simpl; set_solver.
  - unfold onaudioprocess. destruct (liveInputContext s); simpl; set_solver.
  - unfold onmessage.
    set (r1 := match serverContent msg with
               | Some c => if interrupted c then on_interrupted now s else (s, [])
               | None => (s, [])
               end).
    assert (R : liveSources (fst r1) ⊆ liveSources s).
    { subst r1. destruct (serverContent msg) as [c |]; [| set_solver].
      destruct (interrupted c); simpl; set_solver. }
    destruct r1 as [s1 a1]. simpl in R.
    destruct (on_audio_fields sid msg now s1) as (A & _).
    destruct (on_audio sid msg now s1) as [s2 a3]. simpl in *. set_solver.
  - rewrite source_ended_sources. set_solver.
  - unfold onclose. destruct (isLiveActive s); [| set_solver].
    destruct (liveOutputContext s); [set_solver |].
    pose proof (cleanupSession_fields true s) as (I & _). set_solver.
  - unfold onerror.
    pose proof (cleanupSession_fields false s) as (I & _).
    destruct (cleanupSession false s). simpl in *. set_solver.
  - pose proof (cleanupSession_fields true s) as (I & _). set_solver.
  - pose proof (cleanupSession_fields g s) as (I & _). set_solver.
Qed.

(** A step stops only sources of [liveSources]. *)
Lemma step_stops s e a src :
  In a (snd (step s e)) -> stops src a = true -> src ∈ liveSources s.
Proof.
  destruct e as [cfg i o | sid st p | | sid | sid | sid msg now
                | sid src' dur | sid | sid src' | sid now | sid | | g];
    simpl; intros H S.
  - split_in; subst; discriminate.
  - split_in; subst; discriminate.
  - unfold startSession_catch, notify_unrecoverable in H.
    pose proof (cleanupSession_actions false s a) as A.
    destruct (cleanupSession false s) as [s' a2]. simpl in *.
    apply in_app_or in H as [H | H].
    + destruct (config s); split_in; subst; discriminate.
    + destruct (A H) as (N & _). destruct a; discriminate.
  - unfold onopen in H.
    destruct (config s), (liveInputContext s), (liveStream s);
      simpl in H; split_in; subst; discriminate.
  - unfold onaudioprocess in H.
    destruct (liveInputContext s); simpl in H; split_in; subst; discriminate.
  - apply onmessage_actions in H as (_ & _ & G). now apply G.
  - split_in; subst; discriminate.
  - destruct H.
  - destruct (source_ended_id sid src' s) as (_ & _ & _ & _ & Q).
    unfold source_ended in H. simpl in H.
    destruct (negb _); [destruct H |].
    destruct (negb _ && _); [| destruct H].
    destruct (liveOutputContext s); simpl in H; destruct (config s);
      simpl in H; split_in; subst; discriminate.
  - unfold onclose in H.
    destruct (isLiveActive s); [| destruct H].
    destruct (liveOutputContext s).
    + simpl in H. split_in; subst; discriminate.
    + destruct (cleanupSession_actions true s a H) as (N & _).
      destruct a; discriminate.
  - unfold onerror, notify_unrecoverable in H.
    pose proof (cleanupSession_actions false s a) as A.
    destruct (cleanupSession false s) as [s' a2]. simpl in *.
    apply in_app_or in H as [H | H].
    + destruct (A H) as (N & _). destruct a; discriminate.
    + destruct (config s'); split_in; subst; discriminate.
  - destruct (cleanupSession_actions true s a H) as (N & _).
    destruct a; discriminate.
  - destruct (cleanupSession_actions g s a H) as (N & _).
    destruct a; discriminate.
Qed.

Lemma untracked_source_never_stopped src evs : forall s,
  src ∉ liveSources s ->
  existsb (decodes src) evs = false ->
  List.filter (stops src) (snd (run s evs)) = [].
Proof.
  induction evs as [| e evs IH]; intros s Hs Hd; [reflexivity |].
  simpl in Hd. apply orb_false_iff in Hd as [He Hevs]. simpl.
  pose proof (step_sources s e) as Sub.
  pose proof (step_stops s e) as St.
  destruct (step s e) as [s1 a1]. simpl in Sub, St.
  assert (Hs1 : src ∉ liveSources s1).
  { intros Hin. apply Sub in Hin. destruct e; try set_solver.
    simpl in He. apply Nat.eqb_neq in He. set_solver. }
  specialize (IH s1 Hs1 Hevs).
  destruct (run s1 evs) as [s2 a2]. simpl in *.
  rewrite List.filter_app, IH, app_nil_r.
  apply filter_none. intros a Ha.
  destruct (stops src a) eqn:S; [| reflexivity].
  exfalso. apply Hs. eapply St; eauto.
Qed.

(** X5. [startSession] forgets the sources of the session before
    without stopping them, and nothing later makes up for it: whatever
    happens after a restart, a source that is not scheduled again is
    never stopped (an interruption of the new session does not reach
    it). *)
Theorem restart_orphans_scheduled_sources s cfg inCtx outCtx :
  liveSources (fst (startSession cfg inCtx outCtx s)) = ∅ /\
  (forall a, In a (snd (startSession cfg inCtx outCtx s)) ->
     is_stop a = false /\ is_release a = false) /\
  (forall src evs,
     existsb (decodes src) evs = false ->
     List.filter (stops src)
       (snd (run (fst (startSession cfg inCtx outCtx s)) evs)) = []).
Proof.
  split; [reflexivity |]. split.
  - intros a H. simpl in H. split_in; subst; split; reflexivity.
  - intros src evs H. apply untracked_source_never_stopped; [| exact H].
    simpl. set_solver.
Qed.

Lemma restart_orphans_scheduled_sources_witness :
  let evs := [MicrophoneGranted 2%nat 11%nat 21%nat;
              OnMessage 2%nat (mkMessage false (Some (mkContent None true false)) None) 3;
              CleanupSession true] in
  7%nat ∈ liveSources demo_playing /\
  existsb (decodes 7%nat) evs = false /\
  List.filter (stops 7%nat)
    (snd (run (fst (startSession demo_config2 3%nat 4%nat demo_playing)) evs)) = [].
Proof.
  intros evs. split; [vm_compute; reflexivity |]. split; [reflexivity |].
  apply (proj2 (proj2 (restart_orphans_scheduled_sources
                         demo_playing demo_config2 3%nat 4%nat))).
  reflexivity.
Defined.

End LiveCallMore.

(** ** The relay input source: frames, reconnection *)

Module RemoteSocketMore.
Import RemoteSocket RemoteSocketProofs.

Lemma run_app s evs1 evs2 :
  run s (evs1 ++ evs2)
  = (fst (run (fst (run s evs1)) evs2),
     snd (run s evs1) ++ snd (run (fst (run s evs1)) evs2)).
Proof.
  revert s. induction evs1 as [| e evs1 IH]; intros s; simpl.
  - now destruct (run s evs2).
  - destruct (step s e) as [s1 a1]. rewrite IH.
    destruct (run s1 evs1) as [s2 a2]. simpl.
    now rewrite app_assoc.
Qed.

(** Socket events leave the source as it is. *)
Lemma socket_events_keep_state evs : forall s,
  forallb socket_event evs = true -> fst (run s evs) = s.
Proof.
  induction evs as [| e evs IH]; intros s H; [reflexivity |].
  simpl in H. apply andb_true_iff in H as [He Hevs]. simpl.
  assert (E : fst (step s e) = s).
  { destruct e as [cb o k | | cb | k | k data | k]; try discriminate;
      try reflexivity.
    simpl. unfold ws_onmessage.
    destruct data as [bytes | [name | | |]]; try reflexivity.
    destruct (propagateAudio s); reflexivity. }
  destruct (step s e) as [s1 a1]. simpl in E. subst s1.
  specialize (IH s Hevs). destruct (run s evs) as [s2 a2]. exact IH.
Qed.

(** X6. Once [connect] was given a callback, a binary frame that a relay
    socket delivers, after any number of socket events, is handed to that
    callback, one character per byte; this holds whatever the source did
    before, and also for a [connect] that follows a [disconnect], which
    always opens a new socket. *)
Theorem connected_source_forwards_frames s cb is_open sock :
  (forall evs k bytes,
     forallb socket_event evs = true ->
     snd (run (fst (connect cb is_open sock s))
            (evs ++ [WsOnMessage k (Binary bytes)]))
     = snd (run (fst (connect cb is_open sock s)) evs)
       ++ [PropagateAudio cb (binary_string bytes)])
  /\
  (let s' := fst (disconnect s) in
   ws (fst (connect cb is_open sock s')) = Some sock /\
   In (NewWebSocket sock (relayUrl s)) (snd (connect cb is_open sock s'))).
Proof.
  split.
  - intros evs k bytes H. rewrite run_app. cbn [snd].
    rewrite (socket_events_keep_state evs _ H). f_equal.
    assert (P : propagateAudio (fst (connect cb is_open sock s)) = Some cb).
    { unfold connect. simpl. destruct (ws s); [destruct is_open |]; reflexivity. }
    simpl. unfold ws_onmessage. rewrite P. reflexivity.
  - cbv zeta. unfold disconnect, connect, initWebSocket.
    destruct (ws s) eqn:W; simpl; rewrite ?W; simpl; split; auto.
Qed.

Lemma connected_source_forwards_frames_witness :
  let s := new_source "8X2-A9D" "ws://localhost:8080" 0%nat in
  let evs := [WsOnOpen 1%nat; WsOnMessage 1%nat (Text (GUEST_CONNECTED "Matej"))] in
  forallb socket_event evs = true /\
  snd (run (fst (connect 5%nat false 1%nat s))
         (evs ++ [WsOnMessage 1%nat (Binary [Byte.x52; Byte.x49])]))
  = snd (run (fst (connect 5%nat false 1%nat s)) evs)
    ++ [PropagateAudio 5%nat (binary_string [Byte.x52; Byte.x49])].
Proof.
  intros s evs. split; [reflexivity |].
  now apply (proj1 (connected_source_forwards_frames s 5%nat false 1%nat)).
Defined.

(** X7. [arrayBufferToBase64] builds its binary string with one character
    per byte and loses nothing: the string is as long as the buffer, and
    two buffers with the same string are the same buffer. *)
Theorem binary_string_faithful bytes :
  String.length (binary_string bytes) = length bytes /\
  forall bytes', binary_string bytes = binary_string bytes' -> bytes = bytes'.
Proof.
  split.
  - induction bytes as [| b bytes IH]; simpl; congruence.
  - induction bytes as [| b bytes IH]; intros [| b' bytes'] H;
      simpl in H; try discriminate; [reflexivity |].
    injection H as Hb Hr. f_equal; [| now apply IH].
    rewrite <- (Ascii.byte_of_ascii_of_byte b),
            <- (Ascii.byte_of_ascii_of_byte b').
    now rewrite Hb.
Qed.

Lemma binary_string_faithful_witness :
  binary_string [Byte.x00; Byte.xff] = binary_string [Byte.x00; Byte.xff] /\
  [Byte.x00; Byte.xff] = [Byte.x00; Byte.xff].
Proof.
  split; [reflexivity |].
  now apply (proj2 (binary_string_faithful [Byte.x00; Byte.xff])).
Defined.

Lemma step_identity s e :
  hostId (fst (step s e)) = hostId s /\
  relayUrl (fst (step s e)) = relayUrl s /\
  forall a, In a (snd (step s e)) ->
    match a with
    | NewWebSocket _ url => url = relayUrl s
    | WsSendRegisterHost k h => h = hostId s /\ ws s = Some k
    | WsClose k => e = Disconnect /\ ws s = Some k
    | _ => True
    end.
Proof.
  destruct e as [cb o k | | cb | k | k data | k]; simpl.
  - unfold connect, initWebSocket. simpl.
    destruct (ws s); [destruct o |]; simpl; repeat split;
      intros a H; repeat destruct H as [H | H]; subst; try easy.
  - unfold disconnect. destruct (ws s) eqn:W; simpl; repeat split;
      intros a H; repeat destruct H as [H | H]; subst; try easy.
  - repeat split. intros a [].
  - unfold ws_onopen. destruct (ws s) eqn:W; simpl; repeat split;
      intros a H; repeat destruct H as [H | H]; subst; try easy.
  - unfold ws_onmessage. destruct data as [bytes | [name | | |]];
      [destruct (propagateAudio s) | | | |]; simpl; repeat split;
      intros a H; repeat destruct H as [H | H]; subst; try easy.
  - repeat split. intros a H. repeat destruct H as [H | H]; subst; easy.
Qed.

(** X8. Whatever happens to a source, it keeps the pairing code and the
    relay address it was constructed with: every socket it opens goes to
    that address, every [REGISTER_HOST] it sends carries that code, and
    it closes a socket only in [disconnect] (a [connect] that replaces a
    socket that is not open leaves the old one as it is). *)
Theorem source_keeps_its_identity s evs :
  hostId (fst (run s evs)) = hostId s /\
  relayUrl (fst (run s evs)) = relayUrl s /\
  forall a, In a (snd (run s evs)) ->
    match a with
    | NewWebSocket _ url => url = relayUrl s
    | WsSendRegisterHost _ h => h = hostId s
    | WsClose _ => In Disconnect evs
    | _ => True
    end.
Proof.
  revert s. induction evs as [| e evs IH]; intros s; simpl.
  - repeat split. intros a [].
  - destruct (step_identity s e) as (H1 & H2 & H3).
    destruct (step s e) as [s1 a1]. simpl in *.
    destruct (IH s1) as (I1 & I2 & I3).
    destruct (run s1 evs) as [s2 a2]. simpl in *.
    split; [congruence |]. split; [congruence |].
    intros a H. apply in_app_or in H as [H | H].
    + specialize (H3 a H). destruct a; tauto.
    + specialize (I3 a H). destruct a; try tauto; try congruence.
Qed.

Lemma source_keeps_its_identity_witness :
  let s := new_source "8X2-A9D" "ws://localhost:8080" 0%nat in
  let evs := [Connect 5%nat false 1%nat; WsOnOpen 1%nat; Disconnect] in
  snd (run s evs)
  = [StatusChange 0%nat "CONNECTING TO RELAY...";
     NewWebSocket 1%nat "ws://localhost:8080";
     WsSendRegisterHost 1%nat "8X2-A9D";
     StatusChange 0%nat "WAITING FOR CALL...";
     WsClose 1%nat] /\
  In Disconnect evs.
Proof.
  intros s evs. split; [reflexivity |].
  apply (proj2 (proj2 (source_keeps_its_identity s evs)) (WsClose 1%nat)).
  vm_compute. tauto.
Defined.

End RemoteSocketMore.

(** ** The transition scheduler: ticks, requests, invariants *)

Module SchedulerMore.
Import TransitionScheduler SchedulerExtra SchedulerProofs.

(** The tick of a playing video, written out. *)
Lemma mainLoop_live env v st :
  live_tick env v ->
  let sig := make_sig (title env) (artist env) in
  let timeLeft := duration v - currentTime v in
  let st0 := reset_logic sig (currentTime v) st in
  let ready_branch (st : State) (acts : list Action) :=
    if DJState_eqb (status st) READY && Qlt_bool timeLeft 12
    then (fst (playBufferedAudio (Some v) st),
          acts ++ snd (playBufferedAudio (Some v) st))
    else (st, acts) in
  mainLoop env st
  = if DJState_eqb (status st0) IDLE && Qlt_bool timeLeft 45
       && Qlt_bool 10 timeLeft
    then
      if negb (truthy_str (title env)) || negb (truthy_str (artist env))
      then (st0, [])
      else
        let st1 := set_generatedForSig (Some sig) (set_status GENERATING st0) in
        if negb (storage_available env) then (st1, [])
        else (st1, [if storage_throws env then ClearMainLoop
                    else StorageGet sig])
    else ready_branch st0 [].
Proof.
  intros (A & V & P & D). unfold mainLoop. rewrite A, V, P, D.
  cbn [negb orb]. cbv zeta.
  destruct (DJState_eqb _ IDLE && _ && _).
  - destruct (negb (truthy_str (title env)) || negb (truthy_str (artist env)));
      [reflexivity |].
    destruct (negb (storage_available env)); [reflexivity |].
    destruct (storage_throws env); reflexivity.
  - destruct (DJState_eqb _ READY && _); [| reflexivity].
    now destruct (playBufferedAudio _ _).
Qed.

(** A tick that does not find a playing video. *)
Lemma mainLoop_dead env st :
  (forall v, ~ live_tick env v) ->
  fst (mainLoop env st) = st /\
  forall a, In a (snd (mainLoop env st)) -> a = ClearMainLoop.
Proof.
  intros N. unfold mainLoop.
  destruct (runtime_alive env) eqn:A; simpl;
    [| split; [reflexivity | now intros a [<- | []]]].
  destruct (video env) as [v |] eqn:V; [| split; [reflexivity | intros a []]].
  destruct (paused v) eqn:P; simpl; [split; [reflexivity | intros a []] |].
  destruct (truthy_num (duration v)) eqn:D; simpl;
    [| split; [reflexivity | intros a []]].
  exfalso. apply (N v). repeat split; assumption.
Qed.

Lemma live_or_dead env : (exists v, live_tick env v) \/ forall v, ~ live_tick env v.
Proof.
  unfold live_tick.
  destruct (runtime_alive env); [| right; intros v (H & _); discriminate].
  destruct (video env) as [v |]; [| right; intros v (_ & H & _); discriminate].
  destruct (paused v) eqn:P;
    [right; intros v' (_ & [= <-] & H & _); congruence |].
  destruct (truthy_num (duration v)) eqn:D;
    [| right; intros v' (_ & [= <-] & _ & H); congruence].
  left. exists v. auto.
Qed.

(** X9. A tick sends a generation request only for a playing video whose
    time left is strictly between 10 and 45 seconds and whose title and
    artist are both non-empty; the request carries the signature of that
    track, the scheduler is then GENERATING with that signature as tag,
    and before the tick it was IDLE, on another track, or more than five
    seconds further into the track. *)
Theorem request_only_in_window env st sig :
  In (StorageGet sig) (snd (step st (Tick env))) ->
  exists v,
    live_tick env v /\
    sig = make_sig (title env) (artist env) /\
    truthy_str (title env) = true /\ truthy_str (artist env) = true /\
    10 < duration v - currentTime v /\ duration v - currentTime v < 45 /\
    status (fst (step st (Tick env))) = GENERATING /\
    generatedForSig (fst (step st (Tick env))) = Some sig /\
    currentSongSig (fst (step st (Tick env))) = sig /\
    (status st = IDLE \/ currentSongSig st <> sig \/ seeks_back v st = true).
Proof.
  simpl. intros H.
  destruct (live_or_dead env) as [[v L] | N].
  2:{ apply (mainLoop_dead env st N) in H. discriminate. }
  exists v. split; [exact L |].
  rewrite (mainLoop_live env v st L) in *. cbv zeta in *.
  set (sg := make_sig (title env) (artist env)) in *.
  set (st0 := reset_logic sg (currentTime v) st) in *.
  destruct (DJState_eqb (status st0) IDLE
            && Qlt_bool (duration v - currentTime v) 45
            && Qlt_bool 10 (duration v - currentTime v)) eqn:W.
  - apply andb_true_iff in W as [W W3]. apply andb_true_iff in W as [W1 W2].
    apply DJState_eqb_eq in W1. apply Qlt_bool_iff in W2, W3.
    destruct (negb (truthy_str (title env)) || negb (truthy_str (artist env)))
      eqn:M; [destruct H |].
    apply orb_false_iff in M as [M1 M2]. apply negb_false_iff in M1, M2.
    destruct (negb (storage_available env)); [destruct H |].
    destruct (storage_throws env); simpl in H; destruct H as [H | []];
      [discriminate |].
    injection H as <-. simpl.
    repeat split; try assumption; try reflexivity.
    + apply reset_logic_sig.
    + subst st0. unfold reset_logic, seeks_back in *.
      destruct (String.eqb sg (currentSongSig st)) eqn:E; simpl in *.
      * apply String.eqb_eq in E.
        destruct (Qlt_bool (currentTime v + 5) (lastTime st)) eqn:Sk;
          [now right; right | now left].
      * apply String.eqb_neq in E. right. left. congruence.
  - destruct (DJState_eqb (status st0) READY && _); simpl in H; [| destruct H].
    unfold playBufferedAudio in H.
    destruct (bufferedAudio st0); [| destruct H].
    destruct (negb _); [destruct H |].
    destruct (negb _); [destruct H |].
    simpl in H. destruct H as [H | [H | []]]; discriminate.
Qed.

Lemma request_only_in_window_witness :
  In (StorageGet "Song A|Artist A")
     (snd (step initial (playing_tick "Song A" "Artist A" 200 160))) /\
  exists v,
    live_tick (mkTickEnv true (Some (mkVideo false 200 160 1))
                 "Song A" "Artist A" true false) v /\
    10 < duration v - currentTime v /\ duration v - currentTime v < 45.
Proof.
  assert (H : In (StorageGet "Song A|Artist A")
                (snd (step initial (playing_tick "Song A" "Artist A" 200 160))))
    by (vm_compute; left; reflexivity).
  split; [exact H |].
  destruct (request_only_in_window _ _ _ H) as (v & L & _ & _ & _ & W1 & W2 & _).
  exists v. auto.
Defined.

Lemma coherent_reset st : coherent (reset st).
Proof. split; [now left | intros [H | H]; discriminate]. Qed.

Lemma coherent_reset_logic sig now st :
  coherent st -> coherent (reset_logic sig now st).
Proof.
  intros (G & B). unfold reset_logic.
  destruct (negb (String.eqb sig (currentSongSig st))) eqn:E; simpl.
  - destruct (Qlt_bool _ _); split; simpl; auto;
      intros [H | H]; discriminate.
  - destruct (Qlt_bool _ _); [apply (coherent_reset (set_lastTime now st)) |].
    split; assumption.
Qed.

Lemma coherent_playBufferedAudio v st :
  coherent st -> coherent (fst (playBufferedAudio v st)).
Proof.
  intros C. pose proof C as (G & B). unfold playBufferedAudio.
  destruct (bufferedAudio st) as [a |] eqn:Ba; [| exact C].
  destruct (truthy_str a) eqn:T; simpl; [| exact C].
  destruct (sig_matches _ _); simpl; [| apply coherent_reset].
  split; simpl; [exact G |]. intros _. now rewrite Ba.
Qed.

Lemma coherent_step st e : coherent st -> coherent (fst (step st e)).
Proof.
  intros C. destruct e as [env | sig le en | sig le r | | ov | ov |]; simpl.
  - destruct (live_or_dead env) as [[v L] | N];
      [| now rewrite (proj1 (mainLoop_dead env st N))].
    rewrite (mainLoop_live env v st L). cbv zeta.
    pose proof (coherent_reset_logic (make_sig (title env) (artist env))
                  (currentTime v) st C) as C0.
    set (st0 := reset_logic _ _ st) in *.
    destruct (DJState_eqb (status st0) IDLE && _ && _).
    + destruct (negb (truthy_str (title env)) || _); [exact C0 |].
      assert (C1 : coherent (set_generatedForSig
                               (Some (make_sig (title env) (artist env)))
                               (set_status GENERATING st0))).
      { split; simpl.
        - right. f_equal. symmetry. apply reset_logic_sig.
        - intros [H | H]; discriminate. }
      destruct (negb (storage_available env)); exact C1.
    + destruct (DJState_eqb (status st0) READY && _); [| exact C0].
      now apply coherent_playBufferedAudio.
  - unfold storage_callback. destruct le; [exact C |].
    destruct en; simpl; [exact C |].
    destruct C as (G & B). split; simpl; [exact G |].
    intros [H | H]; discriminate.
  - unfold generate_callback. destruct le; [exact C |].
    destruct (negb (String.eqb (currentSongSig st) sig)); [exact C |].
    destruct C as (G & B). unfold response_audio.
    destruct r as [[a |] |]; try (destruct (truthy_str a) eqn:T);
      split; simpl; auto; intros [H | H]; discriminate.
  - exact C.
  - destruct C as (G & B). split; simpl; [exact G |].
    intros [H | H]; discriminate.
  - destruct C as (G & B). split; simpl; [exact G |].
    intros [H | H]; discriminate.
  - unfold cooldown_timeout. simpl.
    destruct (DJState_eqb (status st) COOLDOWN) eqn:E; [| exact C].
    destruct C as (G & B). split; simpl; [exact G |].
    intros [H | H]; discriminate.
Qed.

(** X10. In every run of the scheduler from its initial state, the tag
    [generatedForSig] is either null or the signature of the current
    track, never that of another track, and a scheduler that is READY or
    PLAYING holds a non-empty buffer.  So the validation of
    [playBufferedAudio] fails only on a tag that a seek or a track change
    cleared. *)
Theorem reachable_states_are_coherent evs :
  coherent (fst (run initial evs)) /\
  (forall v,
     truthy_ostr (bufferedAudio (fst (run initial evs))) = true ->
     ~ In (AudioPlay
             (data_url (default "" (bufferedAudio (fst (run initial evs))))))
          (snd (playBufferedAudio v (fst (run initial evs)))) ->
     generatedForSig (fst (run initial evs)) = None).
Proof.
  assert (G : forall evs st, coherent st -> coherent (fst (run st evs))).
  { clear. induction evs as [| e evs IH]; intros st C; [exact C |].
    simpl. pose proof (coherent_step st e C) as C1.
    destruct (step st e) as [st1 a1]. simpl in C1.
    specialize (IH st1 C1). now destruct (run st1 evs). }
  assert (C : coherent (fst (run initial evs))).
  { apply G. split; [now left | intros [H | H]; discriminate]. }
  split; [exact C |].
  intros v T N. destruct C as ([Gn | Gs] & _); [exact Gn |].
  exfalso. apply N. unfold playBufferedAudio.
  destruct (bufferedAudio (fst (run initial evs))) as [a |]; [| discriminate].
  simpl in T. rewrite T, Gs. simpl. rewrite String.eqb_refl. simpl. auto.
Qed.

Lemma reachable_states_are_coherent_witness :
  let evs := [playing_tick "Song A" "Artist A" 200 160;
              playing_tick "Song A" "Artist A" 200 10;
              GenerateResponse "Song A|Artist A" false (Some (Some "UklGRg"))] in
  let st := fst (run initial evs) in
  let v := Some (mkVideo false 200 189 1) in
  bufferedAudio st = Some "UklGRg"%string /\
  snd (playBufferedAudio v st) = [] /\
  generatedForSig st = None.
Proof.
  intros evs st v. split; [reflexivity |]. split; [reflexivity |].
  apply (proj2 (reachable_states_are_coherent evs) v); [reflexivity |].
  intros [].
Defined.

(** X11. A READY scheduler whose tag is the current track plays when the
    track nears its end: on a tick of the same track, without a seek,
    with less than 12 seconds left, it starts the ducking, plays the
    buffer as a data URL and is PLAYING. *)
Theorem ready_buffer_plays_near_end env v st audio :
  live_tick env v ->
  status st = READY ->
  bufferedAudio st = Some audio -> truthy_str audio = true ->
  currentSongSig st = make_sig (title env) (artist env) ->
  generatedForSig st = Some (currentSongSig st) ->
  seeks_back v st = false ->
  duration v - currentTime v < 12 ->
  step st (Tick env)
  = (set_status PLAYING (set_lastTime (currentTime v) st),
     [StartActiveDucking (volume v); AudioPlay (data_url audio)]).
Proof.
  intros L S B T C G K W. simpl.
  rewrite (mainLoop_live env v st L). cbv zeta.
  assert (R : reset_logic (make_sig (title env) (artist env)) (currentTime v) st
              = set_lastTime (currentTime v) st).
  { unfold reset_logic, seeks_back in *.
    rewrite <- C, String.eqb_refl. simpl. now rewrite K. }
  rewrite R. simpl. rewrite S. simpl.
  apply Qlt_bool_iff in W. rewrite W.
  unfold playBufferedAudio. simpl. rewrite B, T, G. simpl.
  rewrite String.eqb_refl. reflexivity.
Qed.

Lemma ready_buffer_plays_near_end_witness :
  let env := mkTickEnv true (Some (mkVideo false 200 190 (1 # 2)))
               "Song A" "Artist A" true false in
  let st := mkState READY "Song A|Artist A" (Some "UklGRg")
              (Some "Song A|Artist A") 189 in
  step st (Tick env)
  = (set_status PLAYING (set_lastTime 190 st),
     [StartActiveDucking (1 # 2); AudioPlay (data_url "UklGRg")]).
Proof.
  intros env st.
  apply (ready_buffer_plays_near_end env (mkVideo false 200 190 (1 # 2)) st "UklGRg");
    try reflexivity.
  repeat split.
Defined.

Lemma reset_logic_new_track sig now st :
  currentSongSig st <> sig ->
  reset_logic sig now st = set_lastTime now (reset (set_currentSongSig sig st)).
Proof.
  intros N. unfold reset_logic.
  destruct (String.eqb sig (currentSongSig st)) eqn:E.
  - apply String.eqb_eq in E. congruence.
  - simpl. now destruct (Qlt_bool _ _).
Qed.

(** X12. A tick that finds another track than the current one never
    plays: whatever the scheduler held, the buffer is dropped, the new
    signature and the position are recorded, and the scheduler is IDLE
    with no tag, or GENERATING for the new track. *)
Theorem track_change_drops_buffer env v st :
  live_tick env v ->
  currentSongSig st <> make_sig (title env) (artist env) ->
  let r := step st (Tick env) in
  bufferedAudio (fst r) = None /\
  currentSongSig (fst r) = make_sig (title env) (artist env) /\
  lastTime (fst r) = currentTime v /\
  List.filter is_play (snd r) = [] /\
  (status (fst r) = IDLE /\ generatedForSig (fst r) = None \/
   status (fst r) = GENERATING /\
   generatedForSig (fst r) = Some (make_sig (title env) (artist env))).
Proof.
  intros L N r. subst r. simpl.
  rewrite (mainLoop_live env v st L). cbv zeta.
  rewrite (reset_logic_new_track _ _ _ N). simpl.
  destruct (Qlt_bool (duration v - currentTime v) 45
            && Qlt_bool 10 (duration v - currentTime v)); simpl.
  - destruct (negb (truthy_str (title env)) || negb (truthy_str (artist env)));
      simpl; [repeat split; auto |].
    destruct (negb (storage_available env)); simpl; [repeat split; auto |].
    destruct (storage_throws env); simpl; repeat split; auto.
  - repeat split; auto.
Qed.

Lemma track_change_drops_buffer_witness :
  let env := mkTickEnv true (Some (mkVideo false 180 2 1))
               "Song B" "Artist B" true false in
  let st := mkState READY "Song A|Artist A" (Some "UklGRg")
              (Some "Song A|Artist A") 199 in
  live_tick env (mkVideo false 180 2 1) /\
  currentSongSig st <> make_sig (title env) (artist env) /\
  bufferedAudio (fst (step st (Tick env))) = None /\
  List.filter is_play (snd (step st (Tick env))) = [].
Proof.
  intros env st.
  assert (L : live_tick env (mkVideo false 180 2 1)) by (repeat split).
  assert (N : currentSongSig st <> make_sig (title env) (artist env))
    by discriminate.
  destruct (track_change_drops_buffer env _ st L N) as (B & _ & _ & P & _).
  auto.
Defined.

(** X13. While the scheduler is GENERATING, PLAYING or in COOLDOWN, a
    tick of the same track without a seek only records the position: no
    second request, no playback, the buffer and the tag untouched.  A
    tick that finds no playing video (none, paused, no duration) does not
    even record the position, so a pause is never taken for a seek. *)
Theorem busy_tick_only_records_position env st :
  (forall v,
     live_tick env v ->
     status st = GENERATING \/ status st = PLAYING \/ status st = COOLDOWN ->
     currentSongSig st = make_sig (title env) (artist env) ->
     seeks_back v st = false ->
     step st (Tick env) = (set_lastTime (currentTime v) st, []))
  /\
  (runtime_alive env = true ->
   (forall v, ~ live_tick env v) ->
   step st (Tick env) = (st, [])).
Proof.
  split.
  - intros v L S C K. simpl. rewrite (mainLoop_live env v st L). cbv zeta.
    assert (R : reset_logic (make_sig (title env) (artist env)) (currentTime v) st
                = set_lastTime (currentTime v) st).
    { unfold reset_logic, seeks_back in *.
      rewrite <- C, String.eqb_refl. simpl. now rewrite K. }
    rewrite R. simpl. destruct S as [S | [S | S]]; rewrite S; reflexivity.
  - intros A N. simpl. unfold mainLoop. rewrite A. simpl.
    destruct (video env) as [v |] eqn:V; [| reflexivity].
    destruct (paused v) eqn:P; [reflexivity |].
    destruct (truthy_num (duration v)) eqn:D; [| reflexivity].
    exfalso. apply (N v). repeat split; assumption.
Qed.

Lemma busy_tick_only_records_position_witness :
  let env := mkTickEnv true (Some (mkVideo false 200 170 1))
               "Song A" "Artist A" true false in
  let st := mkState GENERATING "Song A|Artist A" None
              (Some "Song A|Artist A") 169 in
  step st (Tick env) = (set_lastTime 170 st, []).
Proof.
  intros env st.
  apply (proj1 (busy_tick_only_records_position env st) (mkVideo false 200 170 1));
    try reflexivity; [repeat split | now left].
Defined.

End SchedulerMore.

(** ** The volume control: clamping, fades, ducking *)

Module DuckingProofs.
Import Ducking.

Lemma Math_min_l a b : Math_min a b <= a.
Proof.
  unfold Math_min. destruct (Qle_bool a b) eqn:E; [lra |].
  destruct (Qlt_le_dec b a) as [H | H]; [lra |].
  apply Qle_bool_iff in H. congruence.
Qed.

Lemma Math_min_r a b : Math_min a b <= b.
Proof.
  unfold Math_min. destruct (Qle_bool a b) eqn:E; [| lra].
  now apply Qle_bool_iff.
Qed.

Lemma Math_min_cases a b :
  (a <= b /\ Math_min a b = a) \/ (b < a /\ Math_min a b = b).
Proof.
  unfold Math_min. destruct (Qle_bool a b) eqn:E.
  - left. split; [now apply Qle_bool_iff | reflexivity].
  - right. split; [| reflexivity].
    destruct (Qlt_le_dec b a) as [H | H]; [exact H |].
    apply Qle_bool_iff in H. congruence.
Qed.

Lemma Math_max_cases a b :
  (a <= b /\ Math_max a b = b) \/ (b < a /\ Math_max a b = a).
Proof.
  unfold Math_max. destruct (Qle_bool a b) eqn:E.
  - left. split; [now apply Qle_bool_iff | reflexivity].
  - right. split; [| reflexivity].
    destruct (Qlt_le_dec b a) as [H | H]; [exact H |].
    apply Qle_bool_iff in H. congruence.
Qed.

(** [clamp] by cases. *)
Lemma clamp_cases v lo hi :
  lo <= hi ->
  (v <= lo /\ clamp v lo hi == lo) \/
  (lo <= v <= hi /\ clamp v lo hi == v) \/
  (hi <= v /\ clamp v lo hi == hi).
Proof.
  intros H. unfold clamp.
  destruct (Math_max_cases v lo) as [[H1 E1] | [H1 E1]]; rewrite E1.
  - left. split; [exact H1 |].
    destruct (Math_min_cases lo hi) as [[_ E2] | [H2 E2]]; rewrite E2; lra.
  - destruct (Math_min_cases v hi) as [[H2 E2] | [H2 E2]]; rewrite E2.
    + right. left. split; [lra | reflexivity].
    + right. right. split; [lra | reflexivity].
Qed.

Lemma clamp_range v lo hi : lo <= hi -> lo <= clamp v lo hi <= hi.
Proof.
  intros H.
  destruct (clamp_cases v lo hi H) as [[? E] | [[? E] | [? E]]]; lra.
Qed.

(** X14. For bounds in order, [clamp] answers within the bounds, gives
    back a value that is already within them, and is monotone; with the
    bounds out of order it answers the upper one. *)
Theorem clamp_within_bounds v lo hi :
  (lo <= hi ->
   lo <= clamp v lo hi <= hi /\
   (lo <= v <= hi -> clamp v lo hi == v) /\
   (forall w, v <= w -> clamp v lo hi <= clamp w lo hi))
  /\
  (hi < lo -> clamp v lo hi = hi).
Proof.
  split.
  - intros H. split; [| split].
    + now apply clamp_range.
    + intros R. destruct (clamp_cases v lo hi H) as [[? E] | [[? E] | [? E]]];
        lra.
    + intros w L.
      destruct (clamp_cases v lo hi H) as [[? E] | [[? E] | [? E]]];
        destruct (clamp_cases w lo hi H) as [[? F] | [[? F] | [? F]]]; lra.
  - intros H. unfold clamp.
    pose proof (Math_max_r v lo).
    destruct (Math_min_cases (Math_max v lo) hi) as [[L _] | [_ E]];
      [lra | exact E].
Qed.

Lemma clamp_within_bounds_witness :
  0 <= 1 /\ 0 <= clamp (3 # 2) 0 1 <= 1 /\ 2 < 5 /\ clamp 3 5 2 = 2.
Proof.
  split; [lra |].
  split; [apply (proj1 (clamp_within_bounds (3 # 2) 0 1)); lra |].
  split; [lra |].
  apply (proj2 (clamp_within_bounds 3 5 2)). lra.
Defined.














Lemma released_step c e :
  released c -> is_start e = false -> released (step c e).
Proof.
  intros Rel S. pose proof Rel as (L & I & F).
  destruct e as [o h now | r h now | now h | | h | v]; try discriminate;
    simpl.
  - unfold stopActiveDucking, fadeVolume. rewrite L. simpl.
    destruct h; simpl; repeat split; auto.
  - unfold fade_tick. destruct (fadeInterval c) as [f |] eqn:Ff;
      [| exact Rel].
    destruct (fade_done f (now - startTime f)); simpl.
    + rewrite F. simpl. repeat split; auto.
    + unfold released. simpl. rewrite Ff. auto.
  - unfold on_volumechange. rewrite L. exact Rel.
  - unfold enforcer_tick. rewrite I. exact Rel.
  - exact Rel.
Qed.

(** X17. [stopActiveDucking], with a video, always lets go: the listener
    and the failsafe interval are gone and the fade back up replaces a
    fade down still in progress, whose enforcer is then never attached.
    Until the next [startActiveDucking], whatever ticks and volume
    changes follow, nothing enforces a volume: a volume the user sets
    stays as set through [volumechange] events and failsafe ticks. *)
Theorem stop_ducking_releases_volume c restoreTo now evs :
  forallb (fun e => negb (is_start e)) evs = true ->
  let c' := run (stopActiveDucking restoreTo true now c) evs in
  released c' /\
  forall v h,
    video_volume (run c' [SetVolume v; VolumeChange; EnforcerTick h]) = v.
Proof.
  intros H c'.
  assert (R0 : released (stopActiveDucking restoreTo true now c)).
  { unfold stopActiveDucking, fadeVolume. simpl.
    destruct (duckingListener c) eqn:Dl; simpl; repeat split.
    simpl. exact Dl. }
  assert (R : released c').
  { subst c'. revert R0 H.
    generalize (stopActiveDucking restoreTo true now c).
    induction evs as [| e evs IH]; intros c0 R0 H; [exact R0 |].
    simpl in H. apply andb_true_iff in H as [He Hevs].
    apply negb_true_iff in He. simpl.
    apply IH; [now apply released_step | exact Hevs]. }
  split; [exact R |].
  intros v h. destruct R as (L & I & _). simpl.
  unfold on_volumechange, enforcer_tick. simpl. rewrite L. simpl.
  now rewrite I.
Qed.

Lemma stop_ducking_releases_volume_witness :
  let c := startActiveDucking 1 true 0 (mkControl 1 None None None) in
  let evs := [FadeTick 3500 true; SetVolume (1 # 2); VolumeChange;
              FadeTick 6100 true; EnforcerTick true] in
  forallb (fun e => negb (is_start e)) evs = true /\
  released (run (stopActiveDucking 1 true 2000 c) evs).
Proof.
  intros c evs. split; [reflexivity |].
  now apply (stop_ducking_releases_volume c 1 2000 evs).
Defined.

End DuckingProofs.

(** ** Scraping the page *)

Module SongInfoProofs.
Import SongInfo.

(** The item [find_current] answers is selected, and no later one is. *)
Lemma find_current_some items : forall i acc c,
  find_current i items acc = Some c ->
  (acc = Some c /\ Forall (fun item => selected item = false) items) \/
  (exists item,
     (i <= c)%nat /\ items !! (c - i)%nat = Some item /\
     selected item = true /\
     forall j item', (c - i < j)%nat -> items !! j = Some item' ->
                     selected item' = false).
Proof.
  induction items as [| it items IH]; intros i acc c H; simpl in H.
  - left. split; [exact H | constructor].
  - destruct (IH _ _ _ H) as [[Ha Hf] | (item & Hi & Hl & Hs & Hn)].
    + destruct (selected it) eqn:S.
      * right. injection Ha as <-. exists it.
        rewrite Nat.sub_diag. repeat split; auto.
        intros j item' Hj Hl. destruct j as [| j]; [lia |].
        simpl in Hl. apply (proj1 (Forall_lookup _ _) Hf j item' Hl).
      * left. split; [exact Ha |]. now constructor.
    + right. exists item. split; [lia |].
      replace (c - i)%nat with (S (c - S i)) by lia.
      repeat split; auto.
      intros j item' Hj Hl'. destruct j as [| j]; [lia |].
      simpl in Hl'. apply (Hn j item'); [lia | exact Hl'].
Qed.

Lemma find_current_none items : forall i,
  find_current i items None = None <->
  Forall (fun item => selected item = false) items.
Proof.
  assert (G : forall items i c, find_current i items (Some c) <> None).
  { clear. induction items as [| it items IH]; intros i c; simpl;
      [discriminate |]. destruct (selected it); apply IH. }
  induction items as [| it items IH]; intros i; simpl.
  - split; [constructor | reflexivity].
  - destruct (selected it) eqn:S.
    + split; [intros H; now apply G in H |].
      intros H. inversion H; subst. congruence.
    + rewrite IH. split; [now constructor | intros H; now inversion H].
Qed.

Lemma scrape_lookup items c : forall n i,
  (i + n <= length items)%nat ->
  length (scrape items c i n) = n /\
  forall k, (k < n)%nat ->
    exists item, items !! (i + k)%nat = Some item /\
                 scrape items c i n !! k = Some (context_line (i + k) c item).
Proof.
  induction n as [| n IH]; intros i H; simpl.
  - split; [reflexivity | intros k Hk; lia].
  - destruct (lookup_lt_is_Some_2 items i) as [item Hi]; [lia |].
    rewrite Hi. destruct (IH (S i)) as (L & K); [lia |].
    split; [simpl; now rewrite L |].
    intros [| k] Hk.
    + exists item. now rewrite Nat.add_0_r.
    + destruct (K k) as (item' & Hl & Hs); [lia |].
      exists item'. replace (i + S k)%nat with (S i + k)%nat by lia. auto.
Qed.

(** X18. With a player bar and a selected queue item, the context that
    [getSongInfo] scrapes is a window around the current item, which is
    the last selected one: from five items before it (or the head of the
    queue) to four after it (or the end of the queue), at most ten lines
    in queue order, each labelled by its distance to the current item. *)
Theorem context_is_a_window_around_current page bar c :
  playerBar page = Some bar ->
  find_current 0 (queueItems page) None = Some c ->
  let items := queueItems page in
  let context := playlistContext (getSongInfo page) in
  (exists item,
     items !! c = Some item /\ selected item = true /\
     context !! Nat.min c 5 = Some (context_line c c item)) /\
  (forall j item, (c < j)%nat -> items !! j = Some item ->
                  selected item = false) /\
  length context = (Nat.min (length items) (c + 5) - (c - 5))%nat /\
  (length context <= 10)%nat /\
  (forall k line,
     context !! k = Some line ->
     exists item,
       items !! (c - 5 + k)%nat = Some item /\
       line = context_line (c - 5 + k) c item /\
       (c - 5 + k <= c + 4)%nat).
Proof.
  intros B F items context. subst items.
  set (items := queueItems page) in *.
  destruct (find_current_some _ _ _ _ F) as [[H _] | (item & _ & Hl & Hs & Hn)];
    [discriminate |].
  rewrite Nat.sub_0_r in Hl.
  assert (Hc : (c < length items)%nat) by (eapply lookup_lt_Some; eauto).
  assert (E : context
              = scrape items c (c - 5)
                  (Nat.min (length items) (c + 5) - (c - 5))).
  { subst context items. unfold getSongInfo. rewrite B. cbv zeta.
    now rewrite F. }
  destruct (scrape_lookup items c
              (Nat.min (length items) (c + 5) - (c - 5)) (c - 5))
    as (L & K); [lia |].
  rewrite E. split; [| split; [| split; [| split]]].
  - exists item. split; [exact Hl |]. split; [exact Hs |].
    destruct (K (Nat.min c 5)) as (item' & Hl' & Hs'); [lia |].
    replace (c - 5 + Nat.min c 5)%nat with c in * by lia.
    rewrite Hl in Hl'. injection Hl' as <-. exact Hs'.
  - intros j item' Hj Hl'. apply (Hn j item'); [lia | exact Hl'].
  - exact L.
  - rewrite L. lia.
  - intros k line Hk.
    assert (Hlt : (k < Nat.min (length items) (c + 5) - (c - 5))%nat).
    { rewrite <- L. eapply lookup_lt_Some; eauto. }
    destruct (K k Hlt) as (item' & Hl' & Hs').
    exists item'. split; [exact Hl' |]. split; [congruence | lia].
Qed.

Lemma context_is_a_window_around_current_witness :
  let page := demo_page 12 7 in
  playerBar page = Some (mkBar (Some "Song A") (Some "Artist A • Album A • 2020")) /\
  find_current 0 (queueItems page) None = Some 7%nat /\
  length (playlistContext (getSongInfo page)) = 10%nat /\
  playlistContext (getSongInfo page) !! 5%nat
  = Some "[NOW PLAYING]: Song 7 by Band"%string.
Proof.
  intros page.
  assert (B : playerBar page
              = Some (mkBar (Some "Song A") (Some "Artist A • Album A • 2020")))
    by reflexivity.
  assert (F : find_current 0 (queueItems page) None = Some 7%nat)
    by reflexivity.
  destruct (context_is_a_window_around_current page _ 7%nat B F)
    as (_ & _ & L & _ & _).
  split; [exact B |]. split; [exact F |]. split; [exact L | reflexivity].
Defined.

(** X19. Without a player bar [getSongInfo] answers empty strings and no
    context, whatever the queue holds; with a bar but no selected item it
    has no context and no next song; otherwise the next song is the item
    right after the current one, and empty at the end of the queue. *)
Theorem next_song_follows_current page :
  (playerBar page = None ->
   getSongInfo page = mkInfo (mkCurrent "" "" "") ("", "") [])
  /\
  (Forall (fun item => selected item = false) (queueItems page) ->
   playlistContext (getSongInfo page) = [] /\
   next (getSongInfo page) = (""%string, ""%string))
  /\
  (forall bar c,
     playerBar page = Some bar ->
     find_current 0 (queueItems page) None = Some c ->
     next (getSongInfo page)
     = match queueItems page !! S c with
       | Some item => (text_or (song_title item) "", text_or (byline item) "")
       | None => (""%string, ""%string)
       end /\
     ((length (queueItems page) <= S c)%nat ->
      next (getSongInfo page) = (""%string, ""%string))).
Proof.
  split; [| split].
  - intros B. unfold getSongInfo. now rewrite B.
  - intros H. apply (find_current_none _ 0%nat) in H.
    unfold getSongInfo. destruct (playerBar page); [| now split].
    cbv zeta. rewrite H. now split.
  - intros bar c B F.
    assert (E : next (getSongInfo page)
                = match queueItems page !! S c with
                  | Some item =>
                    (text_or (song_title item) "", text_or (byline item) "")
                  | None => (""%string, ""%string)
                  end).
    { unfold getSongInfo. rewrite B. cbv zeta. now rewrite F. }
    split; [exact E |].
    intros L. rewrite E. now rewrite (lookup_ge_None_2 _ _ L).
Qed.

Lemma next_song_follows_current_witness :
  let page := demo_page 8 7 in
  find_current 0 (queueItems page) None = Some 7%nat /\
  (length (queueItems page) <= 8)%nat /\
  next (getSongInfo page) = (""%string, ""%string).
Proof.
  intros page.
  assert (F : find_current 0 (queueItems page) None = Some 7%nat)
    by reflexivity.
  assert (L : (length (queueItems page) <= 8)%nat) by (vm_compute; lia).
  split; [exact F |]. split; [exact L |].
  refine (proj2 (proj2 (proj2 (next_song_follows_current page))
                   _ 7%nat eq_refl F) L).
Defined.

(** X20. The request for an intro names the current song as scraped and
    always names a next song ("Next Track" by "Unknown" when the queue
    gives none), but it never carries the scraped context: the request
    reads [playlistContext] from [current], which has no such property,
    while the object that [getSongInfo] returns holds the context beside
    [current].  So the [playlistContext] of the request is the empty
    array even when a window of the queue was scraped. *)
Theorem intro_request_drops_context page settings :
  let info := getSongInfo page in
  let request := intro_request page settings in
  request_context request = Lines [] /\
  get (song_info_object info) "playlistContext"
  = Lines (playlistContext info) /\
  get (get (song_info_object info) "current") "playlistContext" = Undefined /\
  song_name (currentSong request) = Str (title (current info)) /\
  song_artist (currentSong request) = Str (artist (current info)) /\
  (song_name (nextSong request)
   = if truthy_str (fst (next info)) then Str (fst (next info))
     else Str "Next Track") /\
  (song_artist (nextSong request)
   = if truthy_str (snd (next info)) then Str (snd (next info))
     else Str "Unknown") /\
  (forall bar c,
     playerBar page = Some bar ->
     find_current 0 (queueItems page) None = Some c ->
     playlistContext info <> []).
Proof.
  intros info request.
  split; [reflexivity |]. split; [reflexivity |]. split; [reflexivity |].
  split; [reflexivity |]. split; [reflexivity |].
  split; [| split].
  - subst request. unfold intro_request, generate_intro_data. cbn.
    fold info. unfold or_else. cbn. now destruct (truthy_str (fst (next info))).
  - subst request. unfold intro_request, generate_intro_data. cbn.
    fold info. unfold or_else. cbn. now destruct (truthy_str (snd (next info))).
  - intros bar c B F E.
    destruct (find_current_some _ _ _ _ F) as [[H _] | (item & _ & Hl & _)];
      [discriminate |].
    assert (Hc : (c < length (queueItems page))%nat)
      by (rewrite Nat.sub_0_r in Hl; eapply lookup_lt_Some; eauto).
    assert (L : length (playlistContext info)
                = (Nat.min (length (queueItems page)) (c + 5) - (c - 5))%nat).
    { subst info. unfold getSongInfo. rewrite B. cbv zeta. rewrite F.
      apply scrape_lookup. lia. }
    rewrite E in L. simpl in L. lia.
Qed.

Lemma intro_request_drops_context_witness :
  let page := demo_page 12 7 in
  find_current 0 (queueItems page) None = Some 7%nat /\
  length (playlistContext (getSongInfo page)) = 10%nat /\
  playlistContext (getSongInfo page) <> [] /\
  request_context (intro_request page (mkSettings true "Kore" None))
  = Lines [].
Proof.
  intros page.
  assert (F : find_current 0 (queueItems page) None = Some 7%nat)
    by reflexivity.
  destruct (intro_request_drops_context page (mkSettings true "Kore" None))
    as (R & _ & _ & _ & _ & _ & _ & N).
  split; [exact F |]. split; [reflexivity |].
  split; [exact (N _ 7%nat eq_refl F) | exact R].
Defined.

End SongInfoProofs.

(** ** Messages to the background script *)

Module MessagingProofs.
Import Messaging.

Lemma sends_app a b : sends (a ++ b) = (sends a + sends b)%nat.
Proof. unfold sends. now rewrite List.filter_app, length_app. Qed.

Lemma slept_app a b : slept (a ++ b) = (slept a + slept b)%nat.
Proof.
  induction a as [| x a IH]; [reflexivity |].
  destruct x; simpl; rewrite IH; lia.
Qed.

Lemma retried_app a b : retried (a ++ b) = retried a ++ retried b.
Proof.
  induction a as [| x a IH]; [reflexivity |].
  destruct x; simpl; now rewrite IH.
Qed.

(** The loop, from attempt [a] to the attempt [k] that ends it. *)
Lemma attempts_stop maxRetries retryDelayMs onRetry outcome k res :
  forall n a lastError,
    (a + n = S maxRetries)%nat -> (1 <= a <= k)%nat -> (k <= maxRetries)%nat ->
    (forall i, (a <= i < k)%nat ->
       exists m, outcome i = Rejects m /\ isConnectionError m = true) ->
    stops_at outcome maxRetries k res ->
    let r := attempts (seq a n) maxRetries retryDelayMs onRetry outcome lastError in
    snd r = res /\
    sends (fst r) = S (k - a) /\
    slept (fst r)
    = (waited retryDelayMs a (k - a) + (if (1 <? k)%nat then 100 else 0))%nat /\
    retried (fst r) = (if onRetry then seq a (k - a) else []).
Proof.
  induction n as [| n IH]; intros a lastError Han Hak Hk Hfail Hstop; [lia |].
  cbn [seq attempts].
  destruct (Nat.eq_dec a k) as [-> | Hne].
  - rewrite Nat.sub_diag. unfold stops_at in Hstop.
    destruct (outcome k) as [r | m].
    + subst res. cbn [fst snd].
      rewrite sends_app, slept_app, retried_app.
      destruct (1 <? k)%nat; destruct onRetry; repeat split.
    + destruct Hstop as (Hc & ->).
      assert (C : negb (isConnectionError m) || (k =? maxRetries)%nat = true).
      { destruct Hc as [-> | ->]; [reflexivity |].
        rewrite Nat.eqb_refl. apply orb_true_r. }
      rewrite C. cbn [fst snd].
      rewrite sends_app, slept_app, retried_app.
      destruct (1 <? k)%nat; destruct onRetry; repeat split.
  - destruct (Hfail a) as (m & Ho & Hc); [lia |]. rewrite Ho, Hc.
    assert (Hm : (a =? maxRetries)%nat = false) by (apply Nat.eqb_neq; lia).
    rewrite Hm. cbn [negb orb].
    specialize (IH (S a) (Some m)).
    destruct IH as (I1 & I2 & I3 & I4); try lia; try assumption.
    { intros i Hi. apply Hfail. lia. }
    destruct (attempts (seq (S a) n) maxRetries retryDelayMs onRetry outcome
                (Some m)) as [acts r'].
    cbn [fst snd] in *.
    replace (k - a)%nat with (S (k - S a)) by lia.
    split; [exact I1 |].
    rewrite !sends_app, !slept_app, !retried_app, I2, I3, I4.
    cbn [waited seq].
    destruct (1 <? a)%nat; destruct onRetry; cbn; repeat split; lia.
Qed.

Lemma waited_from_one d m :
  (2 * waited d 1 m = d * (m * S m) + 200 * (m - 1))%nat.
Proof.
  assert (G : forall m a, (1 <= a)%nat ->
            (2 * waited d a m + d * (a * (a - 1))
             = d * ((a + m) * (a + m - 1))
               + 200 * (m - (if (1 <? a)%nat then 0 else 1)))%nat).
  { clear. induction m as [| m IH]; intros a Ha.
    - rewrite Nat.add_0_r. simpl. lia.
    - cbn [waited]. specialize (IH (S a) ltac:(lia)).
      replace (S a - 1)%nat with a in IH by lia.
      assert (E : (1 <? S a)%nat = true) by (apply Nat.ltb_lt; lia).
      rewrite E in IH.
      destruct (1 <? a)%nat eqn:A.
      + replace (a + S m)%nat with (S a + m)%nat by lia. nia.
      + apply Nat.ltb_ge in A. assert (a = 1%nat) by lia. subst a.
        replace (1 + S m)%nat with (2 + m)%nat by lia.
        simpl in IH. nia. }
  specialize (G m 1%nat ltac:(lia)). simpl in G.
  replace (1 + m - 1)%nat with m in G by lia.
  replace (m - 1)%nat with (m - 1)%nat by lia.
  rewrite Nat.sub_0_r in G. nia.
Qed.

Lemma total_wait d k :
  (1 <= k)%nat ->
  (2 * (waited d 1 (k - 1) + (if (1 <? k)%nat then 100 else 0))
   = d * (k * (k - 1)) + 200 * (k - 1))%nat.
Proof.
  intros Hk. pose proof (waited_from_one d (k - 1)) as W.
  replace (S (k - 1)) with k in W by lia.
  destruct (1 <? k)%nat eqn:E.
  - apply Nat.ltb_lt in E. nia.
  - apply Nat.ltb_ge in E. assert (k = 1%nat) by lia. subst k. simpl in *. lia.
Qed.

(** X21. If the sends of attempts 1 to k-1 fail with a connection error
    and attempt k, no later than [maxRetries], gets a response, then
    [sendMessageWithRetry] returns that response after exactly k sends.
    It reports the attempts 1 to k-1 to [onRetry], in order, and the time
    it waits grows with the retries as a sum, not as a power:
    retryDelayMs * (1 + ... + (k-1)) plus 100 ms after each ping. *)
Theorem retry_returns_first_response maxRetries retryDelayMs onRetry outcome k r :
  (1 <= k <= maxRetries)%nat ->
  connection_fails_before outcome k ->
  outcome k = Responds r ->
  let res := sendMessageWithRetry maxRetries retryDelayMs onRetry outcome in
  snd res = Returns r /\
  sends (fst res) = k /\
  retried (fst res) = (if onRetry then seq 1 (k - 1) else []) /\
  (2 * slept (fst res)
   = retryDelayMs * (k * (k - 1)) + 200 * (k - 1))%nat.
Proof.
  intros Hk Hf Ho res. subst res. unfold sendMessageWithRetry.
  destruct (attempts_stop maxRetries retryDelayMs onRetry outcome k (Returns r)
              maxRetries 1%nat None) as (R1 & R2 & R3 & R4); try lia.
  - intros i Hi. now apply Hf.
  - unfold stops_at. now rewrite Ho.
  - split; [exact R1 |]. split; [rewrite R2; lia |]. split; [exact R4 |].
    rewrite R3. apply total_wait. lia.
Qed.

Lemma retry_returns_first_response_witness :
  let outcome := fun k =>
    match k with
    | 3%nat => Responds "pong"
    | _ => Rejects (Some "Error: Receiving end does not exist.")
    end in
  (1 <= 3 <= 3)%nat /\ connection_fails_before outcome 3 /\
  outcome 3%nat = Responds "pong" /\
  snd (sendMessageWithRetry 3 300 true outcome) = Returns "pong" /\
  sends (fst (sendMessageWithRetry 3 300 true outcome)) = 3%nat /\
  slept (fst (sendMessageWithRetry 3 300 true outcome)) = 1100%nat.
Proof.
  intros outcome.
  assert (K : (1 <= 3 <= 3)%nat) by lia.
  assert (F : connection_fails_before outcome 3).
  { intros i Hi. exists (Some "Error: Receiving end does not exist."%string).
    destruct i as [| [| [| i]]]; try lia; split; reflexivity. }
  destruct (retry_returns_first_response 3 300 true outcome 3 "pong" K F eq_refl)
    as (R1 & R2 & _ & _).
  split; [exact K |]. split; [exact F |]. split; [reflexivity |].
  split; [exact R1 |]. split; [exact R2 | reflexivity].
Defined.

Lemma attempts_sends_bound maxRetries retryDelayMs onRetry outcome :
  forall n a lastError,
    (sends (fst (attempts (seq a n) maxRetries retryDelayMs onRetry outcome
                   lastError)) <= n)%nat.
Proof.
  induction n as [| n IH]; intros a le; cbn [seq attempts];
    [unfold sends; simpl; lia |].
  destruct (outcome a) as [r | m].
  - cbn [fst]. rewrite sends_app. destruct (1 <? a)%nat; unfold sends; simpl; lia.
  - destruct (negb (isConnectionError m) || (a =? maxRetries)%nat).
    + cbn [fst]. rewrite sends_app. destruct (1 <? a)%nat; unfold sends; simpl; lia.
    + specialize (IH (S a) (Some m)).
      destruct (attempts (seq (S a) n) maxRetries retryDelayMs onRetry
                  outcome (Some m)) as [acts r'].
      cbn [fst] in *. rewrite !sends_app.
      destruct (1 <? a)%nat; destruct onRetry; unfold sends in *; simpl; lia.
Qed.

(** The last attempt never falls through to the end of the loop. *)
Lemma attempts_known maxRetries retryDelayMs onRetry outcome :
  forall n a lastError,
    (a + n = S maxRetries)%nat -> (1 <= n)%nat ->
    snd (attempts (seq a n) maxRetries retryDelayMs onRetry outcome lastError)
    <> ThrowsUnknown.
Proof.
  induction n as [| n IH]; intros a le Ha Hn; [lia |].
  cbn [seq attempts].
  destruct (outcome a) as [r | e]; [discriminate |].
  destruct (negb (isConnectionError e) || (a =? maxRetries)%nat) eqn:C;
    [discriminate |].
  apply orb_false_iff in C as [_ C]. apply Nat.eqb_neq in C.
  specialize (IH (S a) (Some e) ltac:(lia) ltac:(lia)).
  now destruct (attempts (seq (S a) n) maxRetries retryDelayMs onRetry
                  outcome (Some e)).
Qed.

(** X22. [sendMessageWithRetry] gives up with the error of the send that
    fails, without another send and without telling [onRetry] about it,
    as soon as the error is not a connection error, or on attempt
    [maxRetries]; it never sends more than [maxRetries] times.  Its last
    line throws the "Unknown error", and does so exactly when
    [maxRetries] is 0, without any send. *)
Theorem retry_gives_up maxRetries retryDelayMs onRetry outcome :
  (forall k m,
     (1 <= k <= maxRetries)%nat ->
     connection_fails_before outcome k ->
     outcome k = Rejects m ->
     isConnectionError m = false \/ k = maxRetries ->
     let res := sendMessageWithRetry maxRetries retryDelayMs onRetry outcome in
     snd res = Throws m /\ sends (fst res) = k /\
     retried (fst res) = (if onRetry then seq 1 (k - 1) else []))
  /\
  (sends (fst (sendMessageWithRetry maxRetries retryDelayMs onRetry outcome))
   <= maxRetries)%nat
  /\
  (snd (sendMessageWithRetry maxRetries retryDelayMs onRetry outcome)
   = ThrowsUnknown <-> maxRetries = 0%nat).
Proof.
  split; [| split].
  - intros k m Hk Hf Ho Hc res. subst res. unfold sendMessageWithRetry.
    destruct (attempts_stop maxRetries retryDelayMs onRetry outcome k (Throws m)
                maxRetries 1%nat None) as (R1 & R2 & _ & R4); try lia.
    + intros i Hi. now apply Hf.
    + unfold stops_at. rewrite Ho. auto.
    + split; [exact R1 |]. split; [rewrite R2; lia | exact R4].
  - apply attempts_sends_bound.
  - unfold sendMessageWithRetry. split.
    + destruct maxRetries as [| n]; [reflexivity |]. intros H. exfalso.
      revert H. apply attempts_known; lia.
    + intros ->. reflexivity.
Qed.

Lemma retry_gives_up_witness :
  let outcome := fun k =>
    match k with
    | 2%nat => Rejects (Some "TypeError: message is not cloneable")
    | _ => Rejects (Some "Could not establish connection.")
    end in
  (1 <= 2 <= 3)%nat /\ connection_fails_before outcome 2 /\
  snd (sendMessageWithRetry 3 300 true outcome)
  = Throws (Some "TypeError: message is not cloneable") /\
  sends (fst (sendMessageWithRetry 3 300 true outcome)) = 2%nat.
Proof.
  intros outcome.
  assert (K : (1 <= 2 <= 3)%nat) by lia.
  assert (F : connection_fails_before outcome 2).
  { intros i Hi. exists (Some "Could not establish connection."%string).
    destruct i as [| [| i]]; try lia; split; reflexivity. }
  destruct (proj1 (retry_gives_up 3 300 true outcome) 2%nat _ K F eq_refl
              (or_introl eq_refl)) as (R1 & R2 & _).
  auto.
Defined.

End MessagingProofs.

(** ** The event bus *)

Module EventBusProofs.
Import EventBus.

Lemma key_inj e e' : key e = key e' -> e = e'.
Proof. destruct e, e'; simpl; intros H; try reflexivity; discriminate. Qed.

Lemma registered_on event cb event' (l : gmap string (list Callback)) :
  registered event' (on event cb l)
  = if decide (event = event') then registered event l ++ [cb]
    else registered event' l.
Proof.
  unfold registered, on.
  destruct (decide (event = event')) as [<- | N].
  - rewrite lookup_insert_eq. simpl.
    destruct (l !! key event) eqn:E; simpl; [now rewrite E |].
    now rewrite lookup_insert_eq.
  - assert (K : key event <> key event') by (intros H; now apply key_inj in H).
    rewrite lookup_insert_ne by exact K.
    destruct (l !! key event); [reflexivity |].
    now rewrite lookup_insert_ne by exact K.
Qed.

Lemma registered_off event cb event' (l : gmap string (list Callback)) :
  registered event' (off event cb l)
  = if decide (event = event')
    then List.filter (fun c => negb (c =? cb)%nat) (registered event l)
    else registered event' l.
Proof.
  unfold registered, off, Callback in *.
  destruct (decide (event = event')) as [<- | N].
  - destruct (l !! key event) eqn:E; simpl.
    + now rewrite lookup_insert_eq.
    + now rewrite E.
  - assert (K : key event <> key event') by (intros H; now apply key_inj in H).
    destruct (l !! key event); [| reflexivity].
    now rewrite lookup_insert_ne by exact K.
Qed.

Lemma emit_registered event detail (l : gmap string (list Callback)) :
  emit event detail l = map (fun cb => (cb, detail)) (registered event l).
Proof. unfold emit, registered. now destruct (l !! key event). Qed.

(** X23. Subscribing appends: after [on(event, callback)], an [emit] of
    that event calls what it called before, in the same order, and then
    the new callback with the same detail; the [emit] of another event
    calls what it called before.  A callback subscribed twice is called
    twice. *)
Theorem on_appends_listener event callback (l : gmap string (list Callback)) :
  (forall detail,
     emit event detail (on event callback l)
     = emit event detail l ++ [(callback, detail)]) /\
  (forall event' detail,
     event' <> event ->
     emit event' detail (on event callback l) = emit event' detail l) /\
  (forall detail,
     emit event detail (on event callback (on event callback ∅))
     = [(callback, detail); (callback, detail)]).
Proof.
  split; [| split].
  - intros detail. rewrite !emit_registered, registered_on.
    rewrite decide_True by reflexivity. now rewrite map_app.
  - intros event' detail N. rewrite !emit_registered, registered_on.
    now rewrite decide_False by congruence.
  - intros detail. rewrite !emit_registered, !registered_on.
    rewrite !decide_True by reflexivity.
    unfold registered. now rewrite lookup_empty.
Qed.

Lemma filter_not_in (cb : Callback) cbs :
  ~ In cb cbs -> List.filter (fun c => negb (c =? cb)%nat) cbs = cbs.
Proof.
  induction cbs as [| c cbs IH]; intros N; [reflexivity |].
  simpl. destruct (c =? cb)%nat eqn:E.
  - apply Nat.eqb_eq in E. subst. exfalso. apply N. now left.
  - simpl. f_equal. apply IH. intros H. apply N. now right.
Qed.

(** X24. Unsubscribing removes every subscription of the callback to the
    event, however many times it subscribed, keeps the other callbacks
    of the event in their order and leaves the other events alone; on an
    event nobody subscribed to it does nothing.  So the function that
    [on] returns undoes the subscription when the callback was not
    subscribed before; in any case the callback is not called for the
    event afterwards, even if it had subscribed before as well. *)
Theorem off_removes_every_subscription event callback
  (l : gmap string (list Callback)) :
  (forall detail,
     emit event detail (off event callback l)
     = List.filter (fun call => negb (fst call =? callback)%nat)
         (emit event detail l)) /\
  (forall event' detail,
     event' <> event ->
     emit event' detail (off event callback l) = emit event' detail l) /\
  (l !! key event = None -> off event callback l = l) /\
  (forall event' detail,
     ~ In callback (registered event l) ->
     emit event' detail (off event callback (on event callback l))
     = emit event' detail l) /\
  (forall detail,
     ~ In (callback, detail)
          (emit event detail (off event callback (on event callback l)))).
Proof.
  split; [| split; [| split; [| split]]].
  - intros detail. rewrite !emit_registered, registered_off.
    rewrite decide_True by reflexivity.
    induction (registered event l) as [| c cbs IH]; [reflexivity |].
    simpl. destruct (c =? callback)%nat; simpl; now rewrite IH.
  - intros event' detail N. rewrite !emit_registered, registered_off.
    now rewrite decide_False by congruence.
  - unfold off, Callback in *. intros H. now rewrite H.
  - intros event' detail N.
    rewrite !emit_registered, registered_off, !registered_on.
    destruct (decide (event = event')) as [<- | Ne]; [| reflexivity].
    rewrite decide_True by reflexivity.
    rewrite List.filter_app. unfold Callback in *.
    rewrite (filter_not_in _ _ N). simpl.
    rewrite Nat.eqb_refl. simpl. now rewrite app_nil_r.
  - intros detail H. rewrite emit_registered, registered_off in H.
    rewrite decide_True in H by reflexivity.
    apply in_map_iff in H as (c & [= ->] & H).
    apply List.filter_In in H as (_ & H).
    now rewrite Nat.eqb_refl in H.
Qed.

Lemma off_removes_every_subscription_witness :
  let l := on HORIS_STATUS_UPDATE 2%nat (on HORIS_STATUS_UPDATE 1%nat ∅) in
  ~ In 3%nat (registered HORIS_STATUS_UPDATE l) /\
  emit HORIS_STATUS_UPDATE "LIVE"
    (off HORIS_STATUS_UPDATE 3%nat (on HORIS_STATUS_UPDATE 3%nat l))
  = emit HORIS_STATUS_UPDATE "LIVE" l.
Proof.
  intros l.
  assert (N : ~ In 3%nat (registered HORIS_STATUS_UPDATE l)).
  { vm_compute. intros [H | [H | []]]; discriminate. }
  split; [exact N |].
  now apply (proj1 (proj2 (proj2 (proj2
               (off_removes_every_subscription HORIS_STATUS_UPDATE 3%nat l))))).
Defined.

Lemma on_appends_listener_witness :
  HORIS_MANUAL_TRIGGER <> HORIS_STATUS_UPDATE /\
  emit HORIS_MANUAL_TRIGGER "" (on HORIS_STATUS_UPDATE 1%nat ∅)
  = emit HORIS_MANUAL_TRIGGER "" ∅.
Proof.
  split; [discriminate |].
  apply (proj1 (proj2 (on_appends_listener HORIS_STATUS_UPDATE 1%nat ∅))).
  discriminate.
Defined.

End EventBusProofs.

(** ** The prefix of the logger *)

Module LoggerProofs.
Import Logger.

Lemma append_assoc (a b c : string) :
  String.append (String.append a b) c = String.append a (String.append b c).
Proof.
  induction a as [| x a IH]; [reflexivity |].
  change (String x (String.append (String.append a b) c)
          = String x (String.append a (String.append b c))).
  f_equal. exact IH.
Qed.

Lemma join_snoc sep part parts x :
  join sep (part :: parts ++ [x])
  = String.append (join sep (part :: parts)) (String.append sep x).
Proof.
  revert part. induction parts as [| p parts IH]; intros part.
  - reflexivity.
  - change (join sep (part :: (p :: parts) ++ [x]))
      with (String.append part
              (String.append sep (join sep (p :: parts ++ [x])))).
    rewrite IH.
    change (join sep (part :: p :: parts))
      with (String.append part (String.append sep (join sep (p :: parts)))).
    now rewrite !append_assoc.
Qed.

(** X25. The prefix of a logger made by [withContext] is the prefix of
    its parent followed by a space and the new context in brackets; so a
    prefix always starts with "[Horizon]" and lists the contexts in the
    order they were added, separated by spaces. *)
Theorem prefix_extends_parent context contexts :
  buildPrefix (withContext context contexts)
  = String.append (buildPrefix contexts)
      (String.append " " (bracket context)) /\
  String.prefix BASE_PREFIX (buildPrefix contexts) = true.
Proof.
  split.
  - unfold buildPrefix, withContext. rewrite length_app. cbn [length].
    replace (length contexts + 1 =? 0)%nat with false
      by (symmetry; apply Nat.eqb_neq; lia).
    rewrite map_app. cbn [map].
    rewrite (join_snoc " " BASE_PREFIX (map bracket contexts) (bracket context)).
    destruct contexts; reflexivity.
  - unfold buildPrefix. destruct contexts as [| c contexts]; [reflexivity |].
    reflexivity.
Qed.

End LoggerProofs.

(** ** The search of songs *)

Module SearchProofs.
Import Search.

Lemma text_or_truthy o fallback :
  truthy_str fallback = true -> truthy_str (SongInfo.text_or o fallback) = true.
Proof.
  intros H. unfold SongInfo.text_or. destruct o as [s |]; [| exact H].
  destruct (truthy_str s) eqn:E; [exact E | exact H].
Qed.

(** What [parse_item] pushes for an item. *)
Lemma parse_item_result item r :
  parse_item item = Some r ->
  exists mrlir,
    item = Some mrlir /\
    (Some (id r) = playlistVideoId mrlir \/
     (truthy_ostr (playlistVideoId mrlir) = false /\
      Some (id r) = watchVideoId mrlir)) /\
    truthy_str (id r) = true /\
    title r = SongInfo.text_or (titleText mrlir) "Unknown" /\
    truthy_str (title r) = true /\
    duration r = 0%nat /\
    (cover r = EmptyString \/
     exists urls, thumbnails mrlir = Some urls /\ urls <> [] /\
                  cover r = List.last urls EmptyString) /\
    ((artist r = "Unknown"%string /\
      forall runs run, artistRuns mrlir = Some runs -> In run runs ->
                       names_artist run = false) \/
     exists runs,
       artistRuns mrlir = Some runs /\
       In (mkRun (Some (artist r))) runs /\
       artist r <> "•"%string /\ SongInfo.blank (artist r) = false /\
       string_in (artist r) type_words = false).
Proof.
  unfold parse_item. destruct item as [mrlir |]; [| discriminate].
  intros H. exists mrlir. split; [reflexivity |]. revert H.
  destruct (truthy_ostr (playlistVideoId mrlir)) eqn:P;
    [destruct (playlistVideoId mrlir) as [vid |] eqn:Pv; [| discriminate]
    | destruct (watchVideoId mrlir) as [vid |] eqn:Wv; [| discriminate]];
    (destruct (truthy_str vid) eqn:V; cbn [negb]; [| discriminate]);
    intros [= <-]; cbn [id title artist cover duration];
    (split; [auto |]); (split; [exact V |]); (split; [reflexivity |]);
    (split; [now apply text_or_truthy |]); (split; [reflexivity |]).
  all: split.
  all: try (destruct (thumbnails mrlir) as [urls |]; [| now left];
            destruct urls as [| u urls]; [now left |];
            right; exists (u :: urls); repeat split; discriminate).
  all: destruct (artistRuns mrlir) as [runs |] eqn:R;
    cbn [default from_option Datatypes.id];
    [| left; split; [reflexivity | intros ? ? [=]]].
  all: destruct (List.find names_artist runs) as [run |] eqn:F.
  all: try (left; split; [reflexivity |];
            intros runs' run' [= <-] Hin;
            now apply (List.find_none _ _ F)).
  all: apply List.find_some in F as (Hin & Hn);
    unfold names_artist in Hn; destruct run as [[t |]]; cbn in Hn, Hin |- *;
    [| discriminate];
    apply andb_true_iff in Hn as [Hn H4]; apply andb_true_iff in Hn as [Hn H3];
    apply andb_true_iff in Hn as [H1 H2];
    apply negb_true_iff in H2, H3, H4; apply String.eqb_neq in H2;
    right; exists runs; auto 10.
Qed.

Lemma parse_sections_in sections r :
  In r (fst (parse_sections sections)) ->
  exists shelf items item,
    In (Some shelf) sections /\ contents shelf = Some items /\
    In item items /\ parse_item item = Some r.
Proof.
  induction sections as [| [shelf |] sections IH]; simpl; [intros [] | |].
  - destruct (contents shelf) as [items |] eqn:C; [| intros []].
    destruct (parse_sections sections) as [results thrown]. simpl in *.
    intros H. apply in_app_or in H as [H | H].
    + apply list_elem_of_In, list_elem_of_omap in H as (item & Hi & Hp).
      apply list_elem_of_In in Hi. exists shelf, items, item. auto.
    + destruct (IH H) as (sh & its & it & H1 & H2 & H3 & H4).
      exists sh, its, it. auto.
  - intros H. destruct (IH H) as (sh & its & it & H1 & H2 & H3 & H4).
    exists sh, its, it. auto.
Qed.

(** X26. Every result of [parseSearchResponse] comes from an item of a
    shelf of the response.  Its id is the video id of that item, of the
    playlist data or else of the watch endpoint, and is not empty; its
    title is the first title text of the item, or "Unknown", and is not
    empty; its duration is 0; its cover is empty or the last thumbnail of
    the item.  Its artist is "Unknown", when no artist run of the item
    qualifies, or the text of one of the artist runs of the item, and then
    neither the bullet, nor blank, nor one of the words Song, Video,
    Single, EP, Album. *)
Theorem search_results_are_well_formed data r :
  In r (parseSearchResponse data) ->
  exists sections shelf items mrlir,
    data = Some sections /\ In (Some shelf) sections /\
    contents shelf = Some items /\ In (Some mrlir) items /\
    (Some (id r) = playlistVideoId mrlir \/
     (truthy_ostr (playlistVideoId mrlir) = false /\
      Some (id r) = watchVideoId mrlir)) /\
    truthy_str (id r) = true /\
    title r = SongInfo.text_or (titleText mrlir) "Unknown" /\
    truthy_str (title r) = true /\
    duration r = 0%nat /\
    (cover r = EmptyString \/
     exists urls, thumbnails mrlir = Some urls /\ urls <> [] /\
                  cover r = List.last urls EmptyString) /\
    ((artist r = "Unknown"%string /\
      forall runs run, artistRuns mrlir = Some runs -> In run runs ->
                       names_artist run = false) \/
     exists runs,
       artistRuns mrlir = Some runs /\
       In (mkRun (Some (artist r))) runs /\
       artist r <> "•"%string /\ SongInfo.blank (artist r) = false /\
       string_in (artist r) type_words = false).
Proof.
  unfold parseSearchResponse. destruct data as [sections |]; [| intros []].
  intros H.
  apply parse_sections_in in H as (sh & its & it & H1 & H2 & H3 & Hp).
  destruct (parse_item_result it r Hp) as (mrlir & -> & R).
  exists sections, sh, its, mrlir. auto.
Qed.

Lemma search_results_are_well_formed_witness :
  let mrlir := mkRenderer None (Some "dQw4w9WgXcQ") (Some "Song A")
                 (Some [mkRun (Some "Song"); mkRun (Some "•");
                        mkRun (Some "Artist A")])
                 (Some ["small.jpg"; "large.jpg"]%string) in
  let data := Some [None; Some (mkShelf (Some [None; Some mrlir]))] in
  let r := mkResult "dQw4w9WgXcQ" "Song A" "Artist A" "large.jpg" 0 in
  In r (parseSearchResponse data) /\
  exists sections shelf items mrlir',
    data = Some sections /\ In (Some shelf) sections /\
    contents shelf = Some items /\ In (Some mrlir') items /\
    (Some (id r) = playlistVideoId mrlir' \/
     (truthy_ostr (playlistVideoId mrlir') = false /\
      Some (id r) = watchVideoId mrlir')).
Proof.
  intros mrlir data r.
  assert (H : In r (parseSearchResponse data)) by (vm_compute; now left).
  split; [exact H |].
  destruct (search_results_are_well_formed data r H)
    as (sections & shelf & items & m & H1 & H2 & H3 & H4 & H5 & _).
  exists sections, shelf, items, m. auto.
Defined.

Lemma parse_sections_app s1 s2 :
  parse_sections (s1 ++ s2)
  = if snd (parse_sections s1) then parse_sections s1
    else (fst (parse_sections s1) ++ fst (parse_sections s2),
          snd (parse_sections s2)).
Proof.
  induction s1 as [| [shelf |] s1 IH]; simpl.
  - now destruct (parse_sections s2).
  - destruct (contents shelf) as [items |]; [| reflexivity].
    rewrite IH. destruct (parse_sections s1) as [r1 t1]. simpl.
    destruct t1; [reflexivity |].
    now rewrite app_assoc.
  - exact IH.
Qed.

(** X27. A shelf without [contents] ends the parsing: what comes after
    it in the response is not read, and the results are those of the
    sections before it.  Sections that are no shelf are skipped, and a
    response whose shelves all have contents is parsed shelf by shelf, in
    order, with at most one result for each item. *)
Theorem broken_shelf_ends_parsing before after :
  parseSearchResponse (Some (before ++ Some (mkShelf None) :: after))
  = parseSearchResponse (Some before)
  /\
  (snd (parse_sections before) = false ->
   parseSearchResponse (Some (before ++ after))
   = parseSearchResponse (Some before) ++ parseSearchResponse (Some after))
  /\
  parseSearchResponse (Some (None :: after)) = parseSearchResponse (Some after)
  /\
  (forall items,
     (length (parseSearchResponse (Some [Some (mkShelf (Some items))]))
      <= length items)%nat).
Proof.
  unfold parseSearchResponse. split; [| split; [| split]].
  - rewrite parse_sections_app. simpl.
    destruct (parse_sections before) as [r t]. simpl.
    destruct t; [reflexivity |]. simpl. now rewrite app_nil_r.
  - intros H. rewrite parse_sections_app, H. reflexivity.
  - reflexivity.
  - intros items. simpl. rewrite app_nil_r.
    induction items as [| item items IH]; [simpl; lia |].
    cbn [omap list_omap length].
    destruct (parse_item item); cbn [length]; lia.
Qed.

Lemma broken_shelf_ends_parsing_witness :
  let item := Some (mkRenderer (Some "a1") None (Some "Song A") None None) in
  let before := [Some (mkShelf (Some [item]))] in
  snd (parse_sections before) = false /\
  parseSearchResponse (Some (before ++ [None; Some (mkShelf (Some [item]))]))
  = parseSearchResponse (Some before)
    ++ parseSearchResponse (Some [None; Some (mkShelf (Some [item]))]).
Proof.
  intros item before. split; [reflexivity |].
  now apply (proj1 (proj2 (broken_shelf_ends_parsing before
                             [None; Some (mkShelf (Some [item]))]))).
Defined.

Lemma utf16_length_zero query : utf16_length query = 0%nat -> query = EmptyString \/
  exists c rest, query = String c rest /\ SongInfo.byte_in c 128 191 = true.
Proof.
  destruct query as [| c rest]; [now left |]. simpl.
  destruct (SongInfo.byte_in c 128 191) eqn:E; [right; eauto |].
  destruct (SongInfo.byte_in c 240 255); simpl; lia.
Qed.

(** X28. [SongSearchService.search] answers no result, without searching,
    for a query shorter than two UTF-16 code units (the empty query
    among them).  For a longer query, when the search of the endpoint
    fails (no context of the page after a second, a request that fails
    or is refused) it answers one result made from the query, "manual-1"
    by "Search Result"; otherwise it answers the parsed results. *)
Theorem song_search_falls_back query context_now context_later fetch :
  ((utf16_length query < 2)%nat ->
   song_search query context_now context_later fetch = ([], false))
  /\
  ((2 <= utf16_length query)%nat ->
   ytm_search context_now context_later fetch = None ->
   song_search query context_now context_later fetch
   = ([mkResult "manual-1" query "Search Result" "" 0], true))
  /\
  ((2 <= utf16_length query)%nat ->
   forall data,
     context_now = true \/ context_later = true ->
     fetch = FetchOk data ->
     song_search query context_now context_later fetch
     = (parseSearchResponse data, true))
  /\
  (ytm_search context_now context_later fetch = None <->
   (context_now = false /\ context_later = false) \/
   fetch = FetchFails \/ fetch = FetchNotOk).
Proof.
  assert (L : (2 <= utf16_length query)%nat ->
              negb (truthy_str query) || (utf16_length query <? 2)%nat = false).
  { intros H. destruct query; [simpl in H; lia |]. simpl truthy_str.
    simpl negb. simpl orb. apply Nat.ltb_ge. exact H. }
  split; [| split; [| split]].
  - intros H. unfold song_search.
    apply Nat.ltb_lt in H. rewrite H. now rewrite orb_true_r.
  - intros H N. unfold song_search. now rewrite (L H), N.
  - intros H data C ->. unfold song_search, ytm_search. rewrite (L H).
    destruct C as [-> | ->]; [reflexivity |]. now rewrite andb_false_r.
  - unfold ytm_search.
    destruct context_now, context_later, fetch; simpl;
      split; intros H; try discriminate; auto;
      destruct H as [[? ?] | [? | ?]]; discriminate.
Qed.

Lemma song_search_falls_back_witness :
  (2 <= utf16_length "Song A")%nat /\
  ytm_search false false (FetchOk None) = None /\
  song_search "Song A" false false (FetchOk None)
  = ([mkResult "manual-1" "Song A" "Search Result" "" 0], true) /\
  (utf16_length "é" < 2)%nat /\
  song_search "é" true true FetchFails = ([], false).
Proof.
  assert (H : (2 <= utf16_length "Song A")%nat) by (vm_compute; lia).
  assert (S : (utf16_length "é" < 2)%nat) by (vm_compute; lia).
  split; [exact H |]. split; [reflexivity |].
  split; [now apply (proj1 (proj2 (song_search_falls_back
                                     "Song A" false false (FetchOk None)))) |].
  split; [exact S |].
  now apply (proj1 (song_search_falls_back "é" true true FetchFails)).
Defined.

End SearchProofs.
